(** * git-deps: the dependency detector ([git_deps/detector.py])

    A shallow embedding of [DependencyDetector] and the properties of its
    worklist traversal.  The detector object is an explicit record threaded
    through a state-and-exception monad; the git repository (pygit2 and the
    [git] executable) is an interface whose operations the detector calls.

    Logging ([self.logger]) is left out: it reads the state and writes
    nowhere the detector looks.  The one place where a logging helper can
    raise ([debug_hunk], a dictionary lookup) is kept. *)

From Stdlib Require Import String Ascii ZArith List Bool Arith Lia FinFun DecimalString.
Import ListNotations.

Local Open Scope string_scope.
Local Open Scope list_scope.
Local Open Scope Z_scope.

(* ================================================================== *)
(** ** Python strings *)

(** [str.split(sep)] for a one-character separator. *)
Fixpoint split (sep : ascii) (s : string) : list string :=
  match s with
  | EmptyString => [EmptyString]
  | String c rest =>
      if Ascii.eqb c sep then EmptyString :: split sep rest
      else match split sep rest with
           | [] => [String c EmptyString]
           | w :: ws => String c w :: ws
           end
  end.

(** The characters [str.isspace] accepts, in the ASCII range:
    tab, line feed, vertical tab, form feed, carriage return, the four
    separators 0x1c-0x1f and the space. *)
Definition isspace (c : ascii) : bool :=
  let n := nat_of_ascii c in
  ((9 <=? n)%nat && (n <=? 13)%nat) || ((28 <=? n)%nat && (n <=? 32)%nat).

Fixpoint lstrip (s : string) : string :=
  match s with
  | EmptyString => EmptyString
  | String c rest => if isspace c then lstrip rest else s
  end.

Fixpoint rstrip (s : string) : string :=
  match s with
  | EmptyString => EmptyString
  | String c rest =>
      match rstrip rest with
      | EmptyString => if isspace c then EmptyString else String c EmptyString
      | r => String c r
      end
  end.

Definition strip (s : string) : string := lstrip (rstrip s).

(** [str(n)] and the [{n}] of an f-string, for an integer. *)
Definition str_of_int (n : Z) : string := NilZero.string_of_int (Z.to_int n).

(* ================================================================== *)
(** ** Python dictionaries

    A [dict] keeps its keys in insertion order, and [edges()] and the
    listeners iterate over them, so a dictionary is an association list:
    assignment to a present key replaces the value in place, assignment to
    an absent key appends.  Keys are compared with Python's [==], which a
    key type supplies as [py_eqb]. *)

Class PyEq (K : Type) := py_eqb : K -> K -> bool.

#[global] Instance PyEq_string : PyEq string := String.eqb.
#[global] Instance PyEq_Z : PyEq Z := Z.eqb.

Definition dict (K V : Type) := list (K * V).

Module Dict.
Section Ops.
Context {K V : Type} `{PyEq K}.

(** [d.get(k)] *)
Fixpoint get (k : K) (d : dict K V) : option V :=
  match d with
  | [] => None
  | (k0, v0) :: d' => if py_eqb k0 k then Some v0 else get k d'
  end.

(** [k in d] *)
Definition mem (k : K) (d : dict K V) : bool :=
  match get k d with Some _ => true | None => false end.

(** [d[k] = v] *)
Fixpoint set (k : K) (v : V) (d : dict K V) : dict K V :=
  match d with
  | [] => [(k, v)]
  | (k0, v0) :: d' =>
      if py_eqb k0 k then (k0, v) :: d' else (k0, v0) :: set k v d'
  end.

(** [del d[k]], for a key that is present *)
Fixpoint del (k : K) (d : dict K V) : dict K V :=
  match d with
  | [] => []
  | (k0, v0) :: d' => if py_eqb k0 k then d' else (k0, v0) :: del k d'
  end.

(** [d.keys()] *)
Definition keys (d : dict K V) : list K := map fst d.
End Ops.
End Dict.

(* ================================================================== *)
(** ** Git objects, as pygit2 hands them to the detector *)

(** What [repo[oid]] returns while walking a path: a blob or a tree, a
    tree listing its own directory only (entry name, object id). *)
Inductive gitobj : Type :=
| Blob (data : string)
| Tree (entries : dict string string).

(** A commit object: [str(commit.id)], [commit.parents] (commit objects,
    first parent first) and the entries of [commit.tree]. *)
#[warnings="-register-all"]
Inductive commit : Type :=
  Commit { commit_id : string;
           parents : list commit;
           tree : dict string string }.

(** One line of a diff hunk: [line.origin] and [line.content]. *)
Record diff_line : Type :=
  { origin : ascii; content : string }.

Record hunk : Type :=
  { old_start : Z; old_lines : Z;
    new_start : Z; new_lines : Z;
    lines : list diff_line }.

(** [patch.delta.old_file.path] and [patch.hunks]. *)
Record patch : Type :=
  { old_file_path : string; hunks : list hunk }.

(** One attribution result; [orig_commit_id] is the hex digest
    ([blame_hunk.orig_commit_id.hex]). *)
Record blame_hunk : Type :=
  { orig_start_line_number : Z;
    final_start_line_number : Z;
    lines_in_hunk : Z;
    orig_commit_id : string }.

(** The repository the detector talks to.  [None] is the failure of the
    call: [InvalidCommitish] for [ref_commit], [KeyError] for [repo[oid]],
    a failed process for the blame and merge-base commands. *)
Class Repo : Type :=
  { ref_commit : string -> option commit;
    repo_diff : commit -> commit -> Z -> list patch;
    repo_blame : string -> string -> Z -> Z -> option (list blame_hunk);
    blame_via_subprocess :
      string -> string -> Z -> Z -> option (list blame_hunk);
    repo_getitem : string -> option gitobj;
    check_output_merge_base : string -> string -> option string }.

(** [self.options], as far as the detector reads it. *)
Class Options : Type :=
  { recurse : bool;
    context_lines : Z;
    exclude_commits : option (list string);
    pygit2_blame : bool }.

(* ================================================================== *)
(** ** The detector object *)

(** The file causing a dependency, and per file the line numbers with the
    blame line recorded for each. *)
Definition dep_sources_t := dict string (dict Z string).
(** dependents -> dependencies -> files -> lines *)
Definition dependencies_t := dict string (dict string dep_sources_t).

(** The argument of [seen_commit] and the keys of [self.commits]: Python
    lets both a revision string and a commit object through. *)
Inductive rev_key : Type :=
| RevStr (rev : string)
| RevCommit (c : commit).

(** Python's [==] on these values: strings by content, pygit2 objects by
    object id, and a string never equals a commit object. *)
#[global] Instance PyEq_rev_key : PyEq rev_key :=
  fun a b =>
    match a, b with
    | RevStr x, RevStr y => String.eqb x y
    | RevCommit x, RevCommit y => String.eqb (commit_id x) (commit_id y)
    | _, _ => false
    end.

(** What [notify_listeners] hands to every registered listener. *)
Inductive event : Type :=
| new_commit (c : commit)
| new_dependent (c : commit)
| new_dependency (dependent dependency : commit) (path : string) (line_num : Z)
| new_path (dependent dependency : commit) (path : string) (line_num : Z)
| new_line (dependent dependency : commit) (path : string) (line_num : Z)
| dependent_done (c : commit) (deps : dict string dep_sources_t)
| all_done.

(** The analysis requests sent to the repository. *)
Inductive backend_call : Type :=
| call_diff (parent dependent : string)
| call_blame (path newest : string) (start count : Z)
| call_merge_base (sha1 branch_sha1 : string).

(** The fields of the Python object, and two traces it does not keep:
    what was sent to the listeners ([notified]) and what was asked of the
    repository ([calls]), both oldest first. *)
Record detector : Type :=
  { dependencies : dependencies_t;
    todo : list commit;
    todo_d : dict string bool;
    done : list string;
    done_d : dict string bool;
    commits : dict rev_key commit;
    branch_contains_cache : dict string (dict string bool);
    notified : list event;
    calls : list backend_call }.

(** [DependencyDetector.__init__] *)
Definition init : detector :=
  {| dependencies := []; todo := []; todo_d := [];
     done := []; done_d := []; commits := [];
     branch_contains_cache := []; notified := []; calls := [] |}.

Definition with_dependencies (x : dependencies_t) (s : detector) :=
  {| dependencies := x; todo := todo s; todo_d := todo_d s;
     done := done s; done_d := done_d s; commits := commits s;
     branch_contains_cache := branch_contains_cache s;
     notified := notified s; calls := calls s |}.
Definition with_todo (x : list commit) (s : detector) :=
  {| dependencies := dependencies s; todo := x; todo_d := todo_d s;
     done := done s; done_d := done_d s; commits := commits s;
     branch_contains_cache := branch_contains_cache s;
     notified := notified s; calls := calls s |}.
Definition with_todo_d (x : dict string bool) (s : detector) :=
  {| dependencies := dependencies s; todo := todo s; todo_d := x;
     done := done s; done_d := done_d s; commits := commits s;
     branch_contains_cache := branch_contains_cache s;
     notified := notified s; calls := calls s |}.
Definition with_done (x : list string) (s : detector) :=
  {| dependencies := dependencies s; todo := todo s; todo_d := todo_d s;
     done := x; done_d := done_d s; commits := commits s;
     branch_contains_cache := branch_contains_cache s;
     notified := notified s; calls := calls s |}.
Definition with_done_d (x : dict string bool) (s : detector) :=
  {| dependencies := dependencies s; todo := todo s; todo_d := todo_d s;
     done := done s; done_d := x; commits := commits s;
     branch_contains_cache := branch_contains_cache s;
     notified := notified s; calls := calls s |}.
Definition with_commits (x : dict rev_key commit) (s : detector) :=
  {| dependencies := dependencies s; todo := todo s; todo_d := todo_d s;
     done := done s; done_d := done_d s; commits := x;
     branch_contains_cache := branch_contains_cache s;
     notified := notified s; calls := calls s |}.
Definition with_branch_contains_cache
    (x : dict string (dict string bool)) (s : detector) :=
  {| dependencies := dependencies s; todo := todo s; todo_d := todo_d s;
     done := done s; done_d := done_d s; commits := commits s;
     branch_contains_cache := x;
     notified := notified s; calls := calls s |}.
Definition with_notified (x : list event) (s : detector) :=
  {| dependencies := dependencies s; todo := todo s; todo_d := todo_d s;
     done := done s; done_d := done_d s; commits := commits s;
     branch_contains_cache := branch_contains_cache s;
     notified := x; calls := calls s |}.
Definition with_calls (x : list backend_call) (s : detector) :=
  {| dependencies := dependencies s; todo := todo s; todo_d := todo_d s;
     done := done s; done_d := done_d s; commits := commits s;
     branch_contains_cache := branch_contains_cache s;
     notified := notified s; calls := x |}.

(* ================================================================== *)
(** ** State and exceptions *)

Inductive exn : Type :=
| SystemExit                       (* [abort(...)] *)
| InvalidCommitish (rev : string)
| KeyError
| CalledProcessError.

(** How a method call ends: it returns, it raises, or the model ran out
    of iterations for the [while] loop.  Each carries the detector as it
    is at that moment. *)
Inductive outcome (A : Type) : Type :=
| Ok (a : A) (s : detector)
| Raise (e : exn) (s : detector)
| OutOfFuel (s : detector).
Arguments Ok {A} a s.
Arguments Raise {A} e s.
Arguments OutOfFuel {A} s.

Definition M (A : Type) : Type := detector -> outcome A.

Definition ret {A} (a : A) : M A := fun s => Ok a s.

Definition bind {A B} (m : M A) (k : A -> M B) : M B :=
  fun s =>
    match m s with
    | Ok a s' => k a s'
    | Raise e s' => Raise e s'
    | OutOfFuel s' => OutOfFuel s'
    end.

Declare Scope det_scope.
Delimit Scope det_scope with det.
Notation "x <- m ;; k" := (bind m (fun x => k))
  (at level 61, m at next level, right associativity) : det_scope.
Notation "m ;; k" := (bind m (fun _ => k))
  (at level 61, right associativity) : det_scope.
Local Open Scope det_scope.

Definition raise {A} (e : exn) : M A := fun s => Raise e s.
Definition gets {A} (f : detector -> A) : M A := fun s => Ok (f s) s.
Definition modify (f : detector -> detector) : M unit := fun s => Ok tt (f s).

(** [git_deps.utils.abort]: print the message and leave the process. *)
Definition abort {A} : M A := raise SystemExit.

(** [d[k]] as an expression: the value, or [KeyError]. *)
Definition getitem {K V} `{PyEq K} (k : K) (d : dict K V) : M V :=
  match Dict.get k d with
  | Some v => ret v
  | None => raise KeyError
  end.

(** [try: m  except InvalidCommitish as e: handler] *)
Definition try_except_InvalidCommitish {A}
    (m : M A) (handler : string -> M A) : M A :=
  fun s =>
    match m s with
    | Raise (InvalidCommitish rev) s' => handler rev s'
    | o => o
    end.

(** A [for] loop over a list, threading a local value through the body. *)
Fixpoint for_fold {X A} (l : list X) (a : A) (body : X -> A -> M A) : M A :=
  match l with
  | [] => ret a
  | x :: l' => a' <- body x a ;; for_fold l' a' body
  end.

Definition for_each {X} (l : list X) (body : X -> M unit) : M unit :=
  for_fold l tt (fun x _ => body x).

(** [notify_listeners(event, *args)]: every registered listener receives
    the call, in registration order; the detector's trace keeps it once. *)
Definition notify_listeners (e : event) : M unit :=
  modify (fun s => with_notified (notified s ++ [e]) s).

Definition log_call (c : backend_call) : M unit :=
  modify (fun s => with_calls (calls s ++ [c]) s).

(* ================================================================== *)
(** ** The methods of [DependencyDetector] *)

Section Detector.
Context {repo : Repo} {options : Options}.

(** [rev in self.commits] *)
Definition seen_commit (rev : rev_key) : M bool :=
  gets (fun s => Dict.mem rev (commits s)).

Definition get_commit (rev : string) : M commit :=
  cached <- gets (fun s => Dict.get (RevStr rev) (commits s)) ;;
  match cached with
  | Some c => ret c
  | None =>
      match ref_commit rev with
      | None => raise (InvalidCommitish rev)
      | Some c =>
          modify (fun s => with_commits (Dict.set (RevStr rev) c (commits s)) s) ;;
          ret c
      end
  end.

(** Truth value of what [tree_lookup] returns: [None] is false, and so
    is a tree without entries (pygit2 trees have a length). *)
Definition truthy (o : option gitobj) : bool :=
  match o with
  | None => false
  | Some (Tree []) => false
  | Some _ => true
  end.

(** The [while segments] loop of [tree_lookup]. *)
Fixpoint tree_lookup_loop (segments : list string) (tree_or_blob : gitobj)
    : M (option gitobj) :=
  match segments with
  | [] => ret (Some tree_or_blob)
  | dirent :: segments' =>
      match tree_or_blob with
      | Tree entries =>
          match Dict.get dirent entries with
          | Some oid =>
              match repo_getitem oid with
              | Some obj => tree_lookup_loop segments' obj
              | None => raise KeyError
              end
          | None => ret None
          end
      | Blob _ => ret None
      end
  end.

Definition tree_lookup (target_path : string) (c : commit)
    : M (option gitobj) :=
  tree_lookup_loop (split "/" target_path) (Tree (tree c)).

Definition run_blame (h : hunk) (parent : commit) (path : string)
    : M (list blame_hunk) :=
  log_call (call_blame path (commit_id parent) (old_start h) (old_lines h)) ;;
  match (if pygit2_blame
         then repo_blame path (commit_id parent)
                (old_start h) (old_start h + old_lines h - 1)
         else blame_via_subprocess path (commit_id parent)
                (old_start h) (old_lines h)) with
  | Some blame => ret blame
  | None => raise CalledProcessError
  end.

Definition branch_contains (c : commit) (branch : string) : M bool :=
  let sha1 := commit_id c in
  branch_commit <- get_commit branch ;;
  let branch_sha1 := commit_id branch_commit in
  known <- gets (fun s => Dict.mem sha1 (branch_contains_cache s)) ;;
  (if known then ret tt
   else modify (fun s => with_branch_contains_cache
                           (Dict.set sha1 [] (branch_contains_cache s)) s)) ;;
  row <- (cache <- gets branch_contains_cache ;; getitem sha1 cache) ;;
  match Dict.get branch_sha1 row with
  | Some memoized => ret memoized
  | None =>
      log_call (call_merge_base sha1 branch_sha1) ;;
      match check_output_merge_base sha1 branch_sha1 with
      | None => raise CalledProcessError
      | Some out =>
          let result := String.eqb (strip out) sha1 in
          modify (fun s => with_branch_contains_cache
                             (Dict.set sha1 (Dict.set branch_sha1 result row)
                                (branch_contains_cache s)) s) ;;
          ret result
      end
  end.

(** The loop of [is_excluded]: the first boundary that contains the
    commit ends it. *)
Fixpoint is_excluded_loop (c : commit) (excludes : list string) : M bool :=
  match excludes with
  | [] => ret false
  | exclude :: rest =>
      b <- branch_contains c exclude ;;
      if b then ret true else is_excluded_loop c rest
  end.

Definition is_excluded (c : commit) : M bool :=
  match exclude_commits with
  | Some excludes => is_excluded_loop c excludes
  | None => ret false
  end.

Definition register_new_dependent (dependent : commit)
    (dependent_sha1 : string) : M unit :=
  known <- gets (fun s => Dict.mem dependent_sha1 (dependencies s)) ;;
  if known then ret tt
  else
    modify (fun s => with_dependencies
                       (Dict.set dependent_sha1 [] (dependencies s)) s) ;;
    notify_listeners (new_dependent dependent).

Definition process_new_dependency (dependent : commit)
    (dependent_sha1 : string) (dependency : commit)
    (dependency_sha1 : string) (path : string) (line_num : Z) : M unit :=
  seen <- seen_commit (RevCommit dependency) ;;
  (if seen then ret tt
   else
     notify_listeners (new_commit dependency) ;;
     deps <- gets dependencies ;;
     by_dependent <- getitem dependent_sha1 deps ;;
     modify (with_dependencies
               (Dict.set dependent_sha1
                  (Dict.set dependency_sha1 [] by_dependent) deps))) ;;
  notify_listeners (new_dependency dependent dependency path line_num) ;;
  in_todo <- gets (fun s => Dict.mem dependency_sha1 (todo_d s)) ;;
  if in_todo then ret tt
  else
    in_done <- gets (fun s => Dict.mem dependency_sha1 (done_d s)) ;;
    if in_done then ret tt
    else
      is_dependent <- gets (fun s => Dict.mem dependency_sha1 (dependencies s)) ;;
      if is_dependent then ret tt
      else if recurse then
        modify (fun s => with_todo (todo s ++ [dependency]) s) ;;
        modify (fun s => with_todo_d
                           (Dict.set (commit_id dependency) true (todo_d s)) s)
      else ret tt.

Definition record_dependency_source (parent dependent : commit)
    (dependent_sha1 : string) (dependency : commit)
    (dependency_sha1 : string) (path : string) (line_num : Z)
    (line : string) : M unit :=
  deps <- gets dependencies ;;
  by_dependent <- getitem dependent_sha1 deps ;;
  dep_sources <- getitem dependency_sha1 by_dependent ;;
  dep_sources <-
    (if Dict.mem path dep_sources then ret dep_sources
     else
       let dep_sources' := Dict.set path [] dep_sources in
       modify (with_dependencies
                 (Dict.set dependent_sha1
                    (Dict.set dependency_sha1 dep_sources' by_dependent)
                    deps)) ;;
       notify_listeners (new_path dependent dependency path line_num) ;;
       ret dep_sources') ;;
  path_lines <- getitem path dep_sources ;;
  if Dict.mem line_num path_lines then abort
  else
    modify (with_dependencies
              (Dict.set dependent_sha1
                 (Dict.set dependency_sha1
                    (Dict.set path (Dict.set line_num line path_lines)
                       dep_sources)
                    by_dependent)
                 deps)) ;;
    notify_listeners (new_line dependent dependency path line_num).

(** [for i in range(n): line_to_culprit[line_num + i] = culprit] *)
Fixpoint mark_culprit (n : nat) (line_num : Z) (culprit : string)
    (line_to_culprit : dict Z string) : dict Z string :=
  match n with
  | O => line_to_culprit
  | S n' =>
      mark_culprit n' (line_num + 1) culprit
        (Dict.set line_num culprit line_to_culprit)
  end.

Definition process_blame_hunk (dependent : commit) (dependent_sha1 : string)
    (parent : commit) (path : string) (bh : blame_hunk)
    (line_to_culprit : dict Z string) : M (dict Z string) :=
  let orig_line_num := orig_start_line_number bh in
  let line_num := final_start_line_number bh in
  let dependency_sha1 := orig_commit_id bh in
  let line_representation :=
    (dependency_sha1 ++ " " ++ str_of_int orig_line_num
                     ++ " " ++ str_of_int line_num)%string in
  dependency <- get_commit dependency_sha1 ;;
  let line_to_culprit :=
    mark_culprit (Z.to_nat (lines_in_hunk bh)) line_num
      (commit_id dependency) line_to_culprit in
  excluded <- is_excluded dependency ;;
  if excluded then ret line_to_culprit
  else
    deps <- gets dependencies ;;
    by_dependent <- getitem dependent_sha1 deps ;;
    (if Dict.mem dependency_sha1 by_dependent then ret tt
     else process_new_dependency dependent dependent_sha1
            dependency dependency_sha1 path line_num) ;;
    record_dependency_source parent dependent dependent_sha1
      dependency dependency_sha1 path line_num line_representation ;;
    ret line_to_culprit.

(** The loop of [debug_hunk].  What it prints is left out; the lookup
    [line_to_culprit[line_num]] is kept. *)
Fixpoint debug_hunk_loop (ls : list diff_line) (line_num : Z)
    (line_to_culprit : dict Z string) : M unit :=
  match ls with
  | [] => ret tt
  | line :: ls' =>
      if String.eqb (String "010" "\ No newline at end of file")
           (rstrip (content line))
      then ret tt
      else if Ascii.eqb (origin line) "+"
      then debug_hunk_loop ls' line_num line_to_culprit
      else
        _ <- getitem line_num line_to_culprit ;;
        debug_hunk_loop ls' (line_num + 1) line_to_culprit
  end.

Definition debug_hunk (h : hunk) (line_to_culprit : dict Z string) : M unit :=
  debug_hunk_loop (lines h) (old_start h) line_to_culprit.

Definition blame_diff_hunk (dependent parent : commit) (path : string)
    (h : hunk) : M unit :=
  found <- tree_lookup path parent ;;
  if negb (truthy found) then ret tt
  else
    blame <- run_blame h parent path ;;
    let dependent_sha1 := commit_id dependent in
    register_new_dependent dependent dependent_sha1 ;;
    line_to_culprit <-
      for_fold blame []
        (process_blame_hunk dependent dependent_sha1 parent path) ;;
    debug_hunk h line_to_culprit.

Definition find_dependencies_with_parent (dependent parent : commit)
    : M unit :=
  log_call (call_diff (commit_id parent) (commit_id dependent)) ;;
  let diff := repo_diff parent dependent context_lines in
  for_each diff (fun p =>
    let path := old_file_path p in
    for_each (hunks p) (fun h =>
      blame_diff_hunk dependent parent path h)).

(** One turn of the [while self.todo] loop, for the head [dependent] of
    the list and the remainder [rest]. *)
Definition process_todo (dependent : commit) (rest : list commit) : M unit :=
  modify (with_todo rest) ;;
  let dependent_sha1 := commit_id dependent in
  queued <- gets (fun s => Dict.mem dependent_sha1 (todo_d s)) ;;
  (if queued
   then modify (fun s => with_todo_d (Dict.del dependent_sha1 (todo_d s)) s)
   else raise KeyError) ;;
  already <- gets (fun s => Dict.mem dependent_sha1 (done_d s)) ;;
  if already then ret tt
  else
    notify_listeners (new_commit dependent) ;;
    match parents dependent with
    | parent :: _ => find_dependencies_with_parent dependent parent
    | [] => ret tt
    end ;;
    modify (fun s => with_done (done s ++ [dependent_sha1]) s) ;;
    modify (fun s => with_done_d (Dict.set dependent_sha1 true (done_d s)) s) ;;
    deps <- gets (fun s =>
              match Dict.get dependent_sha1 (dependencies s) with
              | Some d => d
              | None => []
              end) ;;
    notify_listeners (dependent_done dependent deps).

(** [while self.todo: ...], with a bound on the number of turns. *)
Fixpoint todo_loop (fuel : nat) : M unit :=
  fun s =>
    match todo s with
    | [] => Ok tt s
    | dependent :: rest =>
        match fuel with
        | O => OutOfFuel s
        | S fuel' => (process_todo dependent rest ;; todo_loop fuel') s
        end
    end.

Definition find_dependencies (fuel : nat) (dependent_rev : string)
    (recurse_arg : option bool) : M unit :=
  let recurse_arg :=
    match recurse_arg with
    | None => recurse
    | Some r => r
    end in
  dependent <- try_except_InvalidCommitish
                 (get_commit dependent_rev) (fun _ => abort) ;;
  modify (fun s => with_todo (todo s ++ [dependent]) s) ;;
  modify (fun s => with_todo_d (Dict.set (commit_id dependent) true (todo_d s)) s) ;;
  todo_loop fuel ;;
  notify_listeners all_done.

(** [edges()]: one list of pairs per dependent. *)
Definition edges (s : detector) : list (list (string * string)) :=
  map (fun dependent =>
         map (fun dependency => (dependent, dependency))
           (Dict.keys (match Dict.get dependent (dependencies s) with
                       | Some d => d
                       | None => []
                       end)))
    (Dict.keys (dependencies s)).

End Detector.

(* ================================================================== *)
(** ** A small repository to run the detector on

    A linear history [ca <- cb <- cc] over one file, [src/f.txt]: [cb]
    rewrites a line [ca] wrote, [cc] rewrites a line [cb] wrote and adds
    the directory [doc]. *)

Module Linear.
Definition tree_a : dict string string := [("src", "t1")].
Definition tree_b : dict string string := [("src", "t2")].
Definition tree_c : dict string string := [("src", "t3"); ("doc", "t4")].

Definition ca : commit := Commit "aaaa" [] tree_a.
Definition cb : commit := Commit "bbbb" [ca] tree_b.
Definition cc : commit := Commit "cccc" [cb] tree_c.

Definition line (o : ascii) (c : string) : diff_line :=
  {| origin := o; content := c |}.

(** [cb] replaces line 1 of [src/f.txt]. *)
Definition hunk_b : hunk :=
  {| old_start := 1; old_lines := 2; new_start := 1; new_lines := 2;
     lines := [line "-" "one"; line "+" "uno"; line " " "two"] |}.
(** [cc] replaces line 1 again. *)
Definition hunk_c : hunk :=
  {| old_start := 1; old_lines := 1; new_start := 1; new_lines := 1;
     lines := [line "-" "uno"; line "+" "eins"] |}.
(** [cc] adds [doc/readme]. *)
Definition hunk_doc : hunk :=
  {| old_start := 0; old_lines := 0; new_start := 1; new_lines := 1;
     lines := [line "+" "read me"] |}.

Definition blame (path newest : string) (start : Z)
    : option (list blame_hunk) :=
  if negb (String.eqb path "src/f.txt") then None
  else if String.eqb newest "aaaa" then
    Some [ {| orig_start_line_number := 1; final_start_line_number := 1;
              lines_in_hunk := 2; orig_commit_id := "aaaa" |} ]
  else if String.eqb newest "bbbb" then
    Some [ {| orig_start_line_number := 1; final_start_line_number := 1;
              lines_in_hunk := 1; orig_commit_id := "bbbb" |} ]
  else None.

#[local] Instance repo : Repo :=
  {| ref_commit rev :=
       if String.eqb rev "aaaa" then Some ca
       else if String.eqb rev "bbbb" then Some cb
       else if String.eqb rev "cccc" then Some cc
       else if String.eqb rev "HEAD" then Some cc
       else None;
     repo_diff parent dependent _ :=
       if String.eqb (commit_id dependent) "bbbb"
       then [ {| old_file_path := "src/f.txt"; hunks := [hunk_b] |} ]
       else if String.eqb (commit_id dependent) "cccc"
       then [ {| old_file_path := "doc/readme"; hunks := [hunk_doc] |};
              {| old_file_path := "src/f.txt"; hunks := [hunk_c] |} ]
       else [];
     repo_blame path newest start _ := blame path newest start;
     blame_via_subprocess path newest start _ := blame path newest start;
     repo_getitem oid :=
       if String.eqb oid "t1" then Some (Tree [("f.txt", "f1")])
       else if String.eqb oid "t2" then Some (Tree [("f.txt", "f2")])
       else if String.eqb oid "t3" then Some (Tree [("f.txt", "f3")])
       else if String.eqb oid "t4" then Some (Tree [("readme", "f4")])
       else if String.eqb oid "f1" then Some (Blob "one two")
       else if String.eqb oid "f2" then Some (Blob "uno two")
       else if String.eqb oid "f3" then Some (Blob "eins two")
       else if String.eqb oid "f4" then Some (Blob "read me")
       else None;
     (* on a linear history the merge base is the older commit *)
     check_output_merge_base a b :=
       Some ((if String.leb a b then a else b) ++ String "010" "")%string |}.

#[local] Instance recursive : Options :=
  {| recurse := true; context_lines := 1;
     exclude_commits := None; pygit2_blame := true |}.

#[local] Instance excluding_a : Options :=
  {| recurse := true; context_lines := 1;
     exclude_commits := Some ["aaaa"]; pygit2_blame := false |}.
End Linear.

(* ================================================================== *)
(** ** What the properties are stated with *)

(** The commit and all its ancestors, by id. *)
Fixpoint history (c : commit) : list string :=
  commit_id c :: flat_map history (parents c).

(** A statement about how a call ends: [Q] when it returns, [E] for the
    detector it leaves behind when it raises, [T] for the detector at the
    point where the model was cut short. *)
Definition ends {A} (o : outcome A)
    (Q : A -> detector -> Prop) (E T : detector -> Prop) : Prop :=
  match o with
  | Ok a s => Q a s
  | Raise _ s => E s
  | OutOfFuel s => T s
  end.

(** The same, with one statement for both ways of not returning. *)
Definition sat {A} (o : outcome A)
    (Q : A -> detector -> Prop) (E : detector -> Prop) : Prop :=
  ends o Q E E.

(** The detector in which a call ends, whichever way it ends. *)
Definition final {A} (o : outcome A) : detector :=
  match o with
  | Ok _ s => s
  | Raise _ s => s
  | OutOfFuel s => s
  end.

(** The recorded dependency keys: every (dependent, dependency) pair that
    has an entry in the graph. *)
Definition dependency_keys (s : detector) : list (string * string) :=
  flat_map (fun entry =>
              map (fun dependency => (fst entry, dependency))
                (Dict.keys (snd entry)))
    (dependencies s).

(** [dependencies[dependent][dependency]], when both keys are there. *)
Definition sources_in (deps : dependencies_t) (dependent dependency : string)
    : option dep_sources_t :=
  match Dict.get dependent deps with
  | Some by_dependent => Dict.get dependency by_dependent
  | None => None
  end.

Definition sources (s : detector) : string -> string -> option dep_sources_t :=
  sources_in (dependencies s).

(** [dependencies[dependent][dependency][path]] *)
Definition evidence (s : detector) (dependent dependency path : string)
    : option (dict Z string) :=
  match sources s dependent dependency with
  | Some src => Dict.get path src
  | None => None
  end.

(** A dictionary proper: no key twice, and every value as it should be. *)
Definition dict_wf {K V} (value_wf : V -> Prop) (d : dict K V) : Prop :=
  NoDup (Dict.keys d) /\ forall k v, In (k, v) d -> value_wf v.

(** No line number twice in the evidence of a file. *)
Definition lines_wf (ls : dict Z string) : Prop := NoDup (Dict.keys ls).

(** No key twice, on each of the four levels of the graph. *)
Definition graph_wf_on (deps : dependencies_t) : Prop :=
  dict_wf (dict_wf (dict_wf lines_wf)) deps.

Definition graph_wf (s : detector) : Prop := graph_wf_on (dependencies s).

Definition is_new_commit (sha1 : string) (e : event) : bool :=
  match e with
  | new_commit c => String.eqb (commit_id c) sha1
  | _ => false
  end.

Definition is_any_new_commit (e : event) : bool :=
  match e with new_commit _ => true | _ => false end.

Definition is_all_done (e : event) : bool :=
  match e with all_done => true | _ => false end.

Definition count {X} (f : X -> bool) (l : list X) : nat :=
  length (filter f l).

(** Number of edges of the graph. *)
Definition edges_total (deps : dependencies_t) : nat :=
  list_sum (map (fun entry => length (snd entry)) deps).

Definition edge_count (s : detector) : nat := edges_total (dependencies s).

(** The value [edges()] returns, as Python sees it: lists, tuples and
    strings. *)
#[warnings="-register-all"]
Inductive pyval : Type :=
| PyStr (s : string)
| PyTuple (items : list pyval)
| PyList (items : list pyval).

Definition py_pair (p : string * string) : pyval :=
  PyTuple [PyStr (fst p); PyStr (snd p)].

Definition py_of_edges (rows : list (list (string * string))) : pyval :=
  PyList (map (fun row => PyList (map py_pair row)) rows).

(** A flat sequence of pairs, the shape a list of edges has. *)
Definition py_flat_pairs (pairs : list (string * string)) : pyval :=
  PyList (map py_pair pairs).

(** A graph in which one dependent has two dependencies. *)
Definition two_dependencies : detector :=
  with_dependencies [("cccc", [("bbbb", []); ("aaaa", [])])] init.

(** A path that does not lead to an entry of a tree: a segment is not in
    the directory reached so far, or the object reached so far is not a
    directory while segments remain. *)
Inductive unresolved {repo : Repo} : list string -> gitobj -> Prop :=
| unresolved_absent dirent rest entries :
    Dict.get dirent entries = None ->
    unresolved (dirent :: rest) (Tree entries)
| unresolved_not_a_tree dirent rest data :
    unresolved (dirent :: rest) (Blob data)
| unresolved_below dirent rest entries oid obj :
    Dict.get dirent entries = Some oid ->
    repo_getitem oid = Some obj ->
    unresolved rest obj ->
    unresolved (dirent :: rest) (Tree entries).

Section StateProperties.
Context {repo : Repo} {options : Options}.

(** What [run_blame] asks the repository. *)
Definition attribution (h : hunk) (parent : commit) (path : string)
    : option (list blame_hunk) :=
  if pygit2_blame
  then repo_blame path (commit_id parent)
         (old_start h) (old_start h + old_lines h - 1)
  else blame_via_subprocess path (commit_id parent)
         (old_start h) (old_lines h).

(** [git merge-base a b], as [branch_contains] reads it. *)
Definition merge_base (a b : string) : option string :=
  match check_output_merge_base a b with
  | Some out => Some (strip out)
  | None => None
  end.

(** The commit [sha1] is an ancestor of, or is, the commit the revision
    [branch] names: their merge base is [sha1] itself. *)
Definition contained_in (sha1 branch : string) : bool :=
  match ref_commit branch with
  | Some branch_commit =>
      match merge_base sha1 (commit_id branch_commit) with
      | Some base => String.eqb base sha1
      | None => false
      end
  | None => false
  end.

(** Excluded: contained in one of the configured boundaries. *)
Definition excluded (c : commit) : bool :=
  match exclude_commits with
  | Some excludes => existsb (contained_in (commit_id c)) excludes
  | None => false
  end.

(** A commit object the repository hands out for some revision. *)
Definition resolved (c : commit) : Prop :=
  exists rev, ref_commit rev = Some c.

(** The commit cache holds, under revision strings, what the repository
    resolves them to. *)
Definition cache_on (cache : dict rev_key commit) : Prop :=
  forall k c, In (k, c) cache ->
    exists rev, k = RevStr rev /\ ref_commit rev = Some c.

Definition cache_ok (s : detector) : Prop := cache_on (commits s).

(** The memo table of [branch_contains] holds merge-base answers. *)
Definition memo_on (memo : dict string (dict string bool)) : Prop :=
  forall a row b r,
    Dict.get a memo = Some row ->
    Dict.get b row = Some r ->
    exists base, merge_base a b = Some base /\ r = String.eqb base a.

Definition memo_ok (s : detector) : Prop := memo_on (branch_contains_cache s).

Definition all_resolved (l : list commit) : Prop :=
  forall c, In c l -> resolved c.

Definition todo_resolved (s : detector) : Prop := all_resolved (todo s).

(** Every edge of the graph satisfies [P]. *)
Definition edges_on (P : string -> string -> Prop) (deps : dependencies_t)
    : Prop :=
  forall d e src, sources_in deps d e = Some src -> P d e.

Definition edges_ok (P : string -> string -> Prop) (s : detector) : Prop :=
  edges_on P (dependencies s).

Definition state_ok (P : string -> string -> Prop) (s : detector) : Prop :=
  cache_ok s /\ memo_ok s /\ graph_wf s /\ todo_resolved s /\ edges_ok P s.

(** [new_commit] notifications against edges and finished commits, up to
    a constant. *)
Definition balanced (k : Z) (s : detector) : Prop :=
  Z.of_nat (count is_any_new_commit (notified s))
  = Z.of_nat (edge_count s) + Z.of_nat (length (done s)) + k.

(** What every method keeps, when it returns. *)
Definition good (P : string -> string -> Prop) (k : Z) (s : detector)
    : Prop :=
  state_ok P s /\ balanced k s.

End StateProperties.

(** No line number twice in any evidence set. *)
Definition no_duplicate_evidence (s : detector) : Prop :=
  forall d e p ls, evidence s d e p = Some ls -> NoDup (Dict.keys ls).

(** No edge from a commit to itself. *)
Definition no_self_edges (s : detector) : Prop :=
  forall c, sources s c c = None.

(** The graph, the worklist, the done set and the notifications are the
    same in both detectors: only caches and the request log may differ. *)
Definition same_graph (s s' : detector) : Prop :=
  dependencies s' = dependencies s /\
  todo s' = todo s /\ todo_d s' = todo_d s /\
  done s' = done s /\ done_d s' = done_d s /\
  notified s' = notified s.

(** A graph with one edge and one line of evidence, as a run over the
    linear history leaves it for [cccc]. *)
Definition one_line_recorded : detector :=
  with_dependencies
    (Dict.set "cccc"
       (Dict.set "bbbb"
          (Dict.set "src/f.txt" (Dict.set 1 "bbbb 1 1" []) []) []) [])
    init.

(** ** The worklist *)

Definition ids (l : list commit) : list string := map commit_id l.

(** The commit being processed, if any: taken from the worklist and not
    yet marked done. *)
Definition cur_list (cur : option string) : list string :=
  match cur with Some c => [c] | None => [] end.

Definition is_cur (cur : option string) (x : string) : bool :=
  match cur with Some c => String.eqb c x | None => false end.

(** Queue and done list hold no commit twice and share none, the two
    dictionaries mirror them, and only done commits (and the one being
    processed) are dependents in the graph. *)
Definition worklist_on (cur : option string)
    (td : list commit) (tdd : dict string bool)
    (dn : list string) (dnd : dict string bool)
    (deps : dependencies_t) : Prop :=
  NoDup (ids td) /\
  NoDup (Dict.keys tdd) /\
  (forall x, In x (Dict.keys tdd) <-> In x (ids td)) /\
  NoDup dn /\
  (forall x, In x (Dict.keys dnd) <-> In x dn) /\
  (forall x, In x (ids td) -> ~ In x dn) /\
  (forall x, In x (Dict.keys deps) -> In x dn \/ cur = Some x) /\
  (forall x, cur = Some x -> ~ In x (ids td) /\ ~ In x dn).

Definition worklist_ok (cur : option string) (s : detector) : Prop :=
  worklist_on cur (todo s) (todo_d s) (done s) (done_d s) (dependencies s).

(** The commits of [all_ids] that are neither done, nor queued, nor being
    processed. *)
Definition unseen_on (all_ids : list string) (cur : option string)
    (tdd dnd : dict string bool) : list string :=
  filter (fun x => negb (Dict.mem x dnd) && negb (Dict.mem x tdd)
                   && negb (is_cur cur x)) all_ids.

(** What bounds the number of turns the worklist loop still takes. *)
Definition measure_on (all_ids : list string) (cur : option string)
    (td : list commit) (tdd dnd : dict string bool) : nat :=
  2 * length (unseen_on all_ids cur tdd dnd) + length td.

Definition measure (all_ids : list string) (cur : option string)
    (s : detector) : nat :=
  measure_on all_ids cur (todo s) (todo_d s) (done_d s).

(** The commits in the order they entered the worklist: those done, the
    one being processed, those queued. *)
Definition discovery_on (cur : option string)
    (td : list commit) (dn : list string) : list string :=
  dn ++ cur_list cur ++ ids td.

Definition discovery (cur : option string) (s : detector) : list string :=
  discovery_on cur (todo s) (done s).

(** The state of the traversal: [n] bounds the turns left, [order] is a
    prefix of the discovery order, [a] counts the [all_done] sent. *)
Definition traversal {repo : Repo} (all_ids : list string)
    (cur : option string) (n : nat) (order : list string) (a : nat)
    (s : detector) : Prop :=
  cache_ok s /\ worklist_ok cur s /\
  (measure all_ids cur s <= n)%nat /\
  (exists suffix, discovery cur s = order ++ suffix) /\
  count is_all_done (notified s) = a.

(** The worklist is [queue] followed by what was appended since. *)
Definition appended_to (queue : list commit) (s : detector) : Prop :=
  exists added, todo s = queue ++ added.

(** A detector in which the root commit of the linear history is the
    one commit queued. *)
Definition root_queued : detector :=
  with_todo_d [("aaaa", true)] (with_todo [Linear.ca] init).

(** Since [s0], nothing was marked done and the notifications only grew. *)
Definition grown_from (s0 s : detector) : Prop :=
  done s = done s0 /\ exists tail, notified s = notified s0 ++ tail.

(** ** A repository that answers

    What the detector needs of the repository for a run to return: the
    objects and answers it asks for are there, and attribution is
    consistent. *)

Section Answers.
Context {repo : Repo} {options : Options}.

(** The evidence a blame result stands for: file, culprit, line. *)
Definition bh_key (path : string) (bh : blame_hunk)
    : string * string * Z :=
  (path, orig_commit_id bh, final_start_line_number bh).

Definition hunk_keys (parent : commit) (path : string) (h : hunk)
    : list (string * string * Z) :=
  match attribution h parent path with
  | Some bhs => map (bh_key path) bhs
  | None => []
  end.

Definition patch_keys (parent : commit) (p : patch)
    : list (string * string * Z) :=
  flat_map (hunk_keys parent (old_file_path p)) (hunks p).

(** All evidence attribution yields over the diff of a commit against
    its parent, in the order the detector asks for it. *)
Definition diff_keys (parent dependent : commit)
    : list (string * string * Z) :=
  flat_map (patch_keys parent) (repo_diff parent dependent context_lines).

(** Every line recorded under [dependent] is among [seen]. *)
Definition recorded_within (dependent : string)
    (seen : list (string * string * Z)) (s : detector) : Prop :=
  forall e p ls n,
    evidence s dependent e p = Some ls -> In n (Dict.keys ls) ->
    In (p, e, n) seen.

(** The [line_to_culprit] table [blame_diff_hunk] builds from a blame. *)
Definition culprits (bhs : list blame_hunk) (table : dict Z string)
    : dict Z string :=
  fold_left
    (fun table bh =>
       mark_culprit (Z.to_nat (lines_in_hunk bh))
         (final_start_line_number bh) (orig_commit_id bh) table)
    bhs table.

(** [debug_hunk] finds every line it looks up. *)
Fixpoint debug_hunk_ok (ls : list diff_line) (line_num : Z)
    (line_to_culprit : dict Z string) : bool :=
  match ls with
  | [] => true
  | line :: ls' =>
      if String.eqb (String "010" "\ No newline at end of file")
           (rstrip (content line))
      then true
      else if Ascii.eqb (origin line) "+"
      then debug_hunk_ok ls' line_num line_to_culprit
      else Dict.mem line_num line_to_culprit
           && debug_hunk_ok ls' (line_num + 1) line_to_culprit
  end.

(** The entries of a tree are in the object store. *)
Definition entries_stored (entries : dict string string) : Prop :=
  forall name oid, Dict.get name entries = Some oid ->
                   repo_getitem oid <> None.

(** [dependent] is a commit of the repository and [parent] its first
    parent: the pairs the detector diffs. *)
Definition first_parent (dependent parent : commit) : Prop :=
  resolved dependent /\ exists others, parents dependent = parent :: others.

Record answers (all_ids : list string) : Prop :=
  { ids_resolve :
      forall sha1, In sha1 all_ids -> ref_commit sha1 <> None;
    boundaries_resolve :
      forall excludes b, exclude_commits = Some excludes -> In b excludes ->
                         ref_commit b <> None;
    merge_base_answers :
      forall a b, check_output_merge_base a b <> None;
    attribution_answers :
      forall dependent parent p h s found,
        first_parent dependent parent ->
        In p (repo_diff parent dependent context_lines) ->
        In h (hunks p) ->
        tree_lookup (old_file_path p) parent s = Ok found s ->
        truthy found = true ->
        attribution h parent (old_file_path p) <> None;
    trees_stored :
      forall oid entries, repo_getitem oid = Some (Tree entries) ->
                          entries_stored entries;
    root_trees_stored :
      forall dependent parent, first_parent dependent parent ->
                               entries_stored (tree parent);
    attribution_distinct :
      forall dependent parent, first_parent dependent parent ->
                               NoDup (diff_keys parent dependent);
    attribution_covers :
      forall dependent parent p h bhs,
        first_parent dependent parent ->
        In p (repo_diff parent dependent context_lines) ->
        In h (hunks p) ->
        attribution h parent (old_file_path p) = Some bhs ->
        debug_hunk_ok (lines h) (old_start h) (culprits bhs []) = true }.

End Answers.

(* ================================================================== *)
(** ** More to state properties with *)

(** The lines of a hunk [debug_hunk] looks up in [line_to_culprit]:
    those that are not additions, up to the line that says the file has
    no newline at its end. *)
Fixpoint looked_up (ls : list diff_line) : nat :=
  match ls with
  | [] => O
  | line :: ls' =>
      if String.eqb (String "010" "\ No newline at end of file")
           (rstrip (content line))
      then O
      else if Ascii.eqb (origin line) "+" then looked_up ls'
      else S (looked_up ls')
  end.

(** A detector that has processed the root commit of the linear
    history and nothing else. *)
Definition root_done : detector :=
  with_done_d [("aaaa", true)] (with_done ["aaaa"] init).

(** Options for a run that does not follow the dependencies it
    finds. *)
Definition no_recursion : Options :=
  {| recurse := false; context_lines := 1;
     exclude_commits := None; pygit2_blame := true |}.

(** A repository in which the commit [dddd] does nothing but add the
    file [notes/a.txt], in a directory its parent [aaaa] does not
    have. *)
Module AddedFile.
Definition base : commit := Commit "aaaa" [] [("src", "t1")].
Definition adds : commit :=
  Commit "dddd" [base] [("src", "t1"); ("notes", "t5")].

Definition hunk_new : hunk :=
  {| old_start := 0; old_lines := 0; new_start := 1; new_lines := 1;
     lines := [ {| origin := "+"; content := "a note" |} ] |}.

Definition repo : Repo :=
  {| ref_commit rev :=
       if String.eqb rev "aaaa" then Some base
       else if String.eqb rev "dddd" then Some adds
       else None;
     repo_diff parent dependent _ :=
       if String.eqb (commit_id dependent) "dddd"
       then [ {| old_file_path := "notes/a.txt"; hunks := [hunk_new] |} ]
       else [];
     repo_blame _ _ _ _ := None;
     blame_via_subprocess _ _ _ _ := None;
     repo_getitem oid :=
       if String.eqb oid "t1" then Some (Tree [("f.txt", "f1")])
       else if String.eqb oid "t5" then Some (Tree [("a.txt", "f5")])
       else if String.eqb oid "f1" then Some (Blob "one two")
       else if String.eqb oid "f5" then Some (Blob "a note")
       else None;
     check_output_merge_base _ _ := None |}.

(** A detector with [dddd] as the one commit queued. *)
Definition queued : detector :=
  with_todo_d [("dddd", true)] (with_todo [adds] init).
End AddedFile.

(** ** What the listeners are told *)

(** The [dependent_done] notifications, oldest first: the commit and
    the dependencies handed over with it. *)
Definition done_events (evs : list event)
    : list (string * dict string dep_sources_t) :=
  flat_map (fun e => match e with
                     | dependent_done c deps => [(commit_id c, deps)]
                     | _ => []
                     end) evs.

(** The commits announced with [new_dependent], oldest first. *)
Definition announced_dependents (evs : list event) : list string :=
  flat_map (fun e => match e with
                     | new_dependent c => [commit_id c]
                     | _ => []
                     end) evs.

(** [dependencies.get(d, {})] *)
Definition entry_or_empty (deps : dependencies_t) (d : string)
    : dict string dep_sources_t :=
  match Dict.get d deps with Some by_d => by_d | None => [] end.

(** Since [s], no commit was reported done. *)
Definition unreported (s s' : detector) : Prop :=
  done s' = done s /\ done_d s' = done_d s /\
  done_events (notified s') = done_events (notified s).

(** The commits reported done are those of the done list, in its
    order; what was handed over with each is its entry in the graph as
    it is now; and the done dictionary has every commit of the list. *)
Definition reported (s : detector) : Prop :=
  map fst (done_events (notified s)) = done s /\
  (forall d by_d, In (d, by_d) (done_events (notified s)) ->
                  by_d = entry_or_empty (dependencies s) d) /\
  (forall d, In d (done s) -> Dict.mem d (done_d s) = true).

(** The dependents of the graph are the commits announced with
    [new_dependent], in the order of the announcements. *)
Definition dependents_announced (s : detector) : Prop :=
  announced_dependents (notified s) = Dict.keys (dependencies s).

(** ** What is asked of the repository *)

Definition is_merge_base_call (c : backend_call) : bool :=
  match c with call_merge_base _ _ => true | _ => false end.

Definition is_diff_call (c : backend_call) : bool :=
  match c with call_diff _ _ => true | _ => false end.

(** The pairs [git merge-base] was run for, oldest first. *)
Definition merge_base_calls (cs : list backend_call)
    : list (string * string) :=
  flat_map (fun c => match c with
                     | call_merge_base a b => [(a, b)]
                     | _ => []
                     end) cs.

(** The diffs requested, oldest first: (parent, dependent). *)
Definition diff_calls (cs : list backend_call) : list (string * string) :=
  flat_map (fun c => match c with
                     | call_diff a b => [(a, b)]
                     | _ => []
                     end) cs.

(** [branch_contains_cache[a][b]] is there. *)
Definition memoized (memo : dict string (dict string bool))
    (a b : string) : bool :=
  match Dict.get a memo with
  | Some row => Dict.mem b row
  | None => false
  end.

(** No merge base was asked for twice, and each answer is in the
    table. *)
Definition memo_logged_on (memo : dict string (dict string bool))
    (cs : list backend_call) : Prop :=
  NoDup (merge_base_calls cs) /\
  forall a b, In (a, b) (merge_base_calls cs) -> memoized memo a b = true.

Definition memo_logged (s : detector) : Prop :=
  memo_logged_on (branch_contains_cache s) (calls s).

(** Since [s], the repository was asked for merge bases only. *)
Definition asked_merge_bases (s s' : detector) : Prop :=
  exists added,
    calls s' = calls s ++ added /\
    forallb is_merge_base_call added = true.

(** ** How the graph changes *)

(** [dependencies[d][e]] and [dependencies[d][e][path]], empty when the
    key is not there. *)
Definition edge_or_empty (by_d : dict string dep_sources_t) (e : string)
    : dep_sources_t :=
  match Dict.get e by_d with Some src => src | None => [] end.

Definition lines_or_empty (src : dep_sources_t) (path : string)
    : dict Z string :=
  match Dict.get path src with Some ls => ls | None => [] end.

(** [dependencies[d][e][path][n] = line] for a dependent [d] that has
    its entry, the edge and the file created when they are missing. *)
Definition add_line (d e path : string) (n : Z) (line : string)
    (deps : dependencies_t) : dependencies_t :=
  match Dict.get d deps with
  | Some by_d =>
      let src := edge_or_empty by_d e in
      let ls := lines_or_empty src path in
      Dict.set d
        (Dict.set e (Dict.set path (Dict.set n line ls) src) by_d) deps
  | None => deps
  end.

(** The text [process_blame_hunk] records for a line:
    [f"{dependency_sha1} {orig_line_num} {line_num}"]. *)
Definition line_representation (e : string) (orig n : Z) : string :=
  (e ++ " " ++ str_of_int orig ++ " " ++ str_of_int n)%string.

(** The two ways the graph changes while the dependent [d] is
    processed: [d] gets its (empty) entry, or one line that was not
    there is recorded under [d]. *)
Inductive graph_step (d : string) : dependencies_t -> dependencies_t -> Prop :=
| step_register deps :
    Dict.mem d deps = false -> graph_step d deps (Dict.set d [] deps)
| step_line e path n orig deps by_d :
    Dict.get d deps = Some by_d ->
    Dict.mem n (lines_or_empty (edge_or_empty by_d e) path) = false ->
    graph_step d deps
      (add_line d e path n (line_representation e orig n) deps).

Inductive graph_steps (d : string) : dependencies_t -> dependencies_t -> Prop :=
| steps_none deps : graph_steps d deps deps
| steps_more deps1 deps2 deps3 :
    graph_steps d deps1 deps2 -> graph_step d deps2 deps3 ->
    graph_steps d deps1 deps3.

(** Steps of a run, whichever dependent they are for. *)
Inductive graph_run : dependencies_t -> dependencies_t -> Prop :=
| run_none deps : graph_run deps deps
| run_more d deps1 deps2 deps3 :
    graph_run deps1 deps2 -> graph_step d deps2 deps3 ->
    graph_run deps1 deps3.

(** [dependencies[d][e][path][n]], when all four keys are there. *)
Definition line_in (deps : dependencies_t) (d e path : string) (n : Z)
    : option string :=
  match sources_in deps d e with
  | Some src =>
      match Dict.get path src with
      | Some ls => Dict.get n ls
      | None => None
      end
  | None => None
  end.

(** Everything that is in the first graph is in the second. *)
Record graph_le (deps deps' : dependencies_t) : Prop :=
  { dependents_kept :
      forall d, Dict.mem d deps = true -> Dict.mem d deps' = true;
    edges_kept :
      forall d e, sources_in deps d e <> None -> sources_in deps' d e <> None;
    lines_kept :
      forall d e path n line,
        line_in deps d e path n = Some line ->
        line_in deps' d e path n = Some line }.

(** Every edge names a file and every file a line. *)
Definition evidenced (deps : dependencies_t) : Prop :=
  forall d e src,
    sources_in deps d e = Some src ->
    src <> [] /\ forall path ls, Dict.get path src = Some ls -> ls <> [].

(** Every recorded text is the one of its own keys. *)
Definition labelled (deps : dependencies_t) : Prop :=
  forall d e path n line,
    line_in deps d e path n = Some line ->
    exists orig, line = line_representation e orig n.

(** Key types on which [==] is equality of values. *)
Class PyEqLaws (K : Type) `{PyEq K} : Prop :=
  py_eqb_eq : forall x y : K, py_eqb x y = true <-> x = y.

(* ================================================================== *)
(** * Dictionaries *)

#[global] Instance PyEqLaws_string : PyEqLaws string.
Proof. intros x y. apply String.eqb_eq. Qed.

#[global] Instance PyEqLaws_Z : PyEqLaws Z.
Proof. intros x y. apply Z.eqb_eq. Qed.

Section DictFacts.
Context {K V : Type} `{PyEqLaws K}.
Implicit Types (k : K) (v : V) (d : dict K V).

Lemma py_eqb_refl k : py_eqb k k = true.
Proof. now apply py_eqb_eq. Qed.

Lemma py_eqb_neq k k' : k <> k' -> py_eqb k k' = false.
Proof.
  intros Hne. destruct (py_eqb k k') eqn:E; [|reflexivity].
  now apply py_eqb_eq in E.
Qed.

Lemma py_eqb_false k k' : py_eqb k k' = false -> k <> k'.
Proof. intros E ->. now rewrite py_eqb_refl in E. Qed.

Lemma get_set_eq k v d : Dict.get k (Dict.set k v d) = Some v.
Proof.
  induction d as [|[k0 v0] d IH]; simpl.
  - now rewrite py_eqb_refl.
  - destruct (py_eqb k0 k) eqn:E; simpl; now rewrite E.
Qed.

Lemma get_set_ne k k' v d :
  k <> k' -> Dict.get k (Dict.set k' v d) = Dict.get k d.
Proof.
  intros Hne. induction d as [|[k0 v0] d IH]; simpl.
  - now rewrite (py_eqb_neq k' k) by congruence.
  - destruct (py_eqb k0 k') eqn:E; simpl.
    + apply py_eqb_eq in E; subst k0.
      now rewrite (py_eqb_neq k' k) by congruence.
    + destruct (py_eqb k0 k); [reflexivity|exact IH].
Qed.

Lemma mem_set_eq k v d : Dict.mem k (Dict.set k v d) = true.
Proof. unfold Dict.mem. now rewrite get_set_eq. Qed.

Lemma mem_set_ne k k' v d :
  k <> k' -> Dict.mem k (Dict.set k' v d) = Dict.mem k d.
Proof. intros. unfold Dict.mem. now rewrite get_set_ne. Qed.

Lemma mem_set k k' v d :
  Dict.mem k (Dict.set k' v d) = py_eqb k' k || Dict.mem k d.
Proof.
  destruct (py_eqb k' k) eqn:E.
  - apply py_eqb_eq in E; subst. now rewrite mem_set_eq.
  - apply py_eqb_false in E. now rewrite mem_set_ne by congruence.
Qed.

(** Assigning to a key that is there adds no key. *)
Lemma mem_set_present k k' v v0 d :
  Dict.get k d = Some v0 -> Dict.mem k' (Dict.set k v d) = Dict.mem k' d.
Proof.
  intros Hget. rewrite mem_set. destruct (py_eqb k k') eqn:E; [|reflexivity].
  apply py_eqb_eq in E; subst k'. unfold Dict.mem. now rewrite Hget.
Qed.

Lemma mem_true_get k d : Dict.mem k d = true -> exists v, Dict.get k d = Some v.
Proof. unfold Dict.mem. destruct (Dict.get k d); [eauto|discriminate]. Qed.

Lemma mem_false_get k d : Dict.mem k d = false -> Dict.get k d = None.
Proof. unfold Dict.mem. now destruct (Dict.get k d). Qed.

Lemma get_some_mem k v d : Dict.get k d = Some v -> Dict.mem k d = true.
Proof. unfold Dict.mem. now intros ->. Qed.

Lemma get_none_mem k d : Dict.get k d = None -> Dict.mem k d = false.
Proof. unfold Dict.mem. now intros ->. Qed.

Lemma get_In k v d : Dict.get k d = Some v -> In (k, v) d.
Proof.
  induction d as [|[k0 v0] d IH]; simpl; [discriminate|].
  destruct (py_eqb k0 k) eqn:E.
  - apply py_eqb_eq in E. intros [= ->]. left. now subst.
  - intros Hg. right. now apply IH.
Qed.

Lemma mem_keys k d : Dict.mem k d = true <-> In k (Dict.keys d).
Proof.
  unfold Dict.mem. induction d as [|[k0 v0] d IH]; simpl.
  - split; [discriminate|tauto].
  - destruct (py_eqb k0 k) eqn:E.
    + apply py_eqb_eq in E. split; auto.
    + apply py_eqb_false in E. rewrite IH. split; [auto|]. now intros [?|?].
Qed.

Lemma not_mem_keys k d : Dict.mem k d = false <-> ~ In k (Dict.keys d).
Proof.
  rewrite <- mem_keys. destruct (Dict.mem k d); split; intros; congruence.
Qed.

Lemma In_get k v d : NoDup (Dict.keys d) -> In (k, v) d -> Dict.get k d = Some v.
Proof.
  induction d as [|[k0 v0] d IH]; simpl; [tauto|].
  intros Hnd [Heq|Hin]; inversion Hnd as [|? ? Hnotin Hnd']; subst.
  - injection Heq as -> ->. now rewrite py_eqb_refl.
  - destruct (py_eqb k0 k) eqn:E; [|now apply IH].
    apply py_eqb_eq in E; subst k0. exfalso. apply Hnotin.
    change k with (fst (k, v)). now apply in_map.
Qed.

Lemma keys_set k v d :
  Dict.keys (Dict.set k v d)
  = if Dict.mem k d then Dict.keys d else Dict.keys d ++ [k].
Proof.
  unfold Dict.mem. induction d as [|[k0 v0] d IH]; simpl; [reflexivity|].
  destruct (py_eqb k0 k) eqn:E; simpl; [reflexivity|].
  rewrite IH. now destruct (Dict.get k d).
Qed.

Lemma length_set k v d :
  length (Dict.set k v d)
  = if Dict.mem k d then length d else S (length d).
Proof.
  unfold Dict.mem. induction d as [|[k0 v0] d IH]; simpl; [reflexivity|].
  destruct (py_eqb k0 k) eqn:E; simpl; [reflexivity|].
  rewrite IH. now destruct (Dict.get k d).
Qed.

Lemma NoDup_keys_set k v d :
  NoDup (Dict.keys d) -> NoDup (Dict.keys (Dict.set k v d)).
Proof.
  intros Hnd. rewrite keys_set. destruct (Dict.mem k d) eqn:E; [exact Hnd|].
  apply not_mem_keys in E.
  apply NoDup_rev in Hnd. rewrite <- (rev_involutive (_ ++ _)).
  apply NoDup_rev. rewrite rev_app_distr. simpl. constructor; [|exact Hnd].
  now rewrite <- in_rev.
Qed.

(** The entries after an assignment: the old ones, except that the
    entry of the key carries the new value. *)
Lemma In_set k v k1 v1 d :
  NoDup (Dict.keys d) ->
  In (k1, v1) (Dict.set k v d) ->
  (k1 = k /\ v1 = v) \/ (k1 <> k /\ In (k1, v1) d).
Proof.
  induction d as [|[k0 v0] d IH]; simpl.
  - intros _ [[= <- <-]|[]]. now left.
  - intros Hnd. inversion Hnd as [|? ? Hnotin Hnd']; subst.
    destruct (py_eqb k0 k) eqn:E; simpl.
    + apply py_eqb_eq in E; subst k0.
      intros [[= <- <-]|Hin]; [now left|].
      right. split; [|now right].
      intros ->. apply Hnotin. change k with (fst (k, v1)). now apply in_map.
    + apply py_eqb_false in E.
      intros [[= <- <-]|Hin]; [right; split; [exact E|now left]|].
      destruct (IH Hnd' Hin) as [?|[? ?]]; [now left|right; split; auto].
Qed.

Lemma mem_del_ne k k' d : k <> k' -> Dict.mem k (Dict.del k' d) = Dict.mem k d.
Proof.
  intros Hne. unfold Dict.mem. induction d as [|[k0 v0] d IH]; simpl; [reflexivity|].
  destruct (py_eqb k0 k') eqn:E; simpl.
  - apply py_eqb_eq in E; subst k0.
    now rewrite (py_eqb_neq k' k) by congruence.
  - destruct (py_eqb k0 k); [reflexivity|exact IH].
Qed.

Lemma keys_del_notin k d :
  NoDup (Dict.keys d) -> ~ In k (Dict.keys (Dict.del k d)).
Proof.
  induction d as [|[k0 v0] d IH]; simpl; [tauto|].
  intros Hnd. inversion Hnd as [|? ? Hnotin Hnd']; subst.
  destruct (py_eqb k0 k) eqn:E; simpl.
  - apply py_eqb_eq in E; now subst.
  - apply py_eqb_false in E. intros [?|?]; [congruence|now apply IH].
Qed.

Lemma keys_del_incl k k' d : In k (Dict.keys (Dict.del k' d)) -> In k (Dict.keys d).
Proof.
  induction d as [|[k0 v0] d IH]; simpl; [tauto|].
  destruct (py_eqb k0 k'); simpl; [now right|].
  intros [?|?]; [now left|right; now apply IH].
Qed.

Lemma NoDup_keys_del k d :
  NoDup (Dict.keys d) -> NoDup (Dict.keys (Dict.del k d)).
Proof.
  induction d as [|[k0 v0] d IH]; simpl; [auto|].
  intros Hnd. inversion Hnd as [|? ? Hnotin Hnd']; subst.
  destruct (py_eqb k0 k); simpl; [exact Hnd'|].
  constructor; [|now apply IH].
  intros Hin. apply Hnotin. now apply keys_del_incl in Hin.
Qed.
End DictFacts.

(* ================================================================== *)
(** * Reasoning about calls *)

Lemma ends_bind {A B} (m : M A) (k : A -> M B) s
    (Q : B -> detector -> Prop) (E T : detector -> Prop) :
  ends (m s) (fun a s1 => ends (k a s1) Q E T) E T -> ends (bind m k s) Q E T.
Proof. unfold bind. destruct (m s); simpl; auto. Qed.

Lemma ends_mono {A} (o : outcome A) (Q Q' : A -> detector -> Prop)
    (E E' T T' : detector -> Prop) :
  ends o Q E T ->
  (forall a s, Q a s -> Q' a s) -> (forall s, E s -> E' s) ->
  (forall s, T s -> T' s) ->
  ends o Q' E' T'.
Proof. destruct o; simpl; auto. Qed.

Lemma ends_conj {A} (o : outcome A) (Q Q' : A -> detector -> Prop)
    (E E' T T' : detector -> Prop) :
  ends o Q E T -> ends o Q' E' T' ->
  ends o (fun a s => Q a s /\ Q' a s)
    (fun s => E s /\ E' s) (fun s => T s /\ T' s).
Proof. destruct o; simpl; auto. Qed.

Lemma sat_final {A} (o : outcome A) (P : detector -> Prop) :
  sat o (fun _ => P) P <-> P (final o).
Proof. destruct o; simpl; tauto. Qed.

(** A loop keeps what every turn keeps. *)
Lemma ends_for_fold {X A} (I : A -> detector -> Prop) (E T : detector -> Prop)
    (body : X -> A -> M A) (l : list X) :
  (forall x a s, In x l -> I a s -> ends (body x a s) I E T) ->
  forall a s, I a s -> ends (for_fold l a body s) I E T.
Proof.
  induction l as [|x l IH]; intros Hbody a s HI; simpl; [exact HI|].
  apply ends_bind.
  eapply ends_mono; [apply Hbody; [now left|exact HI]| |auto|auto].
  intros a' s' HI'. apply IH; [|exact HI'].
  intros; apply Hbody; [now right|assumption].
Qed.

Lemma ends_for_each {X} (I E T : detector -> Prop) (body : X -> M unit)
    (l : list X) :
  (forall x s, In x l -> I s -> ends (body x s) (fun _ => I) E T) ->
  forall s, I s -> ends (for_each l body s) (fun _ => I) E T.
Proof.
  intros Hbody s HI. unfold for_each.
  apply (ends_for_fold (fun _ => I)); auto.
Qed.

(** The same, with an invariant that knows which turns are over. *)
Lemma ends_for_fold_prefix {X A} (I : list X -> A -> detector -> Prop)
    (E T : detector -> Prop) (body : X -> A -> M A) (l : list X) :
  (forall pre x post a s,
      l = pre ++ x :: post -> I pre a s ->
      ends (body x a s) (I (pre ++ [x])) E T) ->
  forall a s, I [] a s -> ends (for_fold l a body s) (I l) E T.
Proof.
  intros Hbody.
  enough (Hgen : forall rest pre a s,
             l = pre ++ rest -> I pre a s ->
             ends (for_fold rest a body s) (I l) E T)
    by (intros a s HI; now apply (Hgen l [])).
  induction rest as [|x rest IH]; intros pre a s Hl HI; simpl.
  - rewrite app_nil_r in Hl. now subst pre.
  - apply ends_bind.
    eapply ends_mono; [now apply (Hbody pre x rest)| |auto|auto].
    intros a' s' HI'. apply (IH (pre ++ [x])); [|exact HI'].
    now rewrite <- app_assoc.
Qed.

Lemma ends_for_each_prefix {X} (I : list X -> detector -> Prop)
    (E T : detector -> Prop) (body : X -> M unit) (l : list X) :
  (forall pre x post s,
      l = pre ++ x :: post -> I pre s ->
      ends (body x s) (fun _ => I (pre ++ [x])) E T) ->
  forall s, I [] s -> ends (for_each l body s) (fun _ => I l) E T.
Proof.
  intros Hbody s HI. unfold for_each.
  apply (ends_for_fold_prefix (fun pre _ => I pre)); [|exact HI].
  intros pre x post _ s' Hl HI'. now apply (Hbody pre x post).
Qed.

Lemma ends_ret {A} (a : A) s (Q : A -> detector -> Prop) E T :
  Q a s -> ends (ret a s) Q E T.
Proof. auto. Qed.

Lemma ends_gets {A} (f : detector -> A) s (Q : A -> detector -> Prop) E T :
  Q (f s) s -> ends (gets f s) Q E T.
Proof. auto. Qed.

Lemma ends_modify f s (Q : unit -> detector -> Prop) E T :
  Q tt (f s) -> ends (modify f s) Q E T.
Proof. auto. Qed.

Lemma ends_raise {A} e s (Q : A -> detector -> Prop) (E T : detector -> Prop) :
  E s -> ends (raise e s) Q E T.
Proof. auto. Qed.

Lemma ends_notify ev s (Q : unit -> detector -> Prop) E T :
  Q tt (with_notified (notified s ++ [ev]) s) ->
  ends (notify_listeners ev s) Q E T.
Proof. auto. Qed.

Lemma ends_log_call c s (Q : unit -> detector -> Prop) E T :
  Q tt (with_calls (calls s ++ [c]) s) -> ends (log_call c s) Q E T.
Proof. auto. Qed.

(** Symbolic execution of a method body, one construct at a time. *)
Ltac run1 :=
  lazymatch goal with
  | |- sat _ _ _ => unfold sat
  | |- ends (bind _ _ _) _ _ _ => apply ends_bind
  | |- ends (ret _ _) _ _ _ => apply ends_ret
  | |- ends (gets _ _) _ _ _ => apply ends_gets
  | |- ends (modify _ _) _ _ _ => apply ends_modify
  | |- ends (raise _ _) _ _ _ => apply ends_raise
  | |- ends (abort _) _ _ _ => apply ends_raise
  | |- ends (notify_listeners _ _) _ _ _ => apply ends_notify
  | |- ends (log_call _ _) _ _ _ => apply ends_log_call
  | |- ends (getitem _ _ _) _ _ _ => unfold getitem
  | |- ends ((if ?b then _ else _) _) _ _ _ => destruct b eqn:?
  | |- ends (match ?x with _ => _ end _) _ _ _ => destruct x eqn:?
  end; cbv beta.
Ltac run := repeat run1.

(** Use the statement proved for a call inside a larger body. *)
Ltac call_with L :=
  unfold sat;
  lazymatch goal with
  | |- ends (bind _ _ _) _ _ _ => apply ends_bind
  | _ => idtac
  end;
  eapply ends_mono; [eapply L| | |]; cbv beta.

(* ================================================================== *)
(** * The [recurse] argument *)

Section RecurseArgument.
Context {repo : Repo} {options : Options}.

(** Whether [process_new_dependency] appends to the worklist. *)
Lemma process_new_dependency_todo dependent d dependency e path n s :
  sat (process_new_dependency dependent d dependency e path n s)
    (fun _ s' =>
       todo s' =
         if recurse && negb (Dict.mem e (todo_d s))
                    && negb (Dict.mem e (done_d s))
                    && negb (Dict.mem e (dependencies s))
         then todo s ++ [dependency] else todo s)
    (fun s' => todo s' = todo s).
Proof.
  unfold process_new_dependency, seen_commit.
  run; simpl in *; try reflexivity.
  all: repeat match goal with
         | H : Dict.get ?k ?m = Some _, H' : context [Dict.set ?k _ ?m] |- _ =>
             rewrite (mem_set_present _ _ _ _ _ H) in H'
         end.
  all: repeat match goal with
         | H : Dict.mem _ _ = _ |- _ => rewrite H; clear H
         end; simpl; rewrite ?andb_false_r; reflexivity.
Qed.

(** C6.  The [recurse] argument of [find_dependencies] is read into a
    local name and never used: runs that differ in it alone end alike,
    with the same graph, worklist and notifications.  Whether a new
    dependency is queued depends on [options.recurse] (and on the commit
    not being queued, done or a dependent already). *)
Theorem recurse_argument_unused :
  (forall fuel dependent_rev r1 r2 s,
      find_dependencies fuel dependent_rev r1 s
      = find_dependencies fuel dependent_rev r2 s) /\
  (forall dependent d dependency e path n s,
      sat (process_new_dependency dependent d dependency e path n s)
        (fun _ s' =>
           todo s' =
             if recurse && negb (Dict.mem e (todo_d s))
                        && negb (Dict.mem e (done_d s))
                        && negb (Dict.mem e (dependencies s))
             then todo s ++ [dependency] else todo s)
        (fun s' => todo s' = todo s)).
Proof.
  split.
  - intros. reflexivity.
  - apply process_new_dependency_todo.
Qed.
End RecurseArgument.

(* ================================================================== *)
(** * [edges()] *)

Section Edges.
Context {repo : Repo} {options : Options}.

Lemma edges_rows s :
  NoDup (Dict.keys (dependencies s)) ->
  edges s = map (fun entry =>
                   map (fun dependency => (fst entry, dependency))
                     (Dict.keys (snd entry)))
              (dependencies s).
Proof.
  intros Hnd. unfold edges, Dict.keys at 2. rewrite map_map.
  apply map_ext_in. intros [d by_d] Hin. simpl.
  now rewrite (In_get _ _ _ Hnd Hin).
Qed.

Lemma In_dependency_keys s d e :
  In (d, e) (dependency_keys s) <->
  exists by_d, In (d, by_d) (dependencies s) /\ In e (Dict.keys by_d).
Proof.
  unfold dependency_keys. rewrite in_flat_map. split.
  - intros [[d' by_d] [Hin Hp]]. simpl in Hp.
    apply in_map_iff in Hp as [e' [[= <- <-] He]]. eauto.
  - intros [by_d [Hin He]]. exists (d, by_d). split; [exact Hin|].
    simpl. now apply in_map.
Qed.

Lemma NoDup_dependency_keys s : graph_wf s -> NoDup (dependency_keys s).
Proof.
  unfold graph_wf, graph_wf_on, dict_wf, dependency_keys.
  generalize (dependencies s) as deps.
  induction deps as [|[d by_d] deps IH]; intros [Hnd Hin]; simpl;
    [constructor|].
  inversion Hnd as [|? ? Hnotin Hnd']; subst.
  apply NoDup_app.
  - apply Injective_map_NoDup; [intros x y [= ->]; reflexivity|].
    apply (Hin d by_d). now left.
  - apply IH. split; [exact Hnd'|]. intros d0 by_d0 Hd0. apply (Hin d0 by_d0). now right.
  - intros [d' e'] H1 H2.
    apply in_map_iff in H1 as [e1 [[= <- <-] _]].
    apply in_flat_map in H2 as [[d2 by_d2] [Hin2 Hp]]. simpl in Hp.
    apply in_map_iff in Hp as [e2 [[= -> _] _]].
    apply Hnotin. change d with (fst (d, by_d2)). now apply in_map.
Qed.

(** C1, as the code has it.  [edges()] returns one list per dependent of
    the graph, in the order of the dependents, the list of a dependent
    holding its (dependent, dependency) pairs; put end to end, these
    lists hold exactly one pair for each recorded dependency key,
    whatever paths and lines are recorded below it. *)
Theorem edges_grouped_by_dependent s :
  graph_wf s ->
  edges s = map (fun entry =>
                   map (fun dependency => (fst entry, dependency))
                     (Dict.keys (snd entry)))
              (dependencies s) /\
  concat (edges s) = dependency_keys s /\
  NoDup (concat (edges s)) /\
  forall d e, In (d, e) (concat (edges s)) <->
              exists src, sources s d e = Some src.
Proof.
  intros Hwf. pose proof (edges_rows s (proj1 Hwf)) as Hrows.
  assert (Hcat : concat (edges s) = dependency_keys s).
  { rewrite Hrows. unfold dependency_keys. now rewrite flat_map_concat_map. }
  split; [exact Hrows|]. split; [exact Hcat|]. rewrite Hcat.
  split; [now apply NoDup_dependency_keys|].
  intros d e. rewrite In_dependency_keys. unfold sources, sources_in. split.
  - intros [by_d [Hin He]].
    rewrite (In_get _ _ _ (proj1 Hwf) Hin).
    apply mem_keys in He. now apply mem_true_get.
  - intros [src Hsrc].
    destruct (Dict.get d (dependencies s)) as [by_d|] eqn:Hd; [|discriminate].
    exists by_d. split; [now apply get_In|].
    apply mem_keys. eapply get_some_mem; eassumption.
Qed.

Lemma edges_grouped_by_dependent_witness :
  graph_wf two_dependencies /\
  concat (edges two_dependencies) = [("cccc", "bbbb"); ("cccc", "aaaa")].
Proof.
  assert (Hwf : graph_wf two_dependencies).
  { split; simpl.
    - repeat constructor; simpl; tauto.
    - intros d by_d [[= <- <-]|[]]. split.
      + repeat constructor; simpl; intuition discriminate.
      + intros e src [[= <- <-]|[[= <- <-]|[]]]; split;
          try constructor; intros ? ? []. }
  split; [exact Hwf|].
  exact (proj1 (proj2 (edges_grouped_by_dependent two_dependencies Hwf))).
Defined.

(** C1, as stated, fails: with two dependencies recorded for one
    dependent, [edges()] is a list holding one list of two pairs, not
    the flat list of the two pairs. *)
Lemma edges_not_flat :
  edges two_dependencies = [[("cccc", "bbbb"); ("cccc", "aaaa")]] /\
  dependency_keys two_dependencies = [("cccc", "bbbb"); ("cccc", "aaaa")] /\
  py_of_edges (edges two_dependencies)
  <> py_flat_pairs (dependency_keys two_dependencies).
Proof. split; [reflexivity|]. split; [reflexivity|]. discriminate. Qed.
End Edges.

(* ================================================================== *)
(** * Paths missing from the parent's tree *)

Section TreeLookup.
Context {repo : Repo} {options : Options}.

Lemma tree_lookup_loop_pure segments obj s :
  ends (tree_lookup_loop segments obj s)
    (fun _ s' => s' = s) (fun s' => s' = s) (fun _ => False).
Proof.
  revert obj. induction segments as [|dirent rest IH]; intros obj; simpl.
  - reflexivity.
  - destruct obj as [data|entries]; [reflexivity|].
    destruct (Dict.get dirent entries) as [oid|]; [|reflexivity].
    destruct (repo_getitem oid) as [obj|]; [apply IH|reflexivity].
Qed.

Lemma tree_lookup_loop_unresolved segments obj s :
  unresolved segments obj -> tree_lookup_loop segments obj s = Ok None s.
Proof.
  induction 1 as [dirent rest entries Hget|dirent rest data
                 |dirent rest entries oid obj Hget Hobj Hun IH]; simpl.
  - now rewrite Hget.
  - reflexivity.
  - now rewrite Hget, Hobj.
Qed.

Lemma blame_diff_hunk_skip dependent parent path h s found :
  tree_lookup path parent s = Ok found s -> truthy found = false ->
  blame_diff_hunk dependent parent path h s = Ok tt s.
Proof.
  intros Hlook Hfalse. unfold blame_diff_hunk, bind.
  now rewrite Hlook, Hfalse.
Qed.

(** C9.  When the path of a hunk does not lead to an entry of the
    parent's tree (a segment is absent, or an intermediate segment is
    not a tree), [tree_lookup] returns [None] and [blame_diff_hunk]
    returns normally with the detector untouched: no blame request, no
    dependent registered, no edge or evidence, no notification.  The
    loop over the hunks of the file goes on with the next hunk. *)
Theorem blame_diff_hunk_skips_unresolved_path
    dependent parent path h hs s :
  unresolved (split "/" path) (Tree (tree parent)) ->
  tree_lookup path parent s = Ok None s /\
  blame_diff_hunk dependent parent path h s = Ok tt s /\
  for_each (h :: hs) (blame_diff_hunk dependent parent path) s
  = for_each hs (blame_diff_hunk dependent parent path) s.
Proof.
  intros Hun.
  assert (Hlook : tree_lookup path parent s = Ok None s)
    by now apply tree_lookup_loop_unresolved.
  assert (Hskip : blame_diff_hunk dependent parent path h s = Ok tt s)
    by now apply (blame_diff_hunk_skip _ _ _ _ _ None).
  split; [exact Hlook|]. split; [exact Hskip|].
  unfold for_each. simpl. unfold bind. now rewrite Hskip.
Qed.
End TreeLookup.

(** On the linear history, [doc/readme] is not in the tree of [cb]. *)
Lemma blame_diff_hunk_skips_unresolved_path_witness :
  unresolved (repo := Linear.repo) (split "/" "doc/readme")
    (Tree (tree Linear.cb)) /\
  blame_diff_hunk (repo := Linear.repo) (options := Linear.recursive)
    Linear.cc Linear.cb "doc/readme" Linear.hunk_doc init = Ok tt init.
Proof.
  assert (Hun : unresolved (repo := Linear.repo) (split "/" "doc/readme")
                  (Tree (tree Linear.cb)))
    by (apply unresolved_absent; reflexivity).
  split; [exact Hun|].
  exact (proj1 (proj2 (blame_diff_hunk_skips_unresolved_path
                         (repo := Linear.repo) (options := Linear.recursive)
                         Linear.cc Linear.cb "doc/readme" Linear.hunk_doc []
                         init Hun))).
Defined.

(* ================================================================== *)
(** * The caches *)

(** Dictionary facts that need nothing of [==]. *)
Lemma get_In_weak {K V} `{PyEq K} (k : K) (v : V) d :
  Dict.get k d = Some v -> exists k0, In (k0, v) d /\ py_eqb k0 k = true.
Proof.
  induction d as [|[k0 v0] d IH]; simpl; [discriminate|].
  destruct (py_eqb k0 k) eqn:E.
  - intros [= ->]. exists k0. auto.
  - intros Hg. destruct (IH Hg) as [k1 [? ?]]. exists k1. auto.
Qed.

Lemma In_set_weak {K V} `{PyEq K} (k k1 : K) (v v1 : V) d :
  In (k1, v1) (Dict.set k v d) ->
  In (k1, v1) d \/
  (v1 = v /\ (k1 = k \/ exists v0, In (k1, v0) d /\ py_eqb k1 k = true)).
Proof.
  induction d as [|[k0 v0] d IH]; simpl.
  - intros [[= <- <-]|[]]. right. auto.
  - destruct (py_eqb k0 k) eqn:E; simpl.
    + intros [[= <- <-]|Hin]; [|auto].
      right. split; [reflexivity|]. right. exists v0. auto.
    + intros [[= <- <-]|Hin]; [auto|].
      destruct (IH Hin) as [?|[-> [->|[v2 [? ?]]]]]; [auto| |].
      * right. auto.
      * right. split; [reflexivity|]. right. exists v2. auto.
Qed.

Lemma rev_key_eqb_str k rev : py_eqb k (RevStr rev) = true -> k = RevStr rev.
Proof.
  destruct k as [r|c]; simpl; [|discriminate].
  intros E. apply String.eqb_eq in E. now subst.
Qed.

Section Caches.
Context {repo : Repo} {options : Options}.

Lemma cache_get s rev c :
  cache_ok s -> Dict.get (RevStr rev) (commits s) = Some c ->
  ref_commit rev = Some c.
Proof.
  intros Hok Hget. apply get_In_weak in Hget as [k0 [Hin Heq]].
  apply rev_key_eqb_str in Heq; subst k0.
  destruct (Hok _ _ Hin) as [rev' [[= <-] Hr]]. exact Hr.
Qed.

Lemma cache_set cs rev c :
  cache_on cs -> ref_commit rev = Some c ->
  cache_on (Dict.set (RevStr rev) c cs).
Proof.
  intros Hok Hr k' c' Hin.
  apply In_set_weak in Hin as [Hin|[-> [->|[v0 [Hin Heq]]]]].
  - now apply Hok.
  - eauto.
  - apply rev_key_eqb_str in Heq; subst k'. eauto.
Qed.

(** A commit object is never a key of the cache. *)
Lemma seen_commit_false s c :
  cache_ok s -> Dict.mem (RevCommit c) (commits s) = false.
Proof.
  intros Hok. unfold Dict.mem.
  destruct (Dict.get (RevCommit c) (commits s)) as [c'|] eqn:Hget;
    [|reflexivity].
  apply get_In_weak in Hget as [k0 [Hin Heq]].
  destruct (Hok _ _ Hin) as [rev [-> _]]. discriminate.
Qed.

(** [process_new_dependency] always registers the edge, with no evidence
    yet, and announces the dependency. *)
Lemma process_new_dependency_notifies
    dependent d dependency e path n by_d s :
  cache_ok s -> Dict.get d (dependencies s) = Some by_d ->
  ends (process_new_dependency dependent d dependency e path n s)
    (fun _ s' =>
       notified s' = notified s ++ [new_commit dependency;
                                    new_dependency dependent dependency path n]
       /\ dependencies s'
          = Dict.set d (Dict.set e [] by_d) (dependencies s)
       /\ sources s' d e = Some [])
    (fun _ => False) (fun _ => False).
Proof.
  intros Hcache Hget. unfold process_new_dependency, seen_commit.
  apply ends_bind, ends_gets. rewrite (seen_commit_false s dependency Hcache).
  run; simpl in *; try congruence.
  all: rewrite <- app_assoc; split; [reflexivity|].
  all: match goal with
       | H1 : Dict.get ?d ?m = Some ?x, H2 : Dict.get ?d ?m = Some ?y |- _ =>
           rewrite H1 in H2; injection H2 as <-
       end.
  all: split; [reflexivity|].
  all: unfold sources, sources_in; simpl; now rewrite !get_set_eq.
Qed.

End Caches.

(* ================================================================== *)
(** * Well-formed dictionaries and the graph *)

Section DictWf.
Context {K V : Type} `{PyEqLaws K}.
Variable value_wf : V -> Prop.

Lemma dict_wf_nil : dict_wf value_wf (@nil (K * V)).
Proof. split; [constructor|intros ? ? []]. Qed.

Lemma dict_wf_get k v d :
  dict_wf value_wf d -> Dict.get k d = Some v -> value_wf v.
Proof. intros [_ Hall] Hget. apply (Hall k). now apply get_In. Qed.

Lemma dict_wf_set k v d :
  dict_wf value_wf d -> value_wf v -> dict_wf value_wf (Dict.set k v d).
Proof.
  intros [Hnd Hall] Hv. split; [now apply NoDup_keys_set|].
  intros k1 v1 Hin. apply In_set in Hin; [|exact Hnd].
  destruct Hin as [[_ ->]|[_ Hin]]; [exact Hv|now apply (Hall k1)].
Qed.
End DictWf.

Lemma count_snoc {X} (f : X -> bool) l x :
  count f (l ++ [x]) = (count f l + if f x then 1 else 0)%nat.
Proof.
  unfold count. rewrite filter_app, length_app. simpl. now destruct (f x).
Qed.

Lemma edges_total_set_new d (deps : dependencies_t) :
  Dict.mem d deps = false -> edges_total (Dict.set d [] deps) = edges_total deps.
Proof.
  unfold edges_total, Dict.mem.
  induction deps as [|[d0 b0] deps IH]; simpl; [reflexivity|].
  destruct (py_eqb d0 d) eqn:E; [discriminate|]. simpl.
  intros Hm. now rewrite IH.
Qed.

Lemma edges_total_set d by_d by_d' (deps : dependencies_t) :
  Dict.get d deps = Some by_d ->
  (edges_total (Dict.set d by_d' deps) + length by_d
   = edges_total deps + length by_d')%nat.
Proof.
  unfold edges_total.
  induction deps as [|[d0 b0] deps IH]; simpl; [discriminate|].
  destruct (py_eqb d0 d) eqn:E; simpl.
  - intros [= ->]. lia.
  - intros Hg. specialize (IH Hg). lia.
Qed.

Lemma edges_total_add_edge d e by_d x (deps : dependencies_t) :
  Dict.get d deps = Some by_d -> Dict.mem e by_d = false ->
  edges_total (Dict.set d (Dict.set e x by_d) deps) = S (edges_total deps).
Proof.
  intros Hget Hnew.
  pose proof (edges_total_set d by_d (Dict.set e x by_d) deps Hget) as Ht.
  rewrite length_set, Hnew in Ht.
  apply (Nat.add_cancel_r _ _ (length by_d)). rewrite Ht. simpl. lia.
Qed.

Lemma edges_total_same_edge d e by_d x (deps : dependencies_t) :
  Dict.get d deps = Some by_d -> Dict.mem e by_d = true ->
  edges_total (Dict.set d (Dict.set e x by_d) deps) = edges_total deps.
Proof.
  intros Hget Hold.
  pose proof (edges_total_set d by_d (Dict.set e x by_d) deps Hget) as Ht.
  rewrite length_set, Hold in Ht.
  now apply (Nat.add_cancel_r _ _ (length by_d)).
Qed.

Lemma sources_in_set_new d (deps : dependencies_t) d' e' src :
  sources_in (Dict.set d [] deps) d' e' = Some src ->
  sources_in deps d' e' = Some src.
Proof.
  unfold sources_in. destruct (String.eqb_spec d' d) as [->|Hne].
  - rewrite get_set_eq. discriminate.
  - now rewrite get_set_ne.
Qed.

Lemma sources_in_set d e by_d x (deps : dependencies_t) d' e' src :
  Dict.get d deps = Some by_d ->
  sources_in (Dict.set d (Dict.set e x by_d) deps) d' e' = Some src ->
  (d' = d /\ e' = e) \/ sources_in deps d' e' = Some src.
Proof.
  unfold sources_in. intros Hget.
  destruct (String.eqb_spec d' d) as [->|Hne].
  - rewrite get_set_eq, Hget.
    destruct (String.eqb_spec e' e) as [->|Hnee]; [auto|].
    rewrite get_set_ne by exact Hnee. auto.
  - rewrite get_set_ne by exact Hne. auto.
Qed.

(* ================================================================== *)
(** * What every method keeps *)

Ltac open_ok :=
  repeat match goal with
         | H : state_ok _ _ |- _ => destruct H as (? & ? & ? & ? & ?)
         end;
  unfold cache_ok, memo_ok, graph_wf, todo_resolved, edges_ok,
    balanced, edge_count in *;
  simpl in *.

Ltac split_ok :=
  lazymatch goal with
  | |- state_ok _ _ =>
      unfold state_ok, cache_ok, memo_ok, graph_wf, todo_resolved, edges_ok;
      simpl; refine (conj _ (conj _ (conj _ (conj _ _)))); try assumption
  end.

Section Keeps.
Context {repo : Repo} {options : Options}.
Variable P : string -> string -> Prop.

(** The edges the detector adds: from a resolved commit to a commit that
    attribution over the first parent names and no boundary excludes. *)
Hypothesis new_edge_ok :
  forall dependent parent rest h path bhs bh c,
    resolved dependent -> parents dependent = parent :: rest ->
    attribution h parent path = Some bhs -> In bh bhs ->
    ref_commit (orig_commit_id bh) = Some c -> excluded c = false ->
    P (commit_id dependent) (orig_commit_id bh).

Lemma get_commit_keeps k rev s :
  good P k s ->
  sat (get_commit rev s)
    (fun c s' => ref_commit rev = Some c /\ good P k s') (state_ok P).
Proof.
  intros [Hok Hbal]. unfold get_commit. run.
  - split; [|split; assumption]. eapply cache_get; [apply Hok|eassumption].
  - split; [reflexivity|]. split; [|exact Hbal].
    open_ok. split_ok. now apply cache_set.
  - exact Hok.
Qed.

Lemma memo_set_row memo a :
  memo_on memo -> Dict.mem a memo = false -> memo_on (Dict.set a [] memo).
Proof.
  intros Hok Hnew a' row b r.
  destruct (String.eqb_spec a' a) as [->|Hne].
  - rewrite get_set_eq. intros [= <-]. discriminate.
  - rewrite get_set_ne by exact Hne. apply Hok.
Qed.

Lemma memo_set_answer memo a b row out :
  memo_on memo -> Dict.get a memo = Some row ->
  check_output_merge_base a b = Some out ->
  memo_on (Dict.set a (Dict.set b (String.eqb (strip out) a) row) memo).
Proof.
  intros Hok Hrow Hout a' row' b' r.
  destruct (String.eqb_spec a' a) as [->|Hne].
  - rewrite get_set_eq. intros [= <-].
    destruct (String.eqb_spec b' b) as [->|Hneb].
    + rewrite get_set_eq. intros [= <-].
      exists (strip out). unfold merge_base. now rewrite Hout.
    + rewrite get_set_ne by exact Hneb. now apply Hok.
  - rewrite get_set_ne by exact Hne. apply Hok.
Qed.

Lemma branch_contains_keeps k c branch s :
  good P k s ->
  sat (branch_contains c branch s)
    (fun b s' => b = contained_in (commit_id c) branch /\ good P k s')
    (state_ok P).
Proof.
  intros Hgood. unfold branch_contains.
  call_with (get_commit_keeps k branch s Hgood); [|auto|auto].
  intros bc s1 (Hbc & Hok1 & Hbal1).
  apply ends_bind, ends_gets.
  destruct (Dict.mem (commit_id c) (branch_contains_cache s1)) eqn:Hknown.
  - run; simpl in *; try exact Hok1.
    + split; [|split; assumption]. unfold contained_in. rewrite Hbc.
      destruct Hok1 as (_ & Hmemo & _).
      destruct (Hmemo _ _ _ _ Heqo Heqo0) as [base [-> ->]]. reflexivity.
    + split; [|split; [|exact Hbal1]].
      * unfold contained_in, merge_base. now rewrite Hbc, Heqo1.
      * open_ok. split_ok. now apply memo_set_answer.
  - assert (Hmemo2 : memo_on (Dict.set (commit_id c) [] (branch_contains_cache s1)))
      by (apply memo_set_row; [apply Hok1|exact Hknown]).
    run; simpl in *; try (open_ok; split_ok; fail).
    + rewrite get_set_eq in Heqo. injection Heqo as <-. discriminate.
    + split; [|split; [|exact Hbal1]].
      * unfold contained_in, merge_base. now rewrite Hbc, Heqo1.
      * open_ok. split_ok. now apply memo_set_answer.
Qed.

Lemma is_excluded_loop_keeps k c excludes s :
  good P k s ->
  sat (is_excluded_loop c excludes s)
    (fun b s' => b = existsb (contained_in (commit_id c)) excludes /\ good P k s')
    (state_ok P).
Proof.
  revert s. induction excludes as [|ex rest IH]; intros s Hgood; simpl.
  - run. auto.
  - call_with (branch_contains_keeps k c ex s Hgood); [|auto|auto].
    intros b s1 (-> & Hgood1).
    destruct (contained_in (commit_id c) ex); simpl.
    + run. auto.
    + now apply IH.
Qed.

Lemma is_excluded_keeps k c s :
  good P k s ->
  sat (is_excluded c s)
    (fun b s' => b = excluded c /\ good P k s') (state_ok P).
Proof.
  intros Hgood. unfold is_excluded, excluded.
  destruct exclude_commits as [excludes|].
  - now apply is_excluded_loop_keeps.
  - run. auto.
Qed.

Lemma register_new_dependent_keeps k dependent d s :
  good P k s ->
  sat (register_new_dependent dependent d s)
    (fun _ s' => good P k s' /\ Dict.mem d (dependencies s') = true)
    (state_ok P).
Proof.
  intros [Hok Hbal]. unfold register_new_dependent. run.
  - split; [split; assumption|assumption].
  - simpl. split; [|apply mem_set_eq]. split.
    + open_ok. split_ok.
      * apply dict_wf_set; [assumption|apply dict_wf_nil].
      * intros d' e' src Hsrc. apply sources_in_set_new in Hsrc. eauto.
    + open_ok. rewrite count_snoc, edges_total_set_new by assumption.
      simpl. lia.
Qed.

Lemma graph_set_edge d e by_d x (deps : dependencies_t) :
  graph_wf_on deps -> Dict.get d deps = Some by_d -> dict_wf lines_wf x ->
  graph_wf_on (Dict.set d (Dict.set e x by_d) deps).
Proof.
  intros Hwf Hget Hx. apply dict_wf_set; [exact Hwf|].
  apply dict_wf_set; [|exact Hx]. exact (dict_wf_get _ _ _ _ Hwf Hget).
Qed.

Lemma edges_set_edge d e by_d x (deps : dependencies_t) :
  edges_on P deps -> Dict.get d deps = Some by_d -> P d e ->
  edges_on P (Dict.set d (Dict.set e x by_d) deps).
Proof.
  intros Hok Hget HP d' e' src Hsrc.
  destruct (sources_in_set _ _ _ _ _ _ _ _ Hget Hsrc) as [[-> ->]|Hsrc'];
    [exact HP|eauto].
Qed.

Lemma all_resolved_snoc l c :
  all_resolved l -> resolved c -> all_resolved (l ++ [c]).
Proof.
  intros Hl Hc c' Hin. apply in_app_iff in Hin as [Hin|[<-|[]]]; auto.
Qed.

Lemma process_new_dependency_keeps k dependent d dependency e path n by_d s :
  good P k s -> P d e -> resolved dependency ->
  Dict.get d (dependencies s) = Some by_d -> Dict.mem e by_d = false ->
  sat (process_new_dependency dependent d dependency e path n s)
    (fun _ s' => good P k s') (state_ok P).
Proof.
  intros [Hok Hbal] HP Hres Hget Hnew.
  unfold process_new_dependency, seen_commit.
  apply ends_bind, ends_gets.
  rewrite (seen_commit_false s dependency) by apply Hok.
  run; simpl in *; try (open_ok; split_ok; fail).
  all: rewrite Hget in *;
    match goal with H : Some _ = Some _ |- _ => injection H as <- end.
  all: split;
    [ open_ok; split_ok;
      first [ now apply graph_set_edge; [| |apply dict_wf_nil]
            | now apply all_resolved_snoc
            | now apply edges_set_edge ]
    | open_ok; rewrite !count_snoc; simpl;
      rewrite (edges_total_add_edge d e by_d) by assumption; lia ].
Qed.

Lemma sources_wf (deps : dependencies_t) d e by_d src :
  graph_wf_on deps -> Dict.get d deps = Some by_d ->
  Dict.get e by_d = Some src -> dict_wf lines_wf src.
Proof.
  intros Hwf Hd He.
  exact (dict_wf_get _ _ _ _ (dict_wf_get _ _ _ _ Hwf Hd) He).
Qed.

Lemma sources_edge (deps : dependencies_t) d e by_d src :
  edges_on P deps -> Dict.get d deps = Some by_d ->
  Dict.get e by_d = Some src -> P d e.
Proof.
  intros Hok Hd He. apply (Hok d e src). unfold sources_in. now rewrite Hd.
Qed.

Lemma lines_wf_set n line ls : lines_wf ls -> lines_wf (Dict.set n line ls).
Proof. apply NoDup_keys_set. Qed.

Lemma record_dependency_source_keeps
    k parent dependent d dependency e path n line s :
  good P k s ->
  sat (record_dependency_source parent dependent d dependency e path n line s)
    (fun _ s' => good P k s') (state_ok P).
Proof.
  intros [Hok Hbal]. unfold record_dependency_source.
  run; simpl in *; try exact Hok.
  all: try match goal with
           | H : Dict.get ?p (Dict.set ?p _ _) = _ |- _ =>
               rewrite get_set_eq in H; try discriminate;
               injection H as <-
           end.
  all: open_ok.
  all: match goal with
       | Hd : Dict.get _ (dependencies _) = Some ?by_d,
         He : Dict.get _ ?by_d = Some ?src |- _ =>
           pose proof (sources_wf _ _ _ _ _ ltac:(eassumption) Hd He) as Hsrc;
           pose proof (sources_edge _ _ _ _ _ ltac:(eassumption) Hd He) as HP;
           pose proof (get_some_mem _ _ _ He) as Hmem
       end.
  all: try (split_ok; first
         [ apply graph_set_edge; [assumption|assumption|];
           repeat (apply dict_wf_set; [|try apply lines_wf_set]);
           first [assumption | constructor
                 | eapply (dict_wf_get lines_wf); eassumption ]
         | now apply edges_set_edge ]; fail).
  all: split.
  all: try (unfold balanced, edge_count; simpl; rewrite !count_snoc;
            rewrite (edges_total_same_edge d e) by assumption; simpl; lia).
  all: split_ok.
  all: try (now apply edges_set_edge).
  all: apply graph_set_edge; [assumption|assumption|].
  - apply dict_wf_set; [assumption|].
    apply lines_wf_set.
    match goal with
    | Hs : dict_wf lines_wf ?src, Hg : Dict.get _ ?src = Some _ |- _ =>
        exact (dict_wf_get _ _ _ _ Hs Hg)
    end.
  - apply dict_wf_set; [apply dict_wf_set; [assumption|constructor]|].
    repeat constructor. simpl. tauto.
Qed.

Lemma process_blame_hunk_keeps
    k dependent parent rest h path bhs bh line_to_culprit s :
  good P k s -> resolved dependent -> parents dependent = parent :: rest ->
  attribution h parent path = Some bhs -> In bh bhs ->
  sat (process_blame_hunk dependent (commit_id dependent) parent path bh
         line_to_culprit s)
    (fun _ s' => good P k s') (state_ok P).
Proof.
  intros Hgood Hres Hpar Hattr Hin. unfold process_blame_hunk. cbv zeta.
  call_with (get_commit_keeps k (orig_commit_id bh) s Hgood); [|auto|auto].
  intros c s1 (Hc & Hgood1).
  call_with (is_excluded_keeps k c s1 Hgood1); [|auto|auto].
  intros b s2 (-> & Hgood2).
  destruct (excluded c) eqn:Hex; [run; assumption|].
  apply ends_bind, ends_gets. apply ends_bind. unfold getitem.
  destruct (Dict.get (commit_id dependent) (dependencies s2)) as [by_d|] eqn:Hd;
    [apply ends_ret|apply ends_raise; apply Hgood2].
  apply ends_bind.
  eapply ends_mono with (Q := fun _ s' => good P k s')
                        (E := state_ok P) (T := state_ok P);
    [| |auto|auto].
  - destruct (Dict.mem (orig_commit_id bh) by_d) eqn:Hmem.
    + apply ends_ret. exact Hgood2.
    + assert (HP : P (commit_id dependent) (orig_commit_id bh))
        by (eapply new_edge_ok; eassumption).
      assert (Hresc : resolved c) by (eexists; eassumption).
      exact (process_new_dependency_keeps k dependent (commit_id dependent)
               c (orig_commit_id bh) path (final_start_line_number bh)
               by_d s2 Hgood2 HP Hresc Hd Hmem).
  - intros _ s3 Hgood3. cbv beta.
    call_with (record_dependency_source_keeps k parent dependent
                 (commit_id dependent) c (orig_commit_id bh) path
                 (final_start_line_number bh)); [exact Hgood3| |auto|auto].
    intros _ s4 Hgood4. run. exact Hgood4.
Qed.

Lemma run_blame_spec h parent path s :
  ends (run_blame h parent path s)
    (fun bhs s' =>
       attribution h parent path = Some bhs /\
       s' = with_calls
              (calls s ++ [call_blame path (commit_id parent)
                             (old_start h) (old_lines h)]) s)
    (fun s' =>
       s' = with_calls
              (calls s ++ [call_blame path (commit_id parent)
                             (old_start h) (old_lines h)]) s)
    (fun _ => False).
Proof.
  unfold run_blame. fold (attribution h parent path).
  run; [split; reflexivity|reflexivity].
Qed.

Lemma debug_hunk_loop_pure ls n line_to_culprit s :
  ends (debug_hunk_loop ls n line_to_culprit s)
    (fun _ s' => s' = s) (fun s' => s' = s) (fun _ => False).
Proof.
  revert n. induction ls as [|line ls IH]; intros n;
    cbn [debug_hunk_loop]; [reflexivity|].
  run; try reflexivity; apply IH.
Qed.

Lemma blame_diff_hunk_keeps k dependent parent rest path h s :
  good P k s -> resolved dependent -> parents dependent = parent :: rest ->
  sat (blame_diff_hunk dependent parent path h s)
    (fun _ s' => good P k s') (state_ok P).
Proof.
  intros Hgood Hres Hpar. unfold blame_diff_hunk.
  call_with (tree_lookup_loop_pure (split "/" path) (Tree (tree parent)) s);
    [|intros ? ->; apply Hgood|intros ? []].
  intros found s1 ->.
  destruct (negb (truthy found)); [run; exact Hgood|].
  call_with (run_blame_spec h parent path s);
    [|intros ? ->; apply Hgood|intros ? []].
  intros bhs s1 [Hattr ->].
  call_with (register_new_dependent_keeps k dependent (commit_id dependent));
    [exact Hgood| |auto|auto].
  intros _ s2 [Hgood2 _].
  apply ends_bind.
  eapply ends_mono;
    [apply (ends_for_fold (fun _ s' => good P k s') (state_ok P) (state_ok P))
    | | |]; cbv beta; [| exact Hgood2| |auto|auto].
  - intros bh ltc s3 Hin Hgood3.
    eapply process_blame_hunk_keeps; eassumption.
  - intros ltc s3 Hgood3.
    eapply ends_mono; [apply debug_hunk_loop_pure| | |]; cbv beta;
      [intros ? ? ->; exact Hgood3|intros ? ->; apply Hgood3|intros ? []].
Qed.

Lemma find_dependencies_with_parent_keeps k dependent parent rest s :
  good P k s -> resolved dependent -> parents dependent = parent :: rest ->
  sat (find_dependencies_with_parent dependent parent s)
    (fun _ s' => good P k s') (state_ok P).
Proof.
  intros Hgood Hres Hpar. unfold find_dependencies_with_parent.
  apply ends_bind, ends_log_call. cbv zeta.
  apply (ends_for_each (good P k)); [|exact Hgood].
  intros p s1 _ Hgood1.
  apply (ends_for_each (good P k)); [|exact Hgood1].
  intros h s2 _ Hgood2. eapply blame_diff_hunk_keeps; eassumption.
Qed.

Lemma process_todo_keeps k dependent rest s :
  good P k s -> todo s = dependent :: rest ->
  sat (process_todo dependent rest s) (fun _ s' => good P k s') (state_ok P).
Proof.
  intros [Hok Hbal] Htodo. unfold process_todo.
  assert (Hres : resolved dependent).
  { apply Hok. rewrite Htodo. now left. }
  assert (Hrest : all_resolved rest).
  { intros c Hc. apply Hok. rewrite Htodo. now right. }
  apply ends_bind, ends_modify. apply ends_bind, ends_gets. simpl.
  apply ends_bind.
  destruct (Dict.mem (commit_id dependent) (todo_d s));
    [apply ends_modify|apply ends_raise; open_ok; split_ok].
  apply ends_bind, ends_gets. simpl.
  destruct (Dict.mem (commit_id dependent) (done_d s)).
  { apply ends_ret. split; [open_ok; split_ok|exact Hbal]. }
  apply ends_bind, ends_notify. apply ends_bind.
  match goal with
  | |- ends (_ ?s1) _ _ _ =>
      assert (Hgood1 : good P (k + 1) s1)
        by (split; [open_ok; split_ok
                   |open_ok; rewrite count_snoc; simpl; lia])
  end.
  eapply ends_mono with (Q := fun _ s' => good P (k + 1) s')
                        (E := state_ok P) (T := state_ok P);
    [| |auto|auto].
  - destruct (parents dependent) as [|parent others] eqn:Hpar.
    + apply ends_ret. exact Hgood1.
    + eapply find_dependencies_with_parent_keeps; eassumption.
  - intros _ s2 [Hok2 Hbal2]. run. split.
    + open_ok. split_ok.
    + open_ok. rewrite count_snoc, length_app. simpl. lia.
Qed.

Lemma todo_loop_keeps k fuel s :
  good P k s -> sat (todo_loop fuel s) (fun _ s' => good P k s') (state_ok P).
Proof.
  revert s. induction fuel as [|fuel IH]; intros s Hgood; simpl;
    destruct (todo s) as [|dependent rest] eqn:Htodo;
    try exact Hgood; try apply Hgood.
  call_with (process_todo_keeps k dependent rest s Hgood Htodo); [|auto|auto].
  intros _ s1 Hgood1. now apply IH.
Qed.

Lemma find_dependencies_keeps k fuel dependent_rev recurse_arg s :
  good P k s ->
  sat (find_dependencies fuel dependent_rev recurse_arg s)
    (fun _ s' => good P k s') (state_ok P).
Proof.
  intros Hgood. unfold find_dependencies. cbv zeta.
  apply ends_bind.
  pose proof (get_commit_keeps k dependent_rev s Hgood) as Hget.
  unfold try_except_InvalidCommitish, sat in *.
  destruct (get_commit dependent_rev s) as [dependent s1|e s1|s1];
    simpl in *; [|destruct e; exact Hget|exact Hget].
  destruct Hget as (Hres & Hok1 & Hbal1).
  run.
  call_with (todo_loop_keeps k fuel); [| |auto|auto].
  - split; [|exact Hbal1]. open_ok. split_ok.
    apply all_resolved_snoc; [assumption|eexists; eassumption].
  - intros _ s2 [Hok2 Hbal2]. run. split; [open_ok; split_ok|].
    open_ok. rewrite count_snoc. simpl. lia.
Qed.

End Keeps.

Lemma balanced_exists s : exists k, balanced k s.
Proof.
  exists (Z.of_nat (count is_any_new_commit (notified s))
          - Z.of_nat (edge_count s) - Z.of_nat (length (done s))).
  unfold balanced. lia.
Qed.

Lemma graph_wf_no_duplicate_evidence s :
  graph_wf s -> no_duplicate_evidence s.
Proof.
  intros Hwf d e p ls. unfold evidence, sources, sources_in.
  destruct (Dict.get d (dependencies s)) as [by_d|] eqn:Hd; [|discriminate].
  destruct (Dict.get e by_d) as [src|] eqn:He; [|discriminate].
  intros Hp.
  exact (dict_wf_get _ _ _ _
           (dict_wf_get _ _ _ _ (dict_wf_get _ _ _ _ Hwf Hd) He) Hp).
Qed.

Lemma init_ok {repo : Repo} P : state_ok P init.
Proof.
  refine (conj _ (conj _ (conj _ (conj _ _)))).
  - intros k c [].
  - intros a row b r. discriminate.
  - split; [constructor|intros ? ? []].
  - intros c [].
  - intros d e src. discriminate.
Qed.

(* ================================================================== *)
(** * Evidence is recorded once *)

Section Recording.
Context {repo : Repo} {options : Options}.

(** [record_dependency_source] on an edge that has evidence for the
    file already. *)
Lemma record_dependency_source_present
    parent dependent d dependency e path n line s by_d src ls :
  Dict.get d (dependencies s) = Some by_d -> Dict.get e by_d = Some src ->
  Dict.get path src = Some ls ->
  record_dependency_source parent dependent d dependency e path n line s
  = if Dict.mem n ls then Raise SystemExit s
    else Ok tt
           (with_notified
              (notified s ++ [new_line dependent dependency path n])
              (with_dependencies
                 (Dict.set d
                    (Dict.set e (Dict.set path (Dict.set n line ls) src) by_d)
                    (dependencies s)) s)).
Proof.
  intros Hd He Hp.
  unfold record_dependency_source, notify_listeners, bind, gets, getitem,
    ret, abort, raise, modify.
  rewrite Hd. cbn beta iota. rewrite He. cbn beta iota.
  rewrite (get_some_mem _ _ _ Hp). cbn beta iota. rewrite Hp.
  cbn beta iota. destruct (Dict.mem n ls); reflexivity.
Qed.

(** ... and on an edge that has none for the file. *)
Lemma record_dependency_source_absent
    parent dependent d dependency e path n line s by_d src :
  Dict.get d (dependencies s) = Some by_d -> Dict.get e by_d = Some src ->
  Dict.get path src = None ->
  record_dependency_source parent dependent d dependency e path n line s
  = Ok tt
      (with_notified
         ((notified s ++ [new_path dependent dependency path n])
          ++ [new_line dependent dependency path n])
         (with_dependencies
            (Dict.set d
               (Dict.set e
                  (Dict.set path (Dict.set n line [])
                     (Dict.set path [] src)) by_d)
               (dependencies s)) s)).
Proof.
  intros Hd He Hp.
  unfold record_dependency_source, notify_listeners, bind, gets, getitem,
    ret, abort, raise, modify.
  rewrite Hd. cbn beta iota. rewrite He. cbn beta iota.
  rewrite (get_none_mem _ _ Hp). cbn beta iota zeta.
  rewrite get_set_eq. reflexivity.
Qed.

End Recording.

Section Evidence.
Context {repo : Repo} {options : Options}.

(** C2.  [record_dependency_source] looks the line number up in the
    evidence of the (dependent, dependency, path) triple: when it is
    there the call aborts the run and the graph stays as it was, when it
    is not the line is stored.  So no line number is ever twice in an
    evidence set, neither after the call nor at any point of a run of
    [find_dependencies]. *)
Theorem record_dependency_source_once
    parent dependent d dependency e path n line s src :
  graph_wf s -> sources s d e = Some src ->
  (forall ls, Dict.get path src = Some ls -> Dict.mem n ls = true ->
     record_dependency_source parent dependent d dependency e path n line s
     = Raise SystemExit s) /\
  ((forall ls, Dict.get path src = Some ls -> Dict.mem n ls = false) ->
     exists s',
       record_dependency_source parent dependent d dependency e path n line s
       = Ok tt s' /\
       exists ls', evidence s' d e path = Some ls' /\
                   Dict.get n ls' = Some line) /\
  no_duplicate_evidence
    (final (record_dependency_source parent dependent d dependency e path
              n line s)) /\
  (state_ok (fun _ _ => True) s ->
   forall fuel dependent_rev recurse_arg,
     no_duplicate_evidence
       (final (find_dependencies fuel dependent_rev recurse_arg s))).
Proof.
  intros Hwf Hsrc.
  pose proof Hsrc as Hsrc'. unfold sources, sources_in in Hsrc'.
  destruct (Dict.get d (dependencies s)) as [by_d|] eqn:Hd; [|discriminate].
  rename Hsrc' into He.
  pose proof (fun ls =>
                record_dependency_source_present parent dependent d
                  dependency e path n line s by_d src ls Hd He) as Hrun.
  pose proof (record_dependency_source_absent parent dependent d
                dependency e path n line s by_d src Hd He) as Hnew.
  assert (Hsrcwf : dict_wf lines_wf src)
    by exact (dict_wf_get _ _ _ _ (dict_wf_get _ _ _ _ Hwf Hd) He).
  split; [|split; [|split]].
  - intros ls Hp Hmem. now rewrite (Hrun ls Hp), Hmem.
  - intros Hfresh.
    destruct (Dict.get path src) as [ls|] eqn:Hp.
    + rewrite (Hrun ls eq_refl), (Hfresh ls eq_refl).
      eexists. split; [reflexivity|].
      exists (Dict.set n line ls).
      unfold evidence, sources, sources_in. simpl.
      now rewrite !get_set_eq.
    + rewrite (Hnew eq_refl). eexists. split; [reflexivity|].
      exists (Dict.set n line []).
      unfold evidence, sources, sources_in. simpl.
      rewrite !get_set_eq. simpl. now rewrite Z.eqb_refl.
  - apply graph_wf_no_duplicate_evidence.
    destruct (Dict.get path src) as [ls|] eqn:Hp.
    + rewrite (Hrun ls eq_refl). destruct (Dict.mem n ls); [exact Hwf|].
      apply graph_set_edge; [exact Hwf|exact Hd|].
      apply dict_wf_set; [exact Hsrcwf|].
      apply lines_wf_set. exact (dict_wf_get _ _ _ _ Hsrcwf Hp).
    + rewrite (Hnew eq_refl).
      apply graph_set_edge; [exact Hwf|exact Hd|].
      apply dict_wf_set; [apply dict_wf_set; [exact Hsrcwf|constructor]|].
      apply lines_wf_set. constructor.
  - intros Hok fuel dependent_rev recurse_arg.
    apply graph_wf_no_duplicate_evidence.
    destruct (balanced_exists s) as [k Hbal].
    pose proof (find_dependencies_keeps (fun _ _ => True)
                  (fun _ _ _ _ _ _ _ _ _ _ _ _ _ _ => I)
                  k fuel dependent_rev recurse_arg s (conj Hok Hbal)) as Hrun'.
    assert (Hfin : state_ok (fun _ _ => True)
                     (final (find_dependencies fuel dependent_rev
                               recurse_arg s))).
    { apply sat_final. eapply ends_mono; [exact Hrun'| |auto|auto].
      intros _ s' [Hok' _]. exact Hok'. }
    apply Hfin.
Qed.

End Evidence.

(* ================================================================== *)
(** * No commit depends on itself *)

Section NoSelfEdge.
Context {repo : Repo} {options : Options}.

(** Attribution over the tree of the first parent names commits of the
    parent's history only. *)
Hypothesis blame_in_history :
  forall dependent parent rest h path bhs bh,
    resolved dependent -> parents dependent = parent :: rest ->
    attribution h parent path = Some bhs -> In bh bhs ->
    In (orig_commit_id bh) (history parent).

(** A commit of the repository is not in the history of its parent. *)
Hypothesis history_acyclic :
  forall dependent parent rest,
    resolved dependent -> parents dependent = parent :: rest ->
    ~ In (commit_id dependent) (history parent).

(** C5.  In a run that starts without self-edges, the graph has no edge
    from a commit to itself, wherever the run stands: when it returns,
    when it raises, after any number of turns of the worklist loop. *)
Theorem no_self_dependency fuel dependent_rev recurse_arg s :
  state_ok (fun d e => d <> e) s ->
  no_self_edges (final (find_dependencies fuel dependent_rev recurse_arg s)).
Proof.
  intros Hok. destruct (balanced_exists s) as [k Hbal].
  assert (Hnew : forall dependent parent rest h path bhs bh c,
             resolved dependent -> parents dependent = parent :: rest ->
             attribution h parent path = Some bhs -> In bh bhs ->
             ref_commit (orig_commit_id bh) = Some c -> excluded c = false ->
             commit_id dependent <> orig_commit_id bh).
  { intros dependent parent rest h path bhs bh c Hres Hpar Hattr Hin _ _ Heq.
    apply (history_acyclic dependent parent rest Hres Hpar).
    rewrite Heq. eapply blame_in_history; eassumption. }
  pose proof (find_dependencies_keeps (fun d e => d <> e) Hnew
                k fuel dependent_rev recurse_arg s (conj Hok Hbal)) as Hrun.
  assert (Hfin : state_ok (fun d e => d <> e)
                   (final (find_dependencies fuel dependent_rev
                             recurse_arg s))).
  { apply sat_final. eapply ends_mono; [exact Hrun| |auto|auto].
    intros _ s' [Hok' _]. exact Hok'. }
  destruct Hfin as (_ & _ & _ & _ & Hedges).
  intros c. destruct (sources _ c c) as [src|] eqn:Hsrc; [|reflexivity].
  exfalso. exact (Hedges c c src Hsrc eq_refl).
Qed.

End NoSelfEdge.

(* ================================================================== *)
(** * Exclusion by ancestry *)

Lemma same_graph_refl s : same_graph s s.
Proof. repeat split. Qed.

Lemma same_graph_trans s1 s2 s3 :
  same_graph s1 s2 -> same_graph s2 s3 -> same_graph s1 s3.
Proof.
  unfold same_graph. intros (? & ? & ? & ? & ? & ?) (? & ? & ? & ? & ? & ?).
  repeat split; congruence.
Qed.

Section Exclusion.
Context {repo : Repo} {options : Options}.

Lemma get_commit_frame rev s :
  ends (get_commit rev s)
    (fun _ s' => same_graph s s') (same_graph s) (fun _ => False).
Proof. unfold get_commit. run; repeat split. Qed.

Lemma branch_contains_frame c branch s :
  ends (branch_contains c branch s)
    (fun _ s' => same_graph s s') (same_graph s) (fun _ => False).
Proof.
  unfold branch_contains.
  call_with (get_commit_frame branch s); [|auto|auto].
  intros bc s1 Hs1.
  run; simpl; (eapply same_graph_trans; [exact Hs1|repeat split]).
Qed.

Lemma is_excluded_loop_frame c excludes s :
  ends (is_excluded_loop c excludes s)
    (fun _ s' => same_graph s s') (same_graph s) (fun _ => False).
Proof.
  revert s. induction excludes as [|ex rest IH]; intros s; simpl.
  - apply same_graph_refl.
  - call_with (branch_contains_frame c ex s); [|auto|auto].
    intros b s1 Hs1. destruct b; [exact Hs1|].
    eapply ends_mono; [apply IH| |auto|auto]; cbv beta.
    + intros _ s2. now apply same_graph_trans.
    + intros s2. now apply same_graph_trans.
Qed.

Lemma is_excluded_frame c s :
  ends (is_excluded c s)
    (fun _ s' => same_graph s s') (same_graph s) (fun _ => False).
Proof.
  unfold is_excluded. destruct exclude_commits as [excludes|].
  - apply is_excluded_loop_frame.
  - apply same_graph_refl.
Qed.

(** With boundaries that resolve and a merge-base command that answers,
    [branch_contains] and [is_excluded] return. *)
Lemma branch_contains_returns c branch s :
  ref_commit branch <> None ->
  (forall a b, check_output_merge_base a b <> None) ->
  ends (branch_contains c branch s)
    (fun _ _ => True) (fun _ => False) (fun _ => False).
Proof.
  intros Hres Hmb. unfold branch_contains, get_commit.
  run; simpl in *; try exact I; try congruence.
  all: try (eapply Hmb; eassumption).
  all: try (rewrite get_set_eq in *; discriminate).
  all: match goal with
       | H : Dict.mem ?k ?m = true, H' : Dict.get ?k ?m = None |- _ =>
           unfold Dict.mem in H; rewrite H' in H; discriminate
       end.
Qed.

Lemma is_excluded_loop_returns c excludes s :
  (forall B, In B excludes -> ref_commit B <> None) ->
  (forall a b, check_output_merge_base a b <> None) ->
  ends (is_excluded_loop c excludes s)
    (fun _ _ => True) (fun _ => False) (fun _ => False).
Proof.
  intros Hres Hmb. revert s.
  induction excludes as [|ex rest IH]; intros s; simpl; [exact I|].
  call_with (branch_contains_returns c ex s); [now apply Hres; left|exact Hmb
                                              | |auto|auto].
  intros b s1 _. destruct b; [exact I|].
  apply IH. intros B HB. apply Hres. now right.
Qed.

Lemma excluded_iff c :
  excluded c = true <->
  exists excludes B bc,
    exclude_commits = Some excludes /\ In B excludes /\
    ref_commit B = Some bc /\
    merge_base (commit_id c) (commit_id bc) = Some (commit_id c).
Proof.
  unfold excluded. destruct exclude_commits as [excludes|]; split.
  - intros H. apply existsb_exists in H as [B [HB Hc]].
    unfold contained_in in Hc.
    destruct (ref_commit B) as [bc|] eqn:Hbc; [|discriminate].
    destruct (merge_base (commit_id c) (commit_id bc)) as [base|] eqn:Hbase;
      [|discriminate].
    apply String.eqb_eq in Hc. subst base. exists excludes, B, bc. auto.
  - intros (excludes' & B & bc & [= <-] & HB & Hbc & Hbase).
    apply existsb_exists. exists B. split; [exact HB|].
    unfold contained_in. rewrite Hbc, Hbase. apply String.eqb_refl.
  - discriminate.
  - intros (excludes' & B & bc & Hnone & _). discriminate.
Qed.

Lemma process_blame_hunk_excluded
    dependent d parent path bh line_to_culprit c s :
  state_ok (fun _ _ => True) s ->
  ref_commit (orig_commit_id bh) = Some c -> excluded c = true ->
  ends (process_blame_hunk dependent d parent path bh line_to_culprit s)
    (fun _ s' => same_graph s s') (fun _ => True) (fun _ => False).
Proof.
  intros Hok Hc Hex. destruct (balanced_exists s) as [k Hbal].
  unfold process_blame_hunk. cbv zeta.
  apply ends_bind.
  eapply ends_mono;
    [apply ends_conj;
       [exact (get_commit_keeps (fun _ _ => True) k (orig_commit_id bh) s
                 (conj Hok Hbal))
       |exact (get_commit_frame (orig_commit_id bh) s)]
    | |auto|intros ? [_ []]]; cbv beta.
  intros c' s1 [[Hc' Hgood1] Hframe1].
  assert (c' = c) by congruence. subst c'.
  apply ends_bind.
  eapply ends_mono;
    [apply ends_conj;
       [exact (is_excluded_keeps (fun _ _ => True) k c s1 Hgood1)
       |exact (is_excluded_frame c s1)]
    | |auto|intros ? [_ []]]; cbv beta.
  intros b s2 [[-> _] Hframe2]. rewrite Hex.
  apply ends_ret. now apply (same_graph_trans s s1 s2).
Qed.

(** C3.  [is_excluded] answers whether the candidate is an ancestor of,
    or is, one of the configured boundaries, which it tests by comparing
    their merge base with the candidate; without configured boundaries
    the answer is no.  A blame result that names an excluded commit
    leaves graph, worklist and notifications as they were, and a run
    never ends with an edge to an excluded commit in the graph. *)
Theorem is_excluded_by_ancestry c s :
  state_ok (fun _ _ => True) s ->
  ((forall excludes B, exclude_commits = Some excludes -> In B excludes ->
                       ref_commit B <> None) ->
   (forall a b, check_output_merge_base a b <> None) ->
   exists s', is_excluded c s = Ok (excluded c) s' /\ same_graph s s') /\
  (forall b s', is_excluded c s = Ok b s' -> b = excluded c) /\
  (excluded c = true <->
   exists excludes B bc,
     exclude_commits = Some excludes /\ In B excludes /\
     ref_commit B = Some bc /\
     merge_base (commit_id c) (commit_id bc) = Some (commit_id c)) /\
  (exclude_commits = None -> excluded c = false) /\
  (forall dependent d parent path bh line_to_culprit,
      ref_commit (orig_commit_id bh) = Some c -> excluded c = true ->
      ends (process_blame_hunk dependent d parent path bh line_to_culprit s)
        (fun _ s' => same_graph s s') (fun _ => True) (fun _ => False)) /\
  (edges_ok (fun _ e => forall c', ref_commit e = Some c' ->
                                   excluded c' = false) s ->
   forall fuel dependent_rev recurse_arg,
     edges_ok (fun _ e => forall c', ref_commit e = Some c' ->
                                     excluded c' = false)
       (final (find_dependencies fuel dependent_rev recurse_arg s))).
Proof.
  intros Hok. destruct (balanced_exists s) as [k Hbal].
  pose proof (is_excluded_keeps (fun _ _ => True) k c s (conj Hok Hbal))
    as Hkeeps.
  split; [|split; [|split; [|split; [|split]]]].
  - intros Hres Hmb.
    pose proof (is_excluded_frame c s) as Hframe.
    assert (Hret : ends (is_excluded c s)
                     (fun _ _ => True) (fun _ => False) (fun _ => False)).
    { unfold is_excluded.
      destruct exclude_commits as [excludes|] eqn:Hex; [|exact I].
      apply is_excluded_loop_returns; [|exact Hmb].
      intros B HB. now apply (Hres excludes). }
    unfold sat in Hkeeps.
    destruct (is_excluded c s) as [b s'|e s'|s']; simpl in *;
      [|contradiction|contradiction].
    destruct Hkeeps as [-> _]. eauto.
  - intros b s' Hrun. unfold sat in Hkeeps. rewrite Hrun in Hkeeps.
    apply Hkeeps.
  - apply excluded_iff.
  - unfold excluded. now intros ->.
  - intros dependent d parent path bh ltc Hc Hex.
    exact (process_blame_hunk_excluded dependent d parent path bh ltc c s
             Hok Hc Hex).
  - intros Hedges fuel dependent_rev recurse_arg.
    set (Pex := fun (_ e : string) =>
                  forall c', ref_commit e = Some c' -> excluded c' = false).
    assert (Hok' : state_ok Pex s).
    { destruct Hok as (? & ? & ? & ? & _).
      refine (conj _ (conj _ (conj _ (conj _ _)))); assumption. }
    assert (Hnew : forall dependent parent rest h path bhs bh c0,
               resolved dependent -> parents dependent = parent :: rest ->
               attribution h parent path = Some bhs -> In bh bhs ->
               ref_commit (orig_commit_id bh) = Some c0 ->
               excluded c0 = false ->
               Pex (commit_id dependent) (orig_commit_id bh)).
    { intros dependent parent rest h path bhs bh c0 _ _ _ _ Hc0 Hex c' Hc'.
      congruence. }
    pose proof (find_dependencies_keeps Pex Hnew
                  k fuel dependent_rev recurse_arg s (conj Hok' Hbal)) as Hrun.
    assert (Hfin : state_ok Pex
                     (final (find_dependencies fuel dependent_rev
                               recurse_arg s))).
    { apply sat_final. eapply ends_mono; [exact Hrun| |auto|auto].
      intros _ s' [Hs' _]. exact Hs'. }
    apply Hfin.
Qed.

End Exclusion.

(* ================================================================== *)
(** * The properties on the linear history *)

Lemma one_line_recorded_wf : graph_wf one_line_recorded.
Proof.
  unfold graph_wf.
  change (dependencies one_line_recorded)
    with (Dict.set "cccc"
            (Dict.set "bbbb"
               (Dict.set "src/f.txt" (Dict.set 1 "bbbb 1 1" []) []) [])
            (@nil (string * dict string dep_sources_t))).
  unfold graph_wf_on.
  repeat (apply dict_wf_set; [apply dict_wf_nil|]).
  apply lines_wf_set. constructor.
Qed.

Lemma record_dependency_source_once_witness :
  graph_wf one_line_recorded /\
  sources one_line_recorded "cccc" "bbbb"
  = Some [("src/f.txt", [(1, "bbbb 1 1")])] /\
  record_dependency_source Linear.cb Linear.cc "cccc"
    Linear.cb "bbbb" "src/f.txt" 1 "bbbb 1 1" one_line_recorded
  = Raise SystemExit one_line_recorded.
Proof.
  split; [exact one_line_recorded_wf|]. split; [reflexivity|].
  exact (proj1 (record_dependency_source_once
                  (repo := Linear.repo) (options := Linear.recursive)
                  Linear.cb Linear.cc "cccc" Linear.cb "bbbb" "src/f.txt" 1
                  "bbbb 1 1" one_line_recorded _
                  one_line_recorded_wf eq_refl)
           [(1, "bbbb 1 1")] eq_refl eq_refl).
Defined.

Lemma is_excluded_by_ancestry_witness :
  state_ok (repo := Linear.repo) (fun _ _ => True) init /\
  exists s',
    is_excluded (repo := Linear.repo) (options := Linear.excluding_a)
      Linear.ca init = Ok true s' /\ same_graph init s'.
Proof.
  split; [apply init_ok|].
  refine (proj1 (is_excluded_by_ancestry
                   (repo := Linear.repo) (options := Linear.excluding_a)
                   Linear.ca init (init_ok _)) _ _).
  - intros excludes B [= <-] [<-|[]]. discriminate.
  - intros a b. discriminate.
Defined.

Lemma linear_resolved c :
  resolved (repo := Linear.repo) c ->
  c = Linear.ca \/ c = Linear.cb \/ c = Linear.cc.
Proof.
  intros [rev Hrev]. simpl in Hrev.
  repeat match type of Hrev with
         | (if ?b then _ else _) = _ =>
             destruct b; [injection Hrev as <-; auto|]
         end.
  discriminate.
Qed.

Lemma linear_blame_in_history (options : Options) :
  forall dependent parent rest h path bhs bh,
    resolved (repo := Linear.repo) dependent ->
    parents dependent = parent :: rest ->
    attribution (repo := Linear.repo) h parent path = Some bhs ->
    In bh bhs ->
    In (orig_commit_id bh) (history parent).
Proof.
  intros dependent parent rest h path bhs bh Hres Hpar Hattr Hin.
  assert (Hblame : Linear.blame path (commit_id parent) (old_start h)
                   = Some bhs).
  { unfold attribution in Hattr. simpl in Hattr.
    now destruct pygit2_blame. }
  apply linear_resolved in Hres as [-> | [-> | ->]]; simpl in Hpar;
    [discriminate| |]; injection Hpar as <- <-;
    unfold Linear.blame in Hblame; simpl in Hblame;
    destruct (negb (path =? "src/f.txt")%string); try discriminate;
    injection Hblame as <-; destruct Hin as [<-|[]]; simpl; auto.
Qed.

Lemma linear_history_acyclic :
  forall dependent parent rest,
    resolved (repo := Linear.repo) dependent ->
    parents dependent = parent :: rest ->
    ~ In (commit_id dependent) (history parent).
Proof.
  intros dependent parent rest Hres Hpar.
  apply linear_resolved in Hres as [-> | [-> | ->]]; simpl in Hpar;
    [discriminate| |]; injection Hpar as <- <-; simpl;
    intuition discriminate.
Qed.

Lemma no_self_dependency_witness :
  state_ok (repo := Linear.repo) (fun d e => d <> e) init /\
  no_self_edges
    (final (find_dependencies (repo := Linear.repo)
              (options := Linear.recursive) 3 "HEAD" None init)).
Proof.
  split; [apply init_ok|].
  exact (no_self_dependency (repo := Linear.repo)
           (options := Linear.recursive)
           (linear_blame_in_history Linear.recursive)
           linear_history_acyclic 3 "HEAD" None init (init_ok _)).
Defined.

(* ================================================================== *)
(** * The worklist *)

Lemma filter_length_mono {X} (f g : X -> bool) l :
  (forall x, In x l -> f x = true -> g x = true) ->
  (length (filter f l) <= length (filter g l))%nat.
Proof.
  induction l as [|x l IH]; intros Hfg; simpl; [lia|].
  assert (IH' := IH (fun y Hy => Hfg y (or_intror Hy))).
  destruct (f x) eqn:Hf.
  - rewrite (Hfg x (or_introl eq_refl) Hf). simpl. lia.
  - destruct (g x); simpl; lia.
Qed.

Lemma filter_length_lt {X} (f g : X -> bool) l a :
  (forall x, In x l -> f x = true -> g x = true) ->
  In a l -> f a = false -> g a = true ->
  (length (filter f l) < length (filter g l))%nat.
Proof.
  induction l as [|x l IH]; intros Hfg Hin Hfa Hga; simpl; [destruct Hin|].
  assert (Hfg' : forall y, In y l -> f y = true -> g y = true)
    by (intros y Hy; apply Hfg; now right).
  pose proof (filter_length_mono f g l Hfg') as Hle.
  destruct Hin as [->|Hin].
  - rewrite Hfa, Hga. simpl. lia.
  - specialize (IH Hfg' Hin Hfa Hga).
    destruct (f x) eqn:Hf.
    + rewrite (Hfg x (or_introl eq_refl) Hf). simpl. lia.
    + destruct (g x); simpl; lia.
Qed.

Lemma keys_del_iff {V} k x (d : dict string V) :
  NoDup (Dict.keys d) ->
  In x (Dict.keys (Dict.del k d)) <-> In x (Dict.keys d) /\ x <> k.
Proof.
  intros Hnd. split.
  - intros Hin. split; [now apply keys_del_incl in Hin|].
    intros ->. now apply (keys_del_notin k d Hnd).
  - intros [Hin Hne]. apply mem_keys. rewrite mem_del_ne by exact Hne.
    now apply mem_keys.
Qed.

Lemma NoDup_snoc {X} (l : list X) x : NoDup l -> ~ In x l -> NoDup (l ++ [x]).
Proof.
  intros Hnd Hx. apply NoDup_app; [exact Hnd|repeat constructor; tauto|].
  intros y Hy [<-|[]]. contradiction.
Qed.

Section WorklistFacts.
Variable all_ids : list string.

Lemma worklist_on_deps cur td tdd dn dnd (deps deps' : dependencies_t) :
  worklist_on cur td tdd dn dnd deps ->
  (forall x, In x (Dict.keys deps') ->
             In x (Dict.keys deps) \/ cur = Some x) ->
  worklist_on cur td tdd dn dnd deps'.
Proof.
  unfold worklist_on. intros (H1 & H2 & H3 & H4 & H5 & H6 & H7 & H8) Hsub.
  repeat (split; [assumption|]). split; [|assumption].
  intros x Hx. destruct (Hsub x Hx) as [Hx'|Hx']; auto.
Qed.

Lemma worklist_on_enqueue cur td tdd dn dnd deps c :
  worklist_on cur td tdd dn dnd deps ->
  Dict.mem (commit_id c) tdd = false ->
  Dict.mem (commit_id c) dnd = false ->
  cur <> Some (commit_id c) ->
  worklist_on cur (td ++ [c]) (Dict.set (commit_id c) true tdd) dn dnd deps.
Proof.
  unfold worklist_on. intros (H1 & H2 & H3 & H4 & H5 & H6 & H7 & H8) Ht Hd Hc.
  apply not_mem_keys in Ht. apply not_mem_keys in Hd.
  assert (Hkeys : Dict.keys (Dict.set (commit_id c) true tdd)
                  = Dict.keys tdd ++ [commit_id c]).
  { rewrite keys_set. now rewrite (proj2 (not_mem_keys _ _) Ht). }
  unfold ids in *. rewrite map_app, Hkeys. simpl.
  refine (conj _ (conj _ (conj _ (conj H4 (conj H5 (conj _ (conj H7 _))))))).
  - apply NoDup_snoc; [exact H1|]. now rewrite <- H3.
  - now apply NoDup_snoc.
  - intros x. rewrite !in_app_iff, H3. tauto.
  - intros x Hx. apply in_app_iff in Hx as [Hx|[<-|[]]]; [now apply H6|].
    now rewrite <- H5.
  - intros x Hx. destruct (H8 x Hx) as [Ha Hb]. split; [|exact Hb].
    rewrite in_app_iff. intros [Hin|[<-|[]]]; [contradiction|].
    now apply Hc.
Qed.

Lemma measure_on_enqueue cur td tdd dnd c :
  In (commit_id c) all_ids ->
  Dict.mem (commit_id c) tdd = false ->
  Dict.mem (commit_id c) dnd = false ->
  is_cur cur (commit_id c) = false ->
  (measure_on all_ids cur (td ++ [c]) (Dict.set (commit_id c) true tdd) dnd
   <= measure_on all_ids cur td tdd dnd)%nat.
Proof.
  intros Hin Ht Hd Hc. unfold measure_on, unseen_on.
  rewrite length_app. cbn [length].
  match goal with
  | |- (2 * length (filter ?f _) + _ <= 2 * length (filter ?g _) + _)%nat =>
      assert (Hlt : (length (filter f all_ids)
                     < length (filter g all_ids))%nat)
  end; [|lia].
  apply (filter_length_lt _ _ _ (commit_id c)); [|exact Hin| |].
  - intros x _. rewrite mem_set.
    destruct (py_eqb (commit_id c) x); simpl;
      [rewrite andb_false_r; discriminate|auto].
  - now rewrite mem_set_eq, andb_false_r.
  - now rewrite Ht, Hd, Hc.
Qed.

Lemma worklist_on_pop c rest tdd dn dnd deps :
  worklist_on None (c :: rest) tdd dn dnd deps ->
  Dict.mem (commit_id c) tdd = true /\
  Dict.mem (commit_id c) dnd = false /\
  Dict.mem (commit_id c) deps = false /\
  worklist_on (Some (commit_id c)) rest
    (Dict.del (commit_id c) tdd) dn dnd deps.
Proof.
  unfold worklist_on. simpl.
  intros (H1 & H2 & H3 & H4 & H5 & H6 & H7 & H8).
  inversion H1 as [|? ? Hnotin Hnd]; subst.
  assert (Hnotdone : ~ In (commit_id c) dn) by (apply H6; now left).
  split; [apply mem_keys, H3; now left|].
  split; [apply not_mem_keys; now rewrite H5|].
  split.
  { apply not_mem_keys. intros Hin.
    destruct (H7 _ Hin) as [?|?]; [contradiction|discriminate]. }
  refine (conj Hnd (conj _ (conj _ (conj H4 (conj H5 (conj _ (conj _ _))))))).
  - now apply NoDup_keys_del.
  - intros x. rewrite keys_del_iff by exact H2. rewrite H3. split.
    + intros [[<-|Hin] Hne]; [congruence|exact Hin].
    + intros Hin. split; [now right|]. intros ->. contradiction.
  - intros x Hx. apply H6. now right.
  - intros x Hx. destruct (H7 x Hx); [now left|discriminate].
  - intros x [= <-]. split; assumption.
Qed.

Lemma measure_on_pop c rest tdd dnd :
  (S (measure_on all_ids (Some (commit_id c)) rest
        (Dict.del (commit_id c) tdd) dnd)
   <= measure_on all_ids None (c :: rest) tdd dnd)%nat.
Proof.
  unfold measure_on, unseen_on. cbn [length].
  match goal with
  | |- (S (2 * length (filter ?f _) + _) <= 2 * length (filter ?g _) + _)%nat =>
      assert (Hle : (length (filter f all_ids)
                     <= length (filter g all_ids))%nat)
  end; [|lia].
  apply filter_length_mono. intros x _. simpl.
  destruct (String.eqb_spec (commit_id c) x) as [<-|Hne]; simpl;
    [rewrite andb_false_r; discriminate|].
  rewrite mem_del_ne by congruence. now rewrite !andb_true_r.
Qed.

Lemma worklist_on_finish x td tdd dn dnd deps :
  worklist_on (Some x) td tdd dn dnd deps ->
  worklist_on None td tdd (dn ++ [x]) (Dict.set x true dnd) deps.
Proof.
  unfold worklist_on. intros (H1 & H2 & H3 & H4 & H5 & H6 & H7 & H8).
  destruct (H8 x eq_refl) as [Hxt Hxd].
  assert (Hkeys : Dict.keys (Dict.set x true dnd) = Dict.keys dnd ++ [x]).
  { rewrite keys_set.
    rewrite (proj2 (not_mem_keys x dnd)); [reflexivity|now rewrite H5]. }
  rewrite Hkeys.
  refine (conj H1 (conj H2 (conj H3 (conj _ (conj _ (conj _ (conj _ _))))))).
  - now apply NoDup_snoc.
  - intros y. rewrite !in_app_iff, H5. tauto.
  - intros y Hy. rewrite in_app_iff. intros [Hd|[<-|[]]];
      [now apply (H6 y)|contradiction].
  - intros y Hy. left. rewrite in_app_iff.
    destruct (H7 y Hy) as [?|[= ->]]; [now left|right; now left].
  - intros y. discriminate.
Qed.

Lemma measure_on_finish x td tdd dnd :
  (measure_on all_ids None td tdd (Dict.set x true dnd)
   <= measure_on all_ids (Some x) td tdd dnd)%nat.
Proof.
  unfold measure_on, unseen_on.
  match goal with
  | |- (2 * length (filter ?f _) + _ <= 2 * length (filter ?g _) + _)%nat =>
      assert (Hle : (length (filter f all_ids)
                     <= length (filter g all_ids))%nat)
  end; [|lia].
  apply filter_length_mono. intros y _. simpl. rewrite mem_set.
  unfold py_eqb, PyEq_string.
  destruct (String.eqb x y); simpl; [discriminate|].
  now rewrite !andb_true_r.
Qed.

End WorklistFacts.

Lemma keys_set_in {V} (k x : string) (v : V) d :
  In x (Dict.keys (Dict.set k v d)) -> In x (Dict.keys d) \/ x = k.
Proof.
  rewrite keys_set. destruct (Dict.mem k d); [auto|].
  rewrite in_app_iff. intros [?|[<-|[]]]; auto.
Qed.

Lemma worklist_on_set_cur d td tdd dn dnd (deps : dependencies_t) v :
  worklist_on (Some d) td tdd dn dnd deps ->
  worklist_on (Some d) td tdd dn dnd (Dict.set d v deps).
Proof.
  intros Hwl. apply (worklist_on_deps _ _ _ _ _ _ _ Hwl).
  intros x Hx. apply keys_set_in in Hx as [Hx| ->]; auto.
Qed.

Lemma discovery_on_enqueue cur td dn c :
  discovery_on cur (td ++ [c]) dn = discovery_on cur td dn ++ [commit_id c].
Proof.
  unfold discovery_on, ids. rewrite map_app. simpl. now rewrite !app_assoc.
Qed.

Ltac open_tr :=
  repeat match goal with
         | H : traversal _ _ _ _ _ _ |- _ =>
             destruct H as (? & ? & ? & [? ?] & ?)
         end;
  unfold cache_ok, worklist_ok, measure, discovery in *;
  simpl in *.

Ltac split_tr :=
  lazymatch goal with
  | |- traversal _ _ _ _ _ _ =>
      unfold traversal, cache_ok, worklist_ok, measure, discovery;
      simpl; refine (conj _ (conj _ (conj _ (conj _ _))));
      try assumption; try (eexists; eassumption)
  end.

Section Worklist.
Context {repo : Repo} {options : Options}.
Variable all_ids : list string.

(** Finitely many commits: attribution names commits of [all_ids] only,
    and a commit id of [all_ids] resolves to the commit that bears it. *)
Hypothesis blame_in_all_ids :
  forall h parent path bhs bh,
    attribution h parent path = Some bhs -> In bh bhs ->
    In (orig_commit_id bh) all_ids.
Hypothesis id_resolves_to_itself :
  forall sha1 c,
    In sha1 all_ids -> ref_commit sha1 = Some c -> commit_id c = sha1.

Lemma get_commit_cache rev s :
  cache_ok s ->
  ends (get_commit rev s)
    (fun c s' => ref_commit rev = Some c /\ cache_ok s' /\ same_graph s s')
    (same_graph s) (fun _ => False).
Proof.
  intros Hcache. unfold get_commit. run; try (repeat split; fail).
  - split; [now apply (cache_get s)|]. split; [exact Hcache|repeat split].
  - split; [reflexivity|]. split; [now apply cache_set|repeat split].
Qed.

Lemma branch_contains_cache_kept c branch s :
  cache_ok s ->
  ends (branch_contains c branch s)
    (fun _ s' => cache_ok s' /\ same_graph s s')
    (same_graph s) (fun _ => False).
Proof.
  intros Hcache. unfold branch_contains.
  call_with (get_commit_cache branch s Hcache); [|auto|auto].
  intros bc s1 (_ & Hcache1 & Hs1).
  run; simpl;
    try (split; [exact Hcache1|]);
    (eapply same_graph_trans; [exact Hs1|repeat split]).
Qed.

Lemma is_excluded_loop_cache c excludes s :
  cache_ok s ->
  ends (is_excluded_loop c excludes s)
    (fun _ s' => cache_ok s' /\ same_graph s s')
    (same_graph s) (fun _ => False).
Proof.
  revert s. induction excludes as [|ex rest IH]; intros s Hcache; simpl.
  - split; [exact Hcache|apply same_graph_refl].
  - call_with (branch_contains_cache_kept c ex s Hcache); [|auto|auto].
    intros b s1 [Hcache1 Hs1]. destruct b; [split; assumption|].
    eapply ends_mono; [apply (IH s1 Hcache1)| |auto|auto]; cbv beta.
    + intros _ s2 [? ?]. split; [assumption|].
      now apply (same_graph_trans s s1 s2).
    + intros s2. now apply same_graph_trans.
Qed.

Lemma is_excluded_cache c s :
  cache_ok s ->
  ends (is_excluded c s)
    (fun _ s' => cache_ok s' /\ same_graph s s')
    (same_graph s) (fun _ => False).
Proof.
  intros Hcache. unfold is_excluded. destruct exclude_commits as [excludes|].
  - now apply is_excluded_loop_cache.
  - split; [exact Hcache|apply same_graph_refl].
Qed.

Lemma worklist_ok_same_graph cur s s' :
  same_graph s s' -> worklist_ok cur s -> worklist_ok cur s'.
Proof.
  unfold same_graph, worklist_ok.
  intros (-> & -> & -> & -> & -> & _). auto.
Qed.

Lemma traversal_same_graph cur n order a s s' :
  same_graph s s' -> cache_ok s' ->
  traversal all_ids cur n order a s -> traversal all_ids cur n order a s'.
Proof.
  unfold same_graph, traversal, worklist_ok, measure, discovery.
  intros (-> & -> & -> & -> & -> & ->) Hcache (_ & ? & ? & ? & ?). auto.
Qed.

Lemma register_new_dependent_tr dependent d n order a s :
  traversal all_ids (Some d) n order a s ->
  ends (register_new_dependent dependent d s)
    (fun _ s' => traversal all_ids (Some d) n order a s' /\
                 Dict.mem d (dependencies s') = true)
    (worklist_ok (Some d)) (fun _ => False).
Proof.
  intros Htr. unfold register_new_dependent. run.
  - split; assumption.
  - simpl. split; [|apply mem_set_eq].
    open_tr. split_tr.
    + now apply worklist_on_set_cur.
    + now rewrite count_snoc, Nat.add_0_r.
Qed.

Lemma process_new_dependency_tr
    dependent d dependency path line_num n order a s :
  traversal all_ids (Some d) n order a s ->
  Dict.mem d (dependencies s) = true ->
  In (commit_id dependency) all_ids ->
  ends (process_new_dependency dependent d dependency (commit_id dependency)
          path line_num s)
    (fun _ s' => traversal all_ids (Some d) n order a s' /\
                 Dict.mem d (dependencies s') = true)
    (worklist_ok (Some d)) (fun _ => False).
Proof.
  intros Htr Hd Hin. unfold process_new_dependency, seen_commit.
  run; simpl in *.
  all: try (open_tr; now apply worklist_on_set_cur).
  all: try (open_tr; assumption).
  all: split; [|rewrite ?mem_set_eq; assumption || reflexivity].
  all: open_tr; split_tr.
  all: try (rewrite !count_snoc; simpl; rewrite ?Nat.add_0_r; assumption).
  all: try (now apply worklist_on_set_cur).
  all: try (rewrite discovery_on_enqueue;
            match goal with
            | H : discovery_on _ _ _ = _ |- _ => rewrite H
            end; rewrite <- app_assoc; eexists; reflexivity).
  all: try (apply worklist_on_enqueue;
            [ assumption || now apply worklist_on_set_cur
            | assumption | assumption
            | intros [= ->]; rewrite ?mem_set_eq in *; congruence ]).
  all: eapply Nat.le_trans; [apply measure_on_enqueue|eassumption];
    try assumption; simpl;
    destruct (String.eqb_spec d (commit_id dependency)) as [->|Hne];
    [rewrite ?mem_set_eq in *; congruence|reflexivity].
Qed.

Lemma record_dependency_source_tr
    parent dependent d dependency e path line_num line n order a s :
  traversal all_ids (Some d) n order a s ->
  Dict.mem d (dependencies s) = true ->
  ends (record_dependency_source parent dependent d dependency e path
          line_num line s)
    (fun _ s' => traversal all_ids (Some d) n order a s' /\
                 Dict.mem d (dependencies s') = true)
    (worklist_ok (Some d)) (fun _ => False).
Proof.
  intros Htr Hd. unfold record_dependency_source.
  run; simpl in *.
  all: try (open_tr; assumption || now apply worklist_on_set_cur).
  all: split; [|rewrite ?mem_set_eq; assumption || reflexivity].
  all: open_tr; split_tr.
  all: try (rewrite !count_snoc; simpl; rewrite ?Nat.add_0_r; assumption).
  all: now apply worklist_on_set_cur.
Qed.

Lemma process_blame_hunk_tr
    dependent parent path bh line_to_culprit n order a s :
  traversal all_ids (Some (commit_id dependent)) n order a s ->
  Dict.mem (commit_id dependent) (dependencies s) = true ->
  In (orig_commit_id bh) all_ids ->
  ends (process_blame_hunk dependent (commit_id dependent) parent path bh
          line_to_culprit s)
    (fun _ s' => traversal all_ids (Some (commit_id dependent)) n order a s' /\
                 Dict.mem (commit_id dependent) (dependencies s') = true)
    (worklist_ok (Some (commit_id dependent))) (fun _ => False).
Proof.
  intros Htr Hd Hin. unfold process_blame_hunk. cbv zeta.
  assert (Hwl : worklist_ok (Some (commit_id dependent)) s) by apply Htr.
  call_with (get_commit_cache (orig_commit_id bh) s);
    [apply Htr| |intros s1 Hs1; now apply (worklist_ok_same_graph _ s)|auto].
  intros c s1 (Hc & Hcache1 & Hs1).
  assert (Hid : commit_id c = orig_commit_id bh)
    by now apply id_resolves_to_itself.
  assert (Htr1 : traversal all_ids (Some (commit_id dependent)) n order a s1)
    by now apply (traversal_same_graph _ _ _ _ s).
  assert (Hd1 : Dict.mem (commit_id dependent) (dependencies s1) = true)
    by (destruct Hs1 as (-> & _); exact Hd).
  call_with (is_excluded_cache c s1 Hcache1);
    [|intros s2 Hs2; apply (worklist_ok_same_graph _ s1 s2 Hs2), Htr1|auto].
  intros b s2 (Hcache2 & Hs2).
  assert (Htr2 : traversal all_ids (Some (commit_id dependent)) n order a s2)
    by now apply (traversal_same_graph _ _ _ _ s1).
  assert (Hd2 : Dict.mem (commit_id dependent) (dependencies s2) = true)
    by (destruct Hs2 as (-> & _); exact Hd1).
  destruct b; [run; split; assumption|].
  apply ends_bind, ends_gets. apply ends_bind. unfold getitem.
  destruct (Dict.get (commit_id dependent) (dependencies s2)) as [by_d|];
    [apply ends_ret|apply ends_raise; apply Htr2].
  apply ends_bind.
  eapply ends_mono with
    (Q := fun _ s' =>
            traversal all_ids (Some (commit_id dependent)) n order a s' /\
            Dict.mem (commit_id dependent) (dependencies s') = true)
    (E := worklist_ok (Some (commit_id dependent))) (T := fun _ => False);
    [| |auto|auto].
  - destruct (Dict.mem (orig_commit_id bh) by_d).
    + apply ends_ret. split; assumption.
    + rewrite <- Hid in Hin |- *.
      now apply process_new_dependency_tr.
  - intros _ s3 [Htr3 Hd3]. cbv beta.
    call_with (record_dependency_source_tr parent dependent
                 (commit_id dependent) c (orig_commit_id bh) path
                 (final_start_line_number bh));
      [exact Htr3|exact Hd3| |auto|auto].
    intros _ s4 H4. run. exact H4.
Qed.

Lemma blame_diff_hunk_tr dependent parent path h n order a s :
  traversal all_ids (Some (commit_id dependent)) n order a s ->
  ends (blame_diff_hunk dependent parent path h s)
    (fun _ s' => traversal all_ids (Some (commit_id dependent)) n order a s')
    (worklist_ok (Some (commit_id dependent))) (fun _ => False).
Proof.
  intros Htr. unfold blame_diff_hunk.
  call_with (tree_lookup_loop_pure (split "/" path) (Tree (tree parent)) s);
    [|intros ? ->; apply Htr|auto].
  intros found s1 ->.
  destruct (negb (truthy found)); [run; exact Htr|].
  call_with (run_blame_spec h parent path s);
    [|intros ? ->; apply Htr|auto].
  intros bhs s1 [Hattr ->].
  call_with (register_new_dependent_tr dependent (commit_id dependent)
               n order a);
    [open_tr; split_tr| |auto|auto].
  intros _ s2 H2.
  apply ends_bind.
  eapply ends_mono;
    [apply (ends_for_fold
              (fun _ s' =>
                 traversal all_ids (Some (commit_id dependent)) n order a s' /\
                 Dict.mem (commit_id dependent) (dependencies s') = true)
              (worklist_ok (Some (commit_id dependent))) (fun _ => False))
    | | |]; cbv beta; [|exact H2| |auto|auto].
  - intros bh ltc s3 Hin [Htr3 Hd3].
    apply process_blame_hunk_tr; [assumption|assumption|].
    eapply blame_in_all_ids; eassumption.
  - intros ltc s3 [Htr3 _].
    eapply ends_mono; [apply debug_hunk_loop_pure| | |]; cbv beta;
      [intros ? ? ->; exact Htr3|intros ? ->; apply Htr3|auto].
Qed.

Lemma find_dependencies_with_parent_tr dependent parent n order a s :
  traversal all_ids (Some (commit_id dependent)) n order a s ->
  ends (find_dependencies_with_parent dependent parent s)
    (fun _ s' => traversal all_ids (Some (commit_id dependent)) n order a s')
    (worklist_ok (Some (commit_id dependent))) (fun _ => False).
Proof.
  intros Htr. unfold find_dependencies_with_parent.
  apply ends_bind, ends_log_call. cbv zeta.
  apply (ends_for_each
           (traversal all_ids (Some (commit_id dependent)) n order a));
    [|open_tr; split_tr].
  intros p s1 _ Htr1.
  apply (ends_for_each
           (traversal all_ids (Some (commit_id dependent)) n order a));
    [|exact Htr1].
  intros h s2 _ Htr2. now apply blame_diff_hunk_tr.
Qed.

Lemma process_todo_tr dependent rest n order a s :
  traversal all_ids None n order a s -> todo s = dependent :: rest ->
  ends (process_todo dependent rest s)
    (fun _ s' => traversal all_ids None (n - 1) order a s' /\ (1 <= n)%nat)
    (fun s' => exists cur, worklist_ok cur s') (fun _ => False).
Proof.
  intros (Hcache & Hwl & Hmeasure & [suffix Horder] & Hcount) Htodo.
  unfold worklist_ok, measure, discovery in *. rewrite Htodo in *.
  destruct (worklist_on_pop _ _ _ _ _ _ Hwl) as (Hq & Hnd & Hndep & Hwl1).
  pose proof (measure_on_pop all_ids dependent rest (todo_d s) (done_d s))
    as Hpop.
  unfold process_todo.
  apply ends_bind, ends_modify. apply ends_bind, ends_gets. simpl.
  rewrite Hq. apply ends_bind, ends_modify.
  apply ends_bind, ends_gets. simpl. rewrite Hnd.
  apply ends_bind, ends_notify. apply ends_bind.
  eapply ends_mono with
    (Q := fun _ s' =>
            traversal all_ids (Some (commit_id dependent)) (n - 1) order a s')
    (E := worklist_ok (Some (commit_id dependent))) (T := fun _ => False);
    [| |intros s' Hs'; now exists (Some (commit_id dependent))|auto].
  - match goal with
    | |- ends (_ ?s1) _ _ _ =>
        assert (Htr1 : traversal all_ids (Some (commit_id dependent))
                         (n - 1) order a s1)
    end.
    { split_tr.
      - lia.
      - rewrite count_snoc. simpl. now rewrite Nat.add_0_r. }
    destruct (parents dependent) as [|parent others].
    + apply ends_ret. exact Htr1.
    + now apply find_dependencies_with_parent_tr.
  - intros _ s2 Htr2. run. split; [|lia].
    destruct Htr2 as (Hcache2 & Hwl2 & Hmeasure2 & [suffix2 Horder2] & Hcount2).
    unfold worklist_ok, measure, discovery in *.
    split_tr.
    + now apply worklist_on_finish.
    + eapply Nat.le_trans; [apply measure_on_finish|exact Hmeasure2].
    + exists suffix2. rewrite <- Horder2. unfold discovery_on. simpl.
      now rewrite <- app_assoc.
    + now rewrite count_snoc, Nat.add_0_r.
Qed.

Lemma todo_loop_tr order a fuel :
  forall n s,
    traversal all_ids None n order a s ->
    ends (todo_loop fuel s)
      (fun _ s' => (exists n', traversal all_ids None n' order a s') /\
                   todo s' = [])
      (fun s' => exists cur, worklist_ok cur s')
      (fun s' => (exists n', traversal all_ids None n' order a s') /\
                 (fuel <= n)%nat).
Proof.
  induction fuel as [|fuel IH]; intros n s Htr; simpl;
    destruct (todo s) as [|dependent rest] eqn:Htodo.
  - split; [now exists n|exact Htodo].
  - split; [now exists n|lia].
  - split; [now exists n|exact Htodo].
  - call_with (process_todo_tr dependent rest n order a s Htr Htodo);
      [|auto|intros ? []].
    intros _ s1 [Htr1 Hn].
    eapply ends_mono; [apply (IH (n - 1)%nat s1 Htr1)|auto|auto|].
    cbv beta. intros s2 [Hwl2 Hfuel]. split; [exact Hwl2|lia].
Qed.

Lemma find_dependencies_tr fuel dependent_rev recurse_arg s :
  cache_ok s -> worklist_ok None s -> todo s = [] ->
  (forall c, ref_commit dependent_rev = Some c ->
             ~ In (commit_id c) (done s)) ->
  ends (find_dependencies fuel dependent_rev recurse_arg s)
    (fun _ s' =>
       worklist_ok None s' /\ todo s' = [] /\
       (exists processed, done s' = done s ++ processed) /\
       count is_all_done (notified s')
       = S (count is_all_done (notified s)))
    (fun s' => exists cur, worklist_ok cur s')
    (fun s' => worklist_ok None s' /\ (fuel <= 2 * length all_ids + 1)%nat).
Proof.
  intros Hcache Hwl Htodo Hseed. unfold find_dependencies. cbv zeta.
  apply ends_bind.
  pose proof (get_commit_cache dependent_rev s Hcache) as Hget.
  unfold try_except_InvalidCommitish.
  destruct (get_commit dependent_rev s) as [dependent s1|e s1|s1];
    simpl in Hget |- *; [| |contradiction].
  2:{ assert (Hwl1 : worklist_ok None s1)
        by now apply (worklist_ok_same_graph _ s).
      destruct e; simpl; now exists None. }
  destruct Hget as (Hres & Hcache1 & Hs1).
  assert (Hwl1 : worklist_ok None s1) by now apply (worklist_ok_same_graph _ s).
  assert (Htodo1 : todo s1 = []) by (destruct Hs1 as (_ & -> & _); exact Htodo).
  assert (Hdone1 : done s1 = done s) by apply Hs1.
  assert (Hnot1 : notified s1 = notified s) by apply Hs1.
  run.
  call_with (todo_loop_tr (done s ++ [commit_id dependent])
               (count is_all_done (notified s)) fuel
               (2 * length all_ids + 1)%nat);
    [| |auto|intros s2 [[n' Htr2] Hfuel]; split; [apply Htr2|exact Hfuel]].
  - unfold worklist_ok in Hwl1. rewrite Htodo1 in *.
    assert (Hq : Dict.mem (commit_id dependent) (todo_d s1) = false).
    { apply not_mem_keys. intros Hin.
      now apply (proj1 (proj1 (proj2 (proj2 Hwl1)) _)) in Hin. }
    assert (Hnd : Dict.mem (commit_id dependent) (done_d s1) = false).
    { apply not_mem_keys. intros Hin.
      apply (proj1 (proj2 (proj2 (proj2 (proj2 Hwl1))))) in Hin.
      rewrite Hdone1 in Hin. now apply (Hseed dependent). }
    split_tr.
    + apply (worklist_on_enqueue None []);
        [exact Hwl1|exact Hq|exact Hnd|discriminate].
    + unfold measure_on, unseen_on. simpl length.
      match goal with
      | |- (2 * length (filter ?f _) + _ <= _)%nat =>
          pose proof (List.filter_length_le f all_ids)
      end. lia.
    + exists []. rewrite Hdone1. unfold discovery_on. simpl.
      now rewrite app_nil_r.
    + now rewrite Hnot1.
  - intros _ s2 [[n' Htr2] Htodo2]. run.
    destruct Htr2 as (_ & Hwl2 & _ & [suffix Horder] & Hcount).
    unfold worklist_ok, discovery, discovery_on in *. simpl.
    rewrite Htodo2 in Horder. simpl in Horder. rewrite app_nil_r in Horder.
    split; [exact Hwl2|]. split; [exact Htodo2|]. split.
    + exists (commit_id dependent :: suffix). rewrite Horder.
      now rewrite <- app_assoc.
    + rewrite count_snoc, Hcount. simpl. lia.
Qed.

(** Commits are finished in the order in which they entered the
    worklist: what the done list gains in a run starts with the commits
    that were queued, in queue order. *)
Lemma processed_in_discovery_order fuel n a s :
  traversal all_ids None n (done s ++ ids (todo s)) a s ->
  ends (todo_loop fuel s)
    (fun _ s' => exists later, done s' = done s ++ ids (todo s) ++ later)
    (fun _ => True)
    (fun s' => exists later,
                 done s' ++ ids (todo s') = done s ++ ids (todo s) ++ later).
Proof.
  intros Htr.
  eapply ends_mono; [exact (todo_loop_tr _ a fuel n s Htr)| |auto|];
    cbv beta.
  - intros _ s' [[n' (_ & _ & _ & [later Horder] & _)] Htodo].
    exists later. unfold discovery, discovery_on in Horder.
    rewrite Htodo in Horder. simpl in Horder.
    now rewrite app_nil_r, <- app_assoc in Horder.
  - intros s' [[n' (_ & _ & _ & [later Horder] & _)] _].
    exists later. unfold discovery, discovery_on in Horder. simpl in Horder.
    now rewrite <- app_assoc in Horder.
Qed.

(** ** A run that returns

    When the repository answers what the detector asks, no step of a
    run raises: the commits resolve, the trees are in the object store,
    blame succeeds and never attributes the same line of a file twice
    over the diff of one commit, and it covers the lines the diff
    shows. *)

Section Returns.
Hypothesis repo_answers : answers all_ids.

Lemma get_commit_returns rev s :
  cache_ok s -> ref_commit rev <> None ->
  ends (get_commit rev s)
    (fun c s' => ref_commit rev = Some c /\ cache_ok s' /\ same_graph s s')
    (fun _ => False) (fun _ => False).
Proof.
  intros Hcache Hres. unfold get_commit. run; try congruence.
  - split; [now apply (cache_get s)|]. split; [exact Hcache|repeat split].
  - split; [reflexivity|]. split; [now apply cache_set|repeat split].
Qed.

Lemma is_excluded_returns c s :
  ends (is_excluded c s) (fun _ _ => True) (fun _ => False) (fun _ => False).
Proof.
  unfold is_excluded. destruct exclude_commits as [excludes|] eqn:Hex.
  - apply is_excluded_loop_returns.
    + intros B HB.
      exact (boundaries_resolve all_ids repo_answers excludes B Hex HB).
    + exact (merge_base_answers all_ids repo_answers).
  - exact I.
Qed.

Lemma tree_lookup_loop_returns segments obj s :
  match obj with
  | Tree entries => entries_stored entries
  | Blob _ => True
  end ->
  exists found, tree_lookup_loop segments obj s = Ok found s.
Proof.
  revert obj. induction segments as [|dirent rest IH]; intros obj Hobj; simpl.
  - eexists; reflexivity.
  - destruct obj as [data|entries]; [eexists; reflexivity|].
    destruct (Dict.get dirent entries) as [oid|] eqn:Hget;
      [|eexists; reflexivity].
    destruct (repo_getitem oid) as [obj|] eqn:Hoid;
      [|now destruct (Hobj dirent oid Hget)].
    apply IH. destruct obj as [data|entries']; [exact I|].
    exact (trees_stored all_ids repo_answers oid entries' Hoid).
Qed.

Lemma debug_hunk_loop_ok ls n line_to_culprit s :
  debug_hunk_ok ls n line_to_culprit = true ->
  debug_hunk_loop ls n line_to_culprit s = Ok tt s.
Proof.
  revert n. induction ls as [|line ls IH]; intros n;
    cbn [debug_hunk_loop debug_hunk_ok]; [reflexivity|].
  destruct (String.eqb _ (rstrip (content line))); [reflexivity|].
  destruct (Ascii.eqb (origin line) "+"); [apply IH|].
  intros Hok. apply andb_true_iff in Hok as [Hmem Hok].
  apply mem_true_get in Hmem as [culprit Hget].
  unfold bind, getitem. rewrite Hget. now apply IH.
Qed.

Lemma recorded_within_incl d seen seen' s :
  incl seen seen' -> recorded_within d seen s -> recorded_within d seen' s.
Proof. intros Hincl Hrec e p ls n Hev Hin. apply Hincl. eauto. Qed.

Lemma recorded_within_same_deps d seen s s' :
  dependencies s' = dependencies s ->
  recorded_within d seen s -> recorded_within d seen s'.
Proof.
  unfold recorded_within, evidence, sources. intros ->. auto.
Qed.

Lemma recorded_within_fresh d seen s :
  Dict.mem d (dependencies s) = false -> recorded_within d seen s.
Proof.
  intros Hd e p ls n. unfold evidence, sources, sources_in.
  now rewrite (mem_false_get _ _ Hd).
Qed.

Lemma recorded_within_registered d seen s s' :
  dependencies s' = Dict.set d [] (dependencies s) ->
  recorded_within d seen s'.
Proof.
  intros Hdeps e p ls n. unfold evidence, sources, sources_in.
  rewrite Hdeps, get_set_eq. discriminate.
Qed.

Lemma evidence_get s d e p (by_d : dict string dep_sources_t) src :
  Dict.get d (dependencies s) = Some by_d -> Dict.get e by_d = Some src ->
  evidence s d e p = Dict.get p src.
Proof.
  intros Hd He. unfold evidence, sources, sources_in. rewrite Hd.
  cbn beta iota. now rewrite He.
Qed.

Lemma recorded_within_set_edge d e src2 by_d seen seen' s s' :
  dependencies s' = Dict.set d (Dict.set e src2 by_d) (dependencies s) ->
  Dict.get d (dependencies s) = Some by_d ->
  recorded_within d seen s -> incl seen seen' ->
  (forall p ls n, Dict.get p src2 = Some ls -> In n (Dict.keys ls) ->
                  In (p, e, n) seen') ->
  recorded_within d seen' s'.
Proof.
  intros Hdeps Hd Hrec Hincl Hnew e' p ls n.
  unfold evidence, sources, sources_in. rewrite Hdeps, get_set_eq.
  destruct (String.eqb_spec e' e) as [->|Hne].
  - rewrite get_set_eq. apply Hnew.
  - rewrite get_set_ne by exact Hne. intros Hev Hin. apply Hincl.
    apply (Hrec e' p ls n); [|exact Hin].
    unfold evidence, sources, sources_in. now rewrite Hd.
Qed.

Lemma recorded_within_record d e path n line by_d src src1 ls seen s s' :
  dependencies s'
  = Dict.set d
      (Dict.set e (Dict.set path (Dict.set n line ls) src1) by_d)
      (dependencies s) ->
  Dict.get d (dependencies s) = Some by_d -> Dict.get e by_d = Some src ->
  recorded_within d seen s ->
  (forall p, p <> path -> Dict.get p src1 = Dict.get p src) ->
  (forall n', In n' (Dict.keys ls) -> In (path, e, n') seen) ->
  recorded_within d (seen ++ [(path, e, n)]) s'.
Proof.
  intros Hdeps Hd He Hrec Hother Hls.
  apply (recorded_within_set_edge d e _ by_d seen _ s s' Hdeps Hd Hrec).
  - now apply incl_appl.
  - intros p ls' n'. destruct (String.eqb_spec p path) as [->|Hne].
    + rewrite get_set_eq. intros [= <-]. rewrite keys_set.
      intros Hin. apply in_or_app.
      destruct (Dict.mem n ls).
      * left. now apply Hls.
      * apply in_app_or in Hin as [Hin|[<-|[]]];
          [left; now apply Hls|right; now left].
    + rewrite get_set_ne, Hother by exact Hne. intros Hp Hin.
      apply in_or_app. left. apply (Hrec e p ls' n'); [|exact Hin].
      rewrite (evidence_get s d e p by_d src Hd He). exact Hp.
Qed.

Lemma register_new_dependent_recorded dependent d seen s :
  recorded_within d seen s ->
  ends (register_new_dependent dependent d s)
    (fun _ s' => recorded_within d seen s')
    (fun _ => False) (fun _ => False).
Proof.
  intros Hrec. unfold register_new_dependent. run; [exact Hrec|].
  now apply (recorded_within_registered d seen s).
Qed.

(** A blame result whose line was not attributed before is recorded. *)
Lemma process_blame_hunk_recorded
    dependent parent path bh line_to_culprit seen s :
  cache_ok s -> Dict.mem (commit_id dependent) (dependencies s) = true ->
  In (orig_commit_id bh) all_ids ->
  recorded_within (commit_id dependent) seen s ->
  ~ In (bh_key path bh) seen ->
  ends (process_blame_hunk dependent (commit_id dependent) parent path bh
          line_to_culprit s)
    (fun table s' =>
       recorded_within (commit_id dependent) (seen ++ [bh_key path bh]) s' /\
       table = mark_culprit (Z.to_nat (lines_in_hunk bh))
                 (final_start_line_number bh) (orig_commit_id bh)
                 line_to_culprit)
    (fun _ => False) (fun _ => False).
Proof.
  intros Hcache Hd Hin Hrec Hfresh. unfold process_blame_hunk. cbv zeta.
  call_with (get_commit_returns (orig_commit_id bh) s Hcache);
    [exact (ids_resolve all_ids repo_answers _ Hin)| |auto|auto].
  intros c s1 (Hc & Hcache1 & Hs1).
  assert (Hid : commit_id c = orig_commit_id bh)
    by now apply id_resolves_to_itself.
  rewrite Hid.
  apply ends_bind.
  eapply ends_mono;
    [apply ends_conj;
       [exact (is_excluded_cache c s1 Hcache1)|exact (is_excluded_returns c s1)]
    | |intros ? [_ []]|intros ? [[] _]]; cbv beta.
  intros b s2 [[Hcache2 Hs2] _].
  assert (Hdeps2 : dependencies s2 = dependencies s)
    by (destruct Hs1 as (<- & _); apply Hs2).
  assert (Hrec2 : recorded_within (commit_id dependent) seen s2)
    by now apply (recorded_within_same_deps _ _ s).
  destruct b.
  { apply ends_ret. split; [|reflexivity].
    eapply recorded_within_incl; [|exact Hrec2]. now apply incl_appl. }
  rewrite <- Hdeps2 in Hd. apply mem_true_get in Hd as [by_d Hby].
  apply ends_bind, ends_gets. apply ends_bind.
  unfold getitem. rewrite Hby. apply ends_ret.
  apply ends_bind.
  eapply ends_mono with
    (Q := fun _ s3 =>
            exists by_d3 src3,
              Dict.get (commit_id dependent) (dependencies s3) = Some by_d3 /\
              Dict.get (orig_commit_id bh) by_d3 = Some src3 /\
              recorded_within (commit_id dependent) seen s3)
    (E := fun _ => False) (T := fun _ => False); [| |auto|auto].
  - destruct (Dict.mem (orig_commit_id bh) by_d) eqn:Hmem.
    + apply mem_true_get in Hmem as [src Hsrc].
      apply ends_ret. now exists by_d, src.
    + call_with (process_new_dependency_notifies dependent
                   (commit_id dependent) c (orig_commit_id bh) path
                   (final_start_line_number bh) by_d s2 Hcache2 Hby);
        [|auto|auto].
      intros _ s3 (_ & Hdeps3 & _).
      exists (Dict.set (orig_commit_id bh) [] by_d), [].
      split; [now rewrite Hdeps3, get_set_eq|].
      split; [apply get_set_eq|].
      apply (recorded_within_set_edge _ _ _ _ seen seen s2 s3 Hdeps3 Hby Hrec2);
        [apply incl_refl|discriminate].
  - intros _ s3 (by_d3 & src3 & Hd3 & He3 & Hrec3). cbv beta.
    apply ends_bind. unfold bh_key.
    destruct (Dict.get path src3) as [ls|] eqn:Hp.
    + rewrite (record_dependency_source_present _ _ _ _ _ _ _ _ _ _ _ _
                 Hd3 He3 Hp).
      assert (Hls : forall n', In n' (Dict.keys ls) ->
                               In (path, orig_commit_id bh, n') seen).
      { intros n' Hn'. apply (Hrec3 _ _ ls n'); [|exact Hn'].
        now rewrite (evidence_get s3 _ _ path by_d3 src3 Hd3 He3). }
      destruct (Dict.mem (final_start_line_number bh) ls) eqn:Hn.
      * apply Hfresh, Hls. now apply mem_keys.
      * cbn [ends ret]. split; [|reflexivity].
        eapply (recorded_within_record _ _ path _ _ by_d3 src3 src3 ls
                  seen s3);
          [reflexivity|exact Hd3|exact He3|exact Hrec3|reflexivity|exact Hls].
    + rewrite (record_dependency_source_absent _ _ _ _ _ _ _ _ _ _ _
                 Hd3 He3 Hp).
      cbn [ends ret]. split; [|reflexivity].
      eapply (recorded_within_record _ _ path _ _ by_d3 src3
                (Dict.set path [] src3) [] seen s3);
        [reflexivity|exact Hd3|exact He3|exact Hrec3| |intros ? []].
      intros p Hne. now apply get_set_ne.
Qed.

Lemma culprits_snoc bhs bh :
  culprits (bhs ++ [bh]) []
  = mark_culprit (Z.to_nat (lines_in_hunk bh)) (final_start_line_number bh)
      (orig_commit_id bh) (culprits bhs []).
Proof. unfold culprits. now rewrite fold_left_app. Qed.

(** One hunk of the diff: either its file is not in the parent's tree,
    or every blame result is recorded. *)
Lemma blame_diff_hunk_returns dependent parent p h before after n order a s :
  first_parent dependent parent ->
  In p (repo_diff parent dependent context_lines) -> In h (hunks p) ->
  NoDup (before ++ hunk_keys parent (old_file_path p) h ++ after) ->
  traversal all_ids (Some (commit_id dependent)) n order a s ->
  recorded_within (commit_id dependent) before s ->
  ends (blame_diff_hunk dependent parent (old_file_path p) h s)
    (fun _ s' =>
       traversal all_ids (Some (commit_id dependent)) n order a s' /\
       recorded_within (commit_id dependent)
         (before ++ hunk_keys parent (old_file_path p) h) s')
    (fun _ => False) (fun _ => False).
Proof.
  intros Hfp Hp Hh Hnd Htr Hrec. unfold blame_diff_hunk.
  destruct (tree_lookup_loop_returns (split "/" (old_file_path p))
              (Tree (tree parent)) s) as [found Hfound].
  { exact (root_trees_stored all_ids repo_answers dependent parent Hfp). }
  apply ends_bind. unfold tree_lookup at 1. rewrite Hfound. cbn [ends].
  destruct (truthy found) eqn:Htruthy; cbn [negb].
  2:{ apply ends_ret. split; [exact Htr|].
      eapply recorded_within_incl; [|exact Hrec]. now apply incl_appl. }
  destruct (attribution h parent (old_file_path p)) as [bhs|] eqn:Hattr.
  2:{ now destruct (attribution_answers all_ids repo_answers dependent parent
                      p h s found Hfp Hp Hh Hfound Htruthy). }
  unfold hunk_keys in *. rewrite Hattr in *.
  apply ends_bind. unfold run_blame.
  fold (attribution h parent (old_file_path p)). rewrite Hattr.
  apply ends_bind, ends_log_call. apply ends_ret.
  match goal with
  | |- ends (_ ?s1) _ _ _ =>
      assert (Htr1 : traversal all_ids (Some (commit_id dependent))
                       n order a s1) by (open_tr; split_tr);
      assert (Hrec1 : recorded_within (commit_id dependent) before s1)
        by now apply (recorded_within_same_deps _ _ s)
  end.
  apply ends_bind.
  eapply ends_mono;
    [apply ends_conj;
       [exact (register_new_dependent_tr dependent _ n order a _ Htr1)
       |exact (register_new_dependent_recorded dependent _ before _ Hrec1)]
    | |intros ? [_ []]|intros ? [[] _]]; cbv beta.
  intros _ s2 [[Htr2 Hd2] Hrec2].
  apply ends_bind.
  eapply ends_mono;
    [apply (ends_for_fold_prefix
              (fun pre table s' =>
                 traversal all_ids (Some (commit_id dependent)) n order a s' /\
                 Dict.mem (commit_id dependent) (dependencies s') = true /\
                 recorded_within (commit_id dependent)
                   (before ++ map (bh_key (old_file_path p)) pre) s' /\
                 table = culprits pre [])
              (fun _ => False) (fun _ => False))
    | |auto|auto]; cbv beta.
  - intros pre bh post table s3 Hl (Htr3 & Hd3 & Hrec3 & ->).
    assert (Hbh : In bh bhs) by (rewrite Hl; apply in_elt).
    assert (Hall : In (orig_commit_id bh) all_ids)
      by (eapply blame_in_all_ids; eassumption).
    eapply ends_mono;
      [apply ends_conj;
         [exact (process_blame_hunk_tr dependent parent (old_file_path p) bh
                   (culprits pre []) n order a s3 Htr3 Hd3 Hall)
         |apply (process_blame_hunk_recorded dependent parent
                   (old_file_path p) bh (culprits pre [])
                   (before ++ map (bh_key (old_file_path p)) pre) s3);
            [apply Htr3|exact Hd3|exact Hall|exact Hrec3|]]
      | |intros ? [_ []]|intros ? [[] _]]; cbv beta.
    + rewrite Hl, map_app in Hnd. cbn [map] in Hnd.
      replace (before
               ++ (map (bh_key (old_file_path p)) pre
                   ++ bh_key (old_file_path p) bh
                      :: map (bh_key (old_file_path p)) post) ++ after)
        with ((before ++ map (bh_key (old_file_path p)) pre)
              ++ bh_key (old_file_path p) bh
                 :: (map (bh_key (old_file_path p)) post ++ after)) in Hnd
        by now rewrite <- !app_assoc.
      apply NoDup_remove_2 in Hnd. intros Hin. apply Hnd.
      apply in_or_app. now left.
    + intros table s4 [[Htr4 Hd4] [Hrec4 ->]].
      split; [exact Htr4|]. split; [exact Hd4|].
      split; [|now rewrite culprits_snoc].
      now rewrite map_app, app_assoc.
  - simpl. rewrite app_nil_r. auto.
  - intros table s3 (Htr3 & _ & Hrec3 & ->). unfold debug_hunk.
    rewrite debug_hunk_loop_ok; [split; assumption|].
    exact (attribution_covers all_ids repo_answers dependent parent p h bhs
             Hfp Hp Hh Hattr).
Qed.

Lemma find_dependencies_with_parent_returns dependent parent n order a s :
  first_parent dependent parent ->
  traversal all_ids (Some (commit_id dependent)) n order a s ->
  recorded_within (commit_id dependent) [] s ->
  ends (find_dependencies_with_parent dependent parent s)
    (fun _ s' => traversal all_ids (Some (commit_id dependent)) n order a s')
    (fun _ => False) (fun _ => False).
Proof.
  intros Hfp Htr Hrec. unfold find_dependencies_with_parent.
  apply ends_bind, ends_log_call. cbv zeta.
  pose proof (attribution_distinct all_ids repo_answers dependent parent Hfp)
    as Hnd.
  unfold diff_keys in Hnd.
  eapply ends_mono;
    [apply (ends_for_each_prefix
              (fun pre s' =>
                 traversal all_ids (Some (commit_id dependent)) n order a s' /\
                 recorded_within (commit_id dependent)
                   (flat_map (patch_keys parent) pre) s')
              (fun _ => False) (fun _ => False))
    | |auto|auto]; cbv beta.
  - intros pre p post s1 Hl [Htr1 Hrec1].
    assert (Hp : In p (repo_diff parent dependent context_lines))
      by (rewrite Hl; apply in_elt).
    eapply ends_mono;
      [apply (ends_for_each_prefix
                (fun hpre s' =>
                   traversal all_ids (Some (commit_id dependent)) n order a s'
                   /\ recorded_within (commit_id dependent)
                        (flat_map (patch_keys parent) pre
                         ++ flat_map (hunk_keys parent (old_file_path p)) hpre)
                        s')
                (fun _ => False) (fun _ => False))
      | |auto|auto]; cbv beta.
    + intros hpre h hpost s2 Hhl [Htr2 Hrec2].
      assert (Hh : In h (hunks p)) by (rewrite Hhl; apply in_elt).
      eapply ends_mono;
        [apply (blame_diff_hunk_returns dependent parent p h
                  (flat_map (patch_keys parent) pre
                   ++ flat_map (hunk_keys parent (old_file_path p)) hpre)
                  (flat_map (hunk_keys parent (old_file_path p)) hpost
                   ++ flat_map (patch_keys parent) post)
                  n order a s2 Hfp Hp Hh)
        | |auto|auto]; cbv beta.
      * rewrite Hl in Hnd. rewrite flat_map_app in Hnd. simpl in Hnd.
        unfold patch_keys at 2 in Hnd. rewrite Hhl in Hnd.
        rewrite flat_map_app in Hnd. simpl in Hnd.
        rewrite <- !app_assoc in Hnd. rewrite <- !app_assoc.
        exact Hnd.
      * exact Htr2.
      * exact Hrec2.
      * intros _ s3 [Htr3 Hrec3]. split; [exact Htr3|].
        rewrite flat_map_app. simpl. rewrite app_nil_r.
        now rewrite <- app_assoc in Hrec3.
    + simpl. rewrite app_nil_r. split; assumption.
    + intros _ s2 [Htr2 Hrec2]. split; [exact Htr2|].
      rewrite flat_map_app. simpl. now rewrite app_nil_r.
  - split; [open_tr; split_tr|].
    now apply (recorded_within_same_deps _ _ s).
  - intros _ s1 [Htr1 _]. exact Htr1.
Qed.

Lemma process_todo_no_raise dependent rest n order a s :
  traversal all_ids None n order a s -> resolved dependent ->
  todo s = dependent :: rest ->
  ends (process_todo dependent rest s)
    (fun _ _ => True) (fun _ => False) (fun _ => False).
Proof.
  intros (Hcache & Hwl & Hmeasure & [suffix Horder] & Hcount) Hres Htodo.
  unfold worklist_ok, measure, discovery in *. rewrite Htodo in *.
  destruct (worklist_on_pop _ _ _ _ _ _ Hwl) as (Hq & Hnd & Hndep & Hwl1).
  pose proof (measure_on_pop all_ids dependent rest (todo_d s) (done_d s))
    as Hpop.
  unfold process_todo.
  apply ends_bind, ends_modify. apply ends_bind, ends_gets. simpl.
  rewrite Hq. apply ends_bind, ends_modify.
  apply ends_bind, ends_gets. simpl. rewrite Hnd.
  apply ends_bind, ends_notify. apply ends_bind.
  eapply ends_mono with
    (Q := fun _ _ => True) (E := fun _ => False) (T := fun _ => False);
    [| |auto|auto].
  - match goal with
    | |- ends (_ ?s1) _ _ _ =>
        assert (Htr1 : traversal all_ids (Some (commit_id dependent))
                         (n - 1) order a s1)
    end.
    { split_tr.
      - lia.
      - rewrite count_snoc. simpl. now rewrite Nat.add_0_r. }
    destruct (parents dependent) as [|parent others] eqn:Hpar.
    + apply ends_ret. exact I.
    + eapply ends_mono;
        [apply (find_dependencies_with_parent_returns dependent parent
                  (n - 1) order a _
                  (conj Hres (ex_intro _ others Hpar)) Htr1)
        |auto|auto|auto].
      apply recorded_within_fresh. exact Hndep.
  - intros _ s2 _. run. exact I.
Qed.

Lemma process_todo_returns dependent rest n order a s :
  traversal all_ids None n order a s -> state_ok (fun _ _ => True) s ->
  todo s = dependent :: rest ->
  ends (process_todo dependent rest s)
    (fun _ s' => traversal all_ids None (n - 1) order a s' /\ (1 <= n)%nat /\
                 state_ok (fun _ _ => True) s')
    (fun _ => False) (fun _ => False).
Proof.
  intros Htr Hok Htodo.
  destruct (balanced_exists s) as [k Hbal].
  assert (Hres : resolved dependent).
  { apply Hok. rewrite Htodo. now left. }
  eapply ends_mono;
    [apply ends_conj;
       [apply ends_conj;
          [exact (process_todo_tr dependent rest n order a s Htr Htodo)
          |exact (process_todo_keeps (fun _ _ => True)
                    (fun _ _ _ _ _ _ _ _ _ _ _ _ _ _ => I)
                    k dependent rest s (conj Hok Hbal) Htodo)]
       |exact (process_todo_no_raise dependent rest n order a s
                 Htr Hres Htodo)]
    | |intros ? [_ []]|intros ? [_ []]]; cbv beta.
  intros _ s' [[[Htr' Hn] [Hok' _]] _]. auto.
Qed.

Lemma todo_loop_returns order a fuel :
  forall n s,
    traversal all_ids None n order a s -> state_ok (fun _ _ => True) s ->
    (n < fuel)%nat ->
    ends (todo_loop fuel s)
      (fun _ s' => (exists n', traversal all_ids None n' order a s') /\
                   todo s' = [])
      (fun _ => False) (fun _ => False).
Proof.
  induction fuel as [|fuel IH]; intros n s Htr Hok Hlt; [lia|]. simpl.
  destruct (todo s) as [|dependent rest] eqn:Htodo.
  - split; [now exists n|exact Htodo].
  - call_with (process_todo_returns dependent rest n order a s Htr Hok Htodo);
      [|auto|auto].
    intros _ s1 (Htr1 & Hn & Hok1).
    apply (IH (n - 1)%nat s1 Htr1 Hok1). lia.
Qed.

Lemma find_dependencies_returns dependent_rev recurse_arg s :
  state_ok (fun _ _ => True) s -> worklist_ok None s -> todo s = [] ->
  (forall c, ref_commit dependent_rev = Some c ->
             ~ In (commit_id c) (done s)) ->
  ref_commit dependent_rev <> None ->
  ends (find_dependencies (2 * length all_ids + 2) dependent_rev
          recurse_arg s)
    (fun _ _ => True) (fun _ => False) (fun _ => False).
Proof.
  intros Hok Hwl Htodo Hseed Hres. unfold find_dependencies. cbv zeta.
  assert (Hcache : cache_ok s) by apply Hok.
  destruct (balanced_exists s) as [k Hbal].
  apply ends_bind.
  pose proof (get_commit_returns dependent_rev s Hcache Hres) as Hget.
  pose proof (get_commit_keeps (fun _ _ => True) k dependent_rev s
                (conj Hok Hbal)) as Hkeep.
  unfold try_except_InvalidCommitish, sat in *.
  destruct (get_commit dependent_rev s) as [dependent s1|e s1|s1];
    simpl in Hget, Hkeep |- *; [|contradiction|contradiction].
  destruct Hget as (Hres1 & Hcache1 & Hs1).
  destruct Hkeep as (_ & Hok1 & _).
  assert (Hwl1 : worklist_ok None s1) by now apply (worklist_ok_same_graph _ s).
  assert (Htodo1 : todo s1 = []) by (destruct Hs1 as (_ & -> & _); exact Htodo).
  assert (Hdone1 : done s1 = done s) by apply Hs1.
  assert (Hnot1 : notified s1 = notified s) by apply Hs1.
  run.
  call_with (todo_loop_returns (done s ++ [commit_id dependent])
               (count is_all_done (notified s))
               (2 * length all_ids + 2)%nat (2 * length all_ids + 1)%nat);
    [| |lia| |auto|auto].
  - unfold worklist_ok in Hwl1. rewrite Htodo1 in *.
    assert (Hq : Dict.mem (commit_id dependent) (todo_d s1) = false).
    { apply not_mem_keys. intros Hin.
      now apply (proj1 (proj1 (proj2 (proj2 Hwl1)) _)) in Hin. }
    assert (Hnd : Dict.mem (commit_id dependent) (done_d s1) = false).
    { apply not_mem_keys. intros Hin.
      apply (proj1 (proj2 (proj2 (proj2 (proj2 Hwl1))))) in Hin.
      rewrite Hdone1 in Hin. now apply (Hseed dependent). }
    split_tr.
    + apply (worklist_on_enqueue None []);
        [exact Hwl1|exact Hq|exact Hnd|discriminate].
    + unfold measure_on, unseen_on. simpl length.
      match goal with
      | |- (2 * length (filter ?f _) + _ <= _)%nat =>
          pose proof (List.filter_length_le f all_ids)
      end. lia.
    + exists []. rewrite Hdone1. unfold discovery_on. simpl.
      now rewrite app_nil_r.
    + now rewrite Hnot1.
  - open_ok. split_ok.
    apply all_resolved_snoc; [assumption|eexists; eassumption].
  - intros _ s2 _. run. exact I.
Qed.

End Returns.


End Worklist.

(* ================================================================== *)
(** * Root commits *)

Section RootCommit.
Context {repo : Repo} {options : Options}.

(** C8.  A commit without parents that is taken from the worklist is
    announced, marked done and reported with an empty edge map; the
    graph is as before and no diff or blame is requested. *)
Theorem root_commit_has_no_dependencies dependent rest s :
  worklist_ok None s -> todo s = dependent :: rest ->
  parents dependent = [] ->
  exists s',
    process_todo dependent rest s = Ok tt s' /\
    dependencies s' = dependencies s /\
    calls s' = calls s /\
    done s' = done s ++ [commit_id dependent] /\
    Dict.mem (commit_id dependent) (done_d s') = true /\
    todo s' = rest /\
    notified s' = notified s ++ [new_commit dependent;
                                 dependent_done dependent []].
Proof.
  intros Hwl Htodo Hroot. unfold worklist_ok in Hwl. rewrite Htodo in Hwl.
  destruct (worklist_on_pop _ _ _ _ _ _ Hwl) as (Hq & Hnd & Hndep & _).
  unfold process_todo, notify_listeners, bind, gets, modify, ret, raise.
  simpl. rewrite Hq. simpl. rewrite Hnd, Hroot. simpl.
  rewrite (mem_false_get _ _ Hndep).
  eexists. split; [reflexivity|]. simpl.
  rewrite mem_set_eq, <- app_assoc. repeat split.
Qed.

End RootCommit.

(* ================================================================== *)
(** * First in, first out *)

Section Fifo.
Context {repo : Repo} {options : Options}.

Lemma appended_to_same_graph queue s s' :
  same_graph s s' -> appended_to queue s -> appended_to queue s'.
Proof. unfold appended_to. intros (_ & -> & _). auto. Qed.

Lemma process_blame_hunk_appends
    queue dependent d parent path bh line_to_culprit s :
  appended_to queue s ->
  sat (process_blame_hunk dependent d parent path bh line_to_culprit s)
    (fun _ s' => appended_to queue s') (appended_to queue).
Proof.
  intros Hq. unfold process_blame_hunk. cbv zeta.
  call_with (get_commit_frame (orig_commit_id bh) s);
    [|intros s1 Hs1; now apply (appended_to_same_graph _ s)|intros ? []].
  intros c s1 Hs1.
  assert (Hq1 : appended_to queue s1) by now apply (appended_to_same_graph _ s).
  call_with (is_excluded_frame c s1);
    [|intros s2 Hs2; now apply (appended_to_same_graph _ s1)|intros ? []].
  intros b s2 Hs2.
  assert (Hq2 : appended_to queue s2) by now apply (appended_to_same_graph _ s1).
  destruct b; [run; exact Hq2|].
  apply ends_bind, ends_gets. apply ends_bind. unfold getitem.
  destruct (Dict.get d (dependencies s2)) as [by_d|];
    [apply ends_ret|apply ends_raise; exact Hq2].
  apply ends_bind.
  eapply ends_mono with (Q := fun _ s' => appended_to queue s')
                        (E := appended_to queue) (T := appended_to queue);
    [| |auto|auto].
  - destruct (Dict.mem (orig_commit_id bh) by_d); [apply ends_ret; exact Hq2|].
    destruct Hq2 as [added Hadded].
    eapply ends_mono; [apply process_new_dependency_todo| | |]; cbv beta.
    + intros _ s3 H3. unfold appended_to. rewrite H3, Hadded.
      match goal with |- context [if ?b then _ else _] => destruct b end;
        [exists (added ++ [c]); now rewrite app_assoc|now exists added].
    + intros s3 H3. unfold appended_to. rewrite H3. now exists added.
    + intros s3 H3. unfold appended_to. rewrite H3. now exists added.
  - intros _ s3 Hq3. cbv beta. unfold record_dependency_source.
    run; simpl; exact Hq3.
Qed.

Lemma blame_diff_hunk_appends queue dependent parent path h s :
  appended_to queue s ->
  sat (blame_diff_hunk dependent parent path h s)
    (fun _ s' => appended_to queue s') (appended_to queue).
Proof.
  intros Hq. unfold blame_diff_hunk.
  call_with (tree_lookup_loop_pure (split "/" path) (Tree (tree parent)) s);
    [|intros ? ->; exact Hq|intros ? []].
  intros found s1 ->.
  destruct (negb (truthy found)); [run; exact Hq|].
  call_with (run_blame_spec h parent path s);
    [|intros ? ->; exact Hq|intros ? []].
  intros bhs s1 [_ ->].
  apply ends_bind.
  eapply ends_mono with (Q := fun _ s' => appended_to queue s')
                        (E := appended_to queue) (T := appended_to queue);
    [unfold register_new_dependent; run; exact Hq| |auto|auto].
  intros _ s2 Hq2. cbv beta. apply ends_bind.
  eapply ends_mono;
    [apply (ends_for_fold (fun _ s' => appended_to queue s')
              (appended_to queue) (appended_to queue))
    | | |]; cbv beta; [|exact Hq2| |auto|auto].
  - intros bh ltc s3 _ Hq3. now apply process_blame_hunk_appends.
  - intros ltc s3 Hq3.
    eapply ends_mono; [apply debug_hunk_loop_pure| | |]; cbv beta;
      [intros ? ? ->; exact Hq3|intros ? ->; exact Hq3|intros ? []].
Qed.

Lemma process_todo_appends dependent rest s :
  sat (process_todo dependent rest s)
    (fun _ s' => appended_to rest s') (appended_to rest).
Proof.
  assert (Hnil : forall s0, todo s0 = rest -> appended_to rest s0)
    by (intros s0 H0; exists []; now rewrite app_nil_r).
  unfold process_todo.
  apply ends_bind, ends_modify. apply ends_bind, ends_gets.
  apply ends_bind.
  destruct (Dict.mem _ _); [apply ends_modify|apply ends_raise, Hnil; reflexivity].
  apply ends_bind, ends_gets.
  destruct (Dict.mem _ _); [apply ends_ret, Hnil; reflexivity|].
  apply ends_bind, ends_notify. apply ends_bind.
  eapply ends_mono with (Q := fun _ s' => appended_to rest s')
                        (E := appended_to rest) (T := appended_to rest);
    [| |auto|auto].
  - destruct (parents dependent) as [|parent others];
      [apply ends_ret, Hnil; reflexivity|].
    unfold find_dependencies_with_parent.
    apply ends_bind, ends_log_call. cbv zeta.
    apply (ends_for_each (appended_to rest)); [|apply Hnil; reflexivity].
    intros p s1 _ Hq1.
    apply (ends_for_each (appended_to rest)); [|exact Hq1].
    intros h s2 _ Hq2. now apply blame_diff_hunk_appends.
  - intros _ s2 Hq2. run. exact Hq2.
Qed.


End Fifo.

(* ================================================================== *)
(** * [new_commit] notifications *)

Section NewCommit.
Context {repo : Repo} {options : Options}.

Lemma grown_from_same_graph s0 s s' :
  same_graph s s' -> grown_from s0 s -> grown_from s0 s'.
Proof. unfold grown_from. intros (_ & _ & _ & -> & _ & ->). auto. Qed.

Ltac grown :=
  lazymatch goal with
  | H : grown_from _ _ |- grown_from _ _ =>
      let tail := fresh "tail" in
      let Hd := fresh "Hd" in
      let Hn := fresh "Hn" in
      destruct H as [Hd [tail Hn]]; unfold grown_from; simpl;
      rewrite ?Hn, <- ?app_assoc; split; [exact Hd|eexists; reflexivity]
  end.

Lemma process_blame_hunk_grows
    s0 dependent d parent path bh line_to_culprit s :
  grown_from s0 s ->
  sat (process_blame_hunk dependent d parent path bh line_to_culprit s)
    (fun _ s' => grown_from s0 s') (grown_from s0).
Proof.
  intros Hg. unfold process_blame_hunk. cbv zeta.
  call_with (get_commit_frame (orig_commit_id bh) s);
    [|intros s1 Hs1; now apply (grown_from_same_graph _ s)|intros ? []].
  intros c s1 Hs1.
  assert (Hg1 : grown_from s0 s1) by now apply (grown_from_same_graph _ s).
  call_with (is_excluded_frame c s1);
    [|intros s2 Hs2; now apply (grown_from_same_graph _ s1)|intros ? []].
  intros b s2 Hs2.
  assert (Hg2 : grown_from s0 s2) by now apply (grown_from_same_graph _ s1).
  unfold process_new_dependency, record_dependency_source, seen_commit.
  run; simpl; grown.
Qed.

Lemma blame_diff_hunk_grows s0 dependent parent path h s :
  grown_from s0 s ->
  sat (blame_diff_hunk dependent parent path h s)
    (fun _ s' => grown_from s0 s') (grown_from s0).
Proof.
  intros Hg. unfold blame_diff_hunk.
  call_with (tree_lookup_loop_pure (split "/" path) (Tree (tree parent)) s);
    [|intros ? ->; exact Hg|intros ? []].
  intros found s1 ->.
  destruct (negb (truthy found)); [run; exact Hg|].
  call_with (run_blame_spec h parent path s);
    [|intros ? ->; exact Hg|intros ? []].
  intros bhs s1 [_ ->].
  apply ends_bind.
  eapply ends_mono with (Q := fun _ s' => grown_from s0 s')
                        (E := grown_from s0) (T := grown_from s0);
    [unfold register_new_dependent; run; simpl; grown| |auto|auto].
  intros _ s2 Hg2. cbv beta. apply ends_bind.
  eapply ends_mono;
    [apply (ends_for_fold (fun _ s' => grown_from s0 s')
              (grown_from s0) (grown_from s0))
    | | |]; cbv beta; [|exact Hg2| |auto|auto].
  - intros bh ltc s3 _ Hg3. now apply process_blame_hunk_grows.
  - intros ltc s3 Hg3.
    eapply ends_mono; [apply debug_hunk_loop_pure| | |]; cbv beta;
      [intros ? ? ->; exact Hg3|intros ? ->; exact Hg3|intros ? []].
Qed.

(** Taking a commit that is not done from the worklist announces it
    first and marks it done last. *)
Lemma process_todo_announces dependent rest s :
  Dict.mem (commit_id dependent) (todo_d s) = true ->
  Dict.mem (commit_id dependent) (done_d s) = false ->
  sat (process_todo dependent rest s)
    (fun _ s' =>
       done s' = done s ++ [commit_id dependent] /\
       exists tail, notified s' = notified s ++ new_commit dependent :: tail)
    (fun _ => True).
Proof.
  intros Hq Hnd. unfold process_todo.
  apply ends_bind, ends_modify. apply ends_bind, ends_gets. simpl.
  rewrite Hq. apply ends_bind, ends_modify.
  apply ends_bind, ends_gets. simpl. rewrite Hnd.
  apply ends_bind, ends_notify. apply ends_bind.
  match goal with
  | |- ends (_ ?s1) _ _ _ =>
      assert (Hg1 : grown_from s1 s1)
        by (split; [|exists []]; now rewrite ?app_nil_r);
      eapply ends_mono with (Q := fun _ s' => grown_from s1 s')
                            (E := grown_from s1) (T := grown_from s1);
        [|intros _ s2 [Hd [tail Hn]]|auto|auto]
  end.
  - destruct (parents dependent) as [|parent others];
      [apply ends_ret; exact Hg1|].
    unfold find_dependencies_with_parent.
    apply ends_bind, ends_log_call. cbv zeta.
    match type of Hg1 with
    | grown_from ?s1 _ =>
        apply (ends_for_each (grown_from s1) (grown_from s1) (grown_from s1));
          [|split; [reflexivity|exists []; simpl; now rewrite app_nil_r]];
        intros p s2 _ Hg2;
        apply (ends_for_each (grown_from s1)); [|exact Hg2]
    end.
    intros h s3 _ Hg3. now apply blame_diff_hunk_grows.
  - run. simpl in *. rewrite Hd, Hn, <- !app_assoc. split; [reflexivity|].
    simpl. eexists. reflexivity.
Qed.

Lemma find_dependencies_balance fuel dependent_rev recurse_arg s :
  state_ok (fun _ _ => True) s ->
  sat (find_dependencies fuel dependent_rev recurse_arg s)
    (fun _ s' =>
       cache_ok s' /\
       (count is_any_new_commit (notified s')
        + edge_count s + length (done s)
        = count is_any_new_commit (notified s)
          + edge_count s' + length (done s'))%nat)
    cache_ok.
Proof.
  intros Hok. destruct (balanced_exists s) as [k Hbal].
  eapply ends_mono;
    [exact (find_dependencies_keeps (fun _ _ => True)
              (fun _ _ _ _ _ _ _ _ _ _ _ _ _ _ => I)
              k fuel dependent_rev recurse_arg s (conj Hok Hbal))
    | |intros s' Hs'; apply Hs'|intros s' Hs'; apply Hs'].
  intros _ s' [Hok' Hbal']. split; [apply Hok'|].
  unfold balanced in *. lia.
Qed.

(** C7.  Nothing but revision strings is ever a key of the commit cache,
    so [seen_commit] of a commit object is false, in every state a run
    reaches.  [process_new_dependency] therefore always announces the
    dependency with [new_commit] and registers the edge; a commit taken
    from the worklist is announced with [new_commit] as well, before it
    is processed; and a run announces as many commits as it registers
    edges and processes commits taken from the worklist.  On the linear
    history the commit [bbbb] is announced twice: as dependency of [cccc]
    and when it is taken from the worklist. *)
Theorem new_commit_per_edge_and_per_processed_commit :
  (forall s c, cache_ok s -> seen_commit (RevCommit c) s = Ok false s) /\
  (forall dependent d dependency e path n by_d s,
      cache_ok s -> Dict.get d (dependencies s) = Some by_d ->
      ends (process_new_dependency dependent d dependency e path n s)
        (fun _ s' =>
           notified s' = notified s ++
                           [new_commit dependency;
                            new_dependency dependent dependency path n]
           /\ dependencies s'
              = Dict.set d (Dict.set e [] by_d) (dependencies s)
           /\ sources s' d e = Some [])
        (fun _ => False) (fun _ => False)) /\
  (forall dependent rest s,
      worklist_ok None s -> todo s = dependent :: rest ->
      sat (process_todo dependent rest s)
        (fun _ s' =>
           done s' = done s ++ [commit_id dependent] /\
           exists tail,
             notified s' = notified s ++ new_commit dependent :: tail)
        (fun _ => True)) /\
  (forall fuel dependent_rev recurse_arg s,
      state_ok (fun _ _ => True) s ->
      sat (find_dependencies fuel dependent_rev recurse_arg s)
        (fun _ s' =>
           cache_ok s' /\
           (count is_any_new_commit (notified s')
            + edge_count s + length (done s)
            = count is_any_new_commit (notified s)
              + edge_count s' + length (done s'))%nat)
        cache_ok) /\
  (exists s',
      find_dependencies (repo := Linear.repo) (options := Linear.recursive)
        3 "HEAD" None init = Ok tt s' /\
      count (is_new_commit "bbbb") (notified s') = 2%nat).
Proof.
  split; [|split; [|split; [|split]]].
  - intros s c Hcache. unfold seen_commit, gets.
    now rewrite seen_commit_false.
  - apply process_new_dependency_notifies.
  - intros dependent rest s Hwl Htodo.
    unfold worklist_ok in Hwl. rewrite Htodo in Hwl.
    destruct (worklist_on_pop _ _ _ _ _ _ Hwl) as (Hq & Hnd & _).
    now apply process_todo_announces.
  - apply find_dependencies_balance.
  - eexists. split; [vm_compute; reflexivity|vm_compute; reflexivity].
Qed.

End NewCommit.

Lemma new_commit_per_edge_and_per_processed_commit_witness :
  cache_ok (repo := Linear.repo) init /\
  seen_commit (RevCommit Linear.cb) init = Ok false init.
Proof.
  assert (Hcache : cache_ok (repo := Linear.repo) init) by (intros k c []).
  split; [exact Hcache|].
  exact (proj1 (new_commit_per_edge_and_per_processed_commit
                  (repo := Linear.repo) (options := Linear.recursive))
           init Linear.cb Hcache).
Defined.

(* ================================================================== *)
(** * The worklist on the linear history *)

Lemma init_worklist_ok : worklist_ok None init.
Proof.
  unfold worklist_ok, worklist_on. simpl.
  repeat split; try constructor; try tauto; try discriminate.
Qed.

Lemma root_queued_worklist_ok : worklist_ok None root_queued.
Proof.
  exact (worklist_on_enqueue None [] [] [] [] [] Linear.ca
           init_worklist_ok eq_refl eq_refl
           (fun H => match H with eq_refl => I end)).
Qed.

Lemma linear_blame_in_all_ids (options : Options) :
  forall h parent path bhs bh,
    attribution (repo := Linear.repo) h parent path = Some bhs ->
    In bh bhs ->
    In (orig_commit_id bh) ["aaaa"; "bbbb"; "cccc"].
Proof.
  intros h parent path bhs bh Hattr Hin.
  assert (Hblame : Linear.blame path (commit_id parent) (old_start h)
                   = Some bhs).
  { unfold attribution in Hattr. simpl in Hattr.
    now destruct pygit2_blame. }
  unfold Linear.blame in Hblame.
  repeat match type of Hblame with
         | (if ?b then _ else _) = _ => destruct b
         end; try discriminate;
    injection Hblame as <-; destruct Hin as [<-|[]]; simpl; auto.
Qed.

Lemma linear_id_resolves :
  forall sha1 c,
    In sha1 ["aaaa"; "bbbb"; "cccc"] ->
    ref_commit (Repo := Linear.repo) sha1 = Some c -> commit_id c = sha1.
Proof.
  intros sha1 c [<-|[<-|[<-|[]]]]; simpl; intros [= <-]; reflexivity.
Qed.

Lemma linear_first_parent dependent parent :
  first_parent (repo := Linear.repo) dependent parent ->
  (dependent = Linear.cb /\ parent = Linear.ca) \/
  (dependent = Linear.cc /\ parent = Linear.cb).
Proof.
  intros [Hres [others Hpar]].
  apply linear_resolved in Hres as [-> | [-> | ->]]; simpl in Hpar;
    [discriminate|injection Hpar as <- <-; auto|injection Hpar as <- <-; auto].
Qed.

(** The repository of the linear history answers what a run asks. *)
Lemma linear_answers :
  answers (repo := Linear.repo) (options := Linear.recursive)
    ["aaaa"; "bbbb"; "cccc"].
Proof.
  constructor.
  - intros sha1 [<-|[<-|[<-|[]]]]; discriminate.
  - intros excludes b; discriminate.
  - intros a b; discriminate.
  - intros dependent parent p h s found Hfp Hp Hh Hlook Htruthy.
    apply linear_first_parent in Hfp as [[-> ->]|[-> ->]]; cbv in Hp.
    + destruct Hp as [<-|[]]. destruct Hh as [<-|[]]. discriminate.
    + destruct Hp as [<-|[<-|[]]]; destruct Hh as [<-|[]].
      * cbv in Hlook. injection Hlook as <-. discriminate.
      * discriminate.
  - intros oid entries Hget name oid' Hname. simpl in Hget.
    repeat match type of Hget with
           | (if ?b then _ else _) = _ => destruct b
           end; try discriminate;
      injection Hget as <-; simpl in Hname;
      destruct (py_eqb _ name); try discriminate;
      injection Hname as <-; discriminate.
  - intros dependent parent Hfp name oid Hname.
    apply linear_first_parent in Hfp as [[-> ->]|[-> ->]]; simpl in Hname;
      destruct (py_eqb _ name); try discriminate;
      injection Hname as <-; discriminate.
  - intros dependent parent Hfp.
    apply linear_first_parent in Hfp as [[-> ->]|[-> ->]]; vm_compute;
      (constructor; [intros []|constructor]).
  - intros dependent parent p h bhs Hfp Hp Hh Hattr.
    apply linear_first_parent in Hfp as [[-> ->]|[-> ->]]; cbv in Hp.
    + destruct Hp as [<-|[]]. destruct Hh as [<-|[]].
      cbv in Hattr. injection Hattr as <-. reflexivity.
    + destruct Hp as [<-|[<-|[]]]; destruct Hh as [<-|[]]; cbv in Hattr.
      * discriminate.
      * injection Hattr as <-. reflexivity.
Qed.


Lemma root_commit_has_no_dependencies_witness :
  worklist_ok None root_queued /\
  exists s',
    process_todo (repo := Linear.repo) (options := Linear.recursive)
      Linear.ca [] root_queued = Ok tt s' /\
    dependencies s' = [] /\ calls s' = [] /\ done s' = ["aaaa"] /\
    Dict.mem "aaaa" (done_d s') = true /\ todo s' = [] /\
    notified s' = [new_commit Linear.ca; dependent_done Linear.ca []].
Proof.
  split; [exact root_queued_worklist_ok|].
  exact (root_commit_has_no_dependencies
           (repo := Linear.repo) (options := Linear.recursive)
           Linear.ca [] root_queued root_queued_worklist_ok eq_refl eq_refl).
Defined.


(** The run over the linear history from [HEAD]: [cccc] depends on
    [bbbb], [bbbb] on [aaaa], each by one line of [src/f.txt]; the hunk
    of [doc/readme] is skipped; nothing links [cccc] to [aaaa]. *)
Example linear_run :
  exists s',
    find_dependencies (repo := Linear.repo) (options := Linear.recursive)
      3 "HEAD" None init = Ok tt s' /\
    dependencies s'
    = [("cccc", [("bbbb", [("src/f.txt", [(1, "bbbb 1 1")])])]);
       ("bbbb", [("aaaa", [("src/f.txt", [(1, "aaaa 1 1")])])])] /\
    edges s' = [[("cccc", "bbbb")]; [("bbbb", "aaaa")]] /\
    done s' = ["cccc"; "bbbb"; "aaaa"] /\ todo s' = [] /\
    calls s'
    = [call_diff "bbbb" "cccc"; call_blame "src/f.txt" "bbbb" 1 1;
       call_diff "aaaa" "bbbb"; call_blame "src/f.txt" "aaaa" 1 2] /\
    count is_all_done (notified s') = 1%nat.
Proof.
  eexists. split; [vm_compute; reflexivity|].
  repeat split.
Qed.

(** With [aaaa] as excluded boundary the edge from [bbbb] to [aaaa] is
    not recorded, though attribution names [aaaa]. *)
Example linear_run_excluding :
  exists s',
    find_dependencies (repo := Linear.repo) (options := Linear.excluding_a)
      3 "HEAD" None init = Ok tt s' /\
    dependencies s'
    = [("cccc", [("bbbb", [("src/f.txt", [(1, "bbbb 1 1")])])]);
       ("bbbb", [])] /\
    done s' = ["cccc"; "bbbb"].
Proof.
  eexists. split; [vm_compute; reflexivity|].
  repeat split.
Qed.

(* ================================================================== *)
(** * The blame table and its reader *)

Lemma mark_culprit_get n c i :
  forall lo t,
    Dict.get i (mark_culprit n lo c t)
    = if (lo <=? i) && (i <? lo + Z.of_nat n) then Some c else Dict.get i t.
Proof.
  induction n as [|n IH]; intros lo t; cbn [mark_culprit].
  - destruct (Z.leb_spec lo i), (Z.ltb_spec i (lo + Z.of_nat 0)); simpl;
      try reflexivity; lia.
  - rewrite IH. destruct (Z.eq_dec i lo) as [->|Hne].
    + rewrite get_set_eq.
      destruct (Z.leb_spec (lo + 1) lo), (Z.leb_spec lo lo),
        (Z.ltb_spec lo (lo + Z.of_nat (S n))); simpl; try reflexivity; lia.
    + rewrite get_set_ne by exact Hne.
      destruct (Z.leb_spec (lo + 1) i), (Z.leb_spec lo i),
        (Z.ltb_spec i (lo + 1 + Z.of_nat n)),
        (Z.ltb_spec i (lo + Z.of_nat (S n))); simpl; try reflexivity; lia.
Qed.

Lemma bind_ok {A B} (m : M A) (k : A -> M B) s a s' :
  m s = Ok a s' -> bind m k s = k a s'.
Proof. unfold bind. now intros ->. Qed.

Lemma bind_raise {A B} (m : M A) (k : A -> M B) s e s' :
  m s = Raise e s' -> bind m k s = Raise e s'.
Proof. unfold bind. now intros ->. Qed.

Section BlameTable.
Context {repo : Repo} {options : Options}.

(** X1.  [process_blame_hunk] resolves the commit the blame result names
    and, whether or not that commit is excluded, returns the table with
    the lines [final_start_line_number .. final_start_line_number +
    lines_in_hunk - 1] set to that commit's id and every other line as
    it was (a count of zero or less sets none).  When the commit does
    not resolve, the exception of [get_commit] is the one that leaves
    [process_blame_hunk]. *)
Theorem process_blame_hunk_marks_lines
    dependent d parent path bh line_to_culprit s :
  match get_commit (orig_commit_id bh) s with
  | Ok c _ =>
      ends (process_blame_hunk dependent d parent path bh line_to_culprit s)
        (fun table _ =>
           forall i,
             Dict.get i table
             = if (final_start_line_number bh <=? i)
                  && (i <? final_start_line_number bh + lines_in_hunk bh)
               then Some (commit_id c) else Dict.get i line_to_culprit)
        (fun _ => True) (fun _ => False)
  | Raise e s' =>
      process_blame_hunk dependent d parent path bh line_to_culprit s
      = Raise e s'
  | OutOfFuel _ => False
  end.
Proof.
  pose proof (get_commit_frame (orig_commit_id bh) s) as Hframe.
  unfold process_blame_hunk. cbv zeta.
  destruct (get_commit (orig_commit_id bh) s) as [c s1|e s1|s1] eqn:Hc;
    [|now apply bind_raise|exact Hframe].
  apply ends_bind. rewrite Hc. cbn [ends].
  assert (Hget : forall i,
             Dict.get i
               (mark_culprit (Z.to_nat (lines_in_hunk bh))
                  (final_start_line_number bh) (commit_id c) line_to_culprit)
             = if (final_start_line_number bh <=? i)
                  && (i <? final_start_line_number bh + lines_in_hunk bh)
               then Some (commit_id c) else Dict.get i line_to_culprit).
  { intros i. rewrite mark_culprit_get.
    destruct (Z.leb_spec (final_start_line_number bh) i),
      (Z.ltb_spec i (final_start_line_number bh
                     + Z.of_nat (Z.to_nat (lines_in_hunk bh)))),
      (Z.ltb_spec i (final_start_line_number bh + lines_in_hunk bh));
      simpl; try reflexivity; lia. }
  call_with (is_excluded_frame c s1); [|auto|auto].
  intros b s2 _.
  unfold process_new_dependency, record_dependency_source, seen_commit.
  run; auto.
Qed.

Lemma forallb_pointwise {X} (f g : X -> bool) l :
  (forall x, f x = g x) -> forallb f l = forallb g l.
Proof.
  intros Hfg. induction l as [|x l IH]; simpl; [reflexivity|].
  now rewrite Hfg, IH.
Qed.

Lemma forallb_seq_S (f : nat -> bool) k :
  forall a, forallb f (seq (S a) k) = forallb (fun i => f (S i)) (seq a k).
Proof.
  induction k as [|k IH]; intros a; simpl; [reflexivity|]. now rewrite IH.
Qed.

Lemma debug_hunk_loop_looks_up ls table s :
  forall n,
    debug_hunk_loop ls n table s
    = if forallb (fun i => Dict.mem (n + Z.of_nat i) table)
           (seq 0 (looked_up ls))
      then Ok tt s else Raise KeyError s.
Proof.
  induction ls as [|line ls IH]; intros n;
    cbn [debug_hunk_loop looked_up]; [reflexivity|].
  destruct (String.eqb _ (rstrip (content line))); [reflexivity|].
  destruct (Ascii.eqb (origin line) "+"); [apply IH|].
  cbn [seq forallb]. rewrite forallb_seq_S.
  unfold bind, getitem, Dict.mem at 1. rewrite Z.add_0_r.
  destruct (Dict.get n table) as [culprit|]; [|reflexivity].
  cbn [ret andb]. rewrite IH.
  rewrite (forallb_pointwise
             (fun i => Dict.mem (n + 1 + Z.of_nat i) table)
             (fun i => Dict.mem (n + Z.of_nat (S i)) table));
    [reflexivity|].
  intros i. f_equal. lia.
Qed.


End BlameTable.

(* ================================================================== *)
(** * The two caches *)

Lemma rev_get_set r r' (c : commit) d :
  Dict.get (RevStr r') (Dict.set (RevStr r) c d)
  = if String.eqb r r' then Some c else Dict.get (RevStr r') d.
Proof.
  induction d as [|[k0 v0] d IH]; simpl.
  - unfold py_eqb, PyEq_rev_key. now destruct (String.eqb r r').
  - destruct k0 as [x|x]; unfold py_eqb, PyEq_rev_key in *; simpl.
    + destruct (String.eqb_spec x r) as [->|Hxr]; simpl;
        unfold py_eqb, PyEq_rev_key; simpl.
      * now destruct (String.eqb r r').
      * destruct (String.eqb_spec x r') as [->|Hxr'].
        -- destruct (String.eqb_spec r r') as [->|]; [contradiction|].
           reflexivity.
        -- exact IH.
    + exact IH.
Qed.

Section CacheUse.
Context {repo : Repo} {options : Options}.

Lemma get_commit_outcome rev s :
  match get_commit rev s with
  | Ok c s' =>
      get_commit rev s' = Ok c s' /\
      s' = with_commits (commits s') s /\
      (forall rev' c', Dict.get (RevStr rev') (commits s) = Some c' ->
                       Dict.get (RevStr rev') (commits s') = Some c') /\
      (Dict.get (RevStr rev) (commits s) = None -> ref_commit rev = Some c)
  | Raise e s' => e = InvalidCommitish rev /\ s' = s /\ ref_commit rev = None
  | OutOfFuel _ => False
  end.
Proof.
  unfold get_commit, bind, gets, modify, ret, raise.
  destruct (Dict.get (RevStr rev) (commits s)) as [c|] eqn:Hhit.
  - rewrite Hhit. repeat split; try congruence. now destruct s.
  - destruct (ref_commit rev) as [c|] eqn:Href; [|auto].
    cbn [commits with_commits]. rewrite rev_get_set, String.eqb_refl.
    repeat split.
    intros rev' c' Hc'. rewrite rev_get_set.
    destruct (String.eqb_spec rev rev') as [->|]; [congruence|exact Hc'].
Qed.

(** X3.  [get_commit] asks the repository once per revision string: a call
    that returns leaves the revision in the cache, so that the same
    call in the detector it leaves returns the same commit and changes
    nothing; it changes nothing but the cache, and no entry that was in
    the cache is replaced.  A revision the repository cannot resolve
    raises [InvalidCommitish] and leaves the detector, cache included,
    as it was. *)
Theorem get_commit_memoizes rev s :
  match get_commit rev s with
  | Ok c s' =>
      get_commit rev s' = Ok c s' /\
      s' = with_commits (commits s') s /\
      (forall rev' c', Dict.get (RevStr rev') (commits s) = Some c' ->
                       Dict.get (RevStr rev') (commits s') = Some c') /\
      (Dict.get (RevStr rev) (commits s) = None -> ref_commit rev = Some c)
  | Raise e s' => e = InvalidCommitish rev /\ s' = s /\ ref_commit rev = None
  | OutOfFuel _ => False
  end.
Proof. apply get_commit_outcome. Qed.

Lemma branch_contains_hit c branch bc row b s :
  Dict.get (RevStr branch) (commits s) = Some bc ->
  Dict.get (commit_id c) (branch_contains_cache s) = Some row ->
  Dict.get (commit_id bc) row = Some b ->
  branch_contains c branch s = Ok b s.
Proof.
  intros Hbc Hrow Hb.
  unfold branch_contains, get_commit, bind, gets, getitem, ret, Dict.mem.
  rewrite Hbc. cbn beta iota zeta. rewrite Hrow. cbn beta iota.
  rewrite Hrow. cbn beta iota. now rewrite Hb.
Qed.

Lemma branch_contains_leaves_answer c branch s :
  ends (branch_contains c branch s)
    (fun b s' =>
       exists bc row,
         Dict.get (RevStr branch) (commits s') = Some bc /\
         Dict.get (commit_id c) (branch_contains_cache s') = Some row /\
         Dict.get (commit_id bc) row = Some b)
    (fun _ => True) (fun _ => False).
Proof.
  unfold branch_contains, get_commit. cbv zeta.
  run;
    cbn [commits branch_contains_cache with_commits
         with_branch_contains_cache with_calls] in *;
    try exact I.
  all: repeat match goal with
         | H : Dict.get ?k (Dict.set ?k ?v ?m) = _ |- _ =>
             rewrite get_set_eq in H; injection H as <-
         end.
  all: try (simpl in *; discriminate).
  all: refine (ex_intro _ _ (ex_intro _ _ (conj _ (conj _ _))));
    [ first [eassumption
            |rewrite rev_get_set, String.eqb_refl; reflexivity]
    | first [eassumption|apply get_set_eq]
    | first [eassumption|apply get_set_eq] ].
Qed.

(** X4.  [branch_contains] memoizes: in the detector a call leaves behind,
    the same question gets the same answer from the table and the
    detector stays as it is, the log of repository requests included:
    the merge base is not asked for again. *)
Theorem branch_contains_memoizes c branch s :
  match branch_contains c branch s with
  | Ok b s' => branch_contains c branch s' = Ok b s'
  | _ => True
  end.
Proof.
  pose proof (branch_contains_leaves_answer c branch s) as Hrun.
  destruct (branch_contains c branch s) as [b s'|e s'|s']; [|exact I|exact I].
  destruct Hrun as (bc & row & Hbc & Hrow & Hb).
  exact (branch_contains_hit c branch bc row b s' Hbc Hrow Hb).
Qed.

(** X5.  [is_excluded] goes through the boundaries from left to right and
    stops at the first that contains the commit (or raises): what comes
    after it is not resolved and not compared, and has no influence on
    the answer or on the detector. *)
Theorem is_excluded_loop_app c pre post s :
  is_excluded_loop c (pre ++ post) s
  = match is_excluded_loop c pre s with
    | Ok false s' => is_excluded_loop c post s'
    | o => o
    end.
Proof.
  revert s. induction pre as [|b pre IH]; intros s; simpl; [reflexivity|].
  unfold bind.
  destruct (branch_contains c b s) as [[|] s1|e s1|s1];
    [reflexivity|apply IH|reflexivity|reflexivity].
Qed.

Lemma find_dependencies_unfold fuel dependent_rev recurse_arg s :
  match get_commit dependent_rev s with
  | Ok dependent s1 =>
      find_dependencies fuel dependent_rev recurse_arg s
      = match todo_loop fuel
                (with_todo_d
                   (Dict.set (commit_id dependent) true (todo_d s1))
                   (with_todo (todo s1 ++ [dependent]) s1)) with
        | Ok _ s2 => Ok tt (with_notified (notified s2 ++ [all_done]) s2)
        | o => o
        end
  | Raise _ _ =>
      find_dependencies fuel dependent_rev recurse_arg s = Raise SystemExit s
  | OutOfFuel _ => False
  end.
Proof.
  pose proof (get_commit_outcome dependent_rev s) as Hget.
  unfold find_dependencies, try_except_InvalidCommitish. cbv zeta.
  destruct (get_commit dependent_rev s) as [dependent s1|e s1|s1] eqn:Hrev;
    [|apply bind_raise; rewrite Hrev;
      destruct Hget as (-> & -> & _); reflexivity
     |exact Hget].
  rewrite (bind_ok _ _ s dependent s1) by now rewrite Hrev.
  unfold bind, modify, notify_listeners. cbn [todo todo_d with_todo].
  now destruct (todo_loop fuel _) as [[] s2|e s2|s2].
Qed.


(** X7.  Asking again for a commit that is done: with an empty worklist the
    seed is queued, taken from the worklist and dropped; graph, done
    list, worklist and request log stay as they are and [all_done] is
    the one notification. *)
Theorem find_dependencies_again fuel dependent_rev recurse_arg c s s1 :
  todo s = [] -> todo_d s = [] ->
  get_commit dependent_rev s = Ok c s1 ->
  Dict.mem (commit_id c) (done_d s) = true ->
  find_dependencies (S fuel) dependent_rev recurse_arg s
  = Ok tt (with_notified (notified s ++ [all_done]) s1).
Proof.
  intros Htodo Htodo_d Hget Hdone.
  pose proof (find_dependencies_unfold
                (S fuel) dependent_rev recurse_arg s) as Hrun.
  pose proof (get_commit_frame dependent_rev s) as Hframe.
  rewrite Hget in Hrun, Hframe. rewrite Hrun. clear Hrun.
  destruct Hframe as (Hdeps & Ht & Htd & Hdn & Hdnd & Hn).
  destruct s1 as [deps1 td1 tdd1 dn1 dnd1 cm1 memo1 not1 calls1].
  simpl in Hdeps, Ht, Htd, Hdn, Hdnd, Hn. subst.
  rewrite Htodo, Htodo_d.
  cbn [todo_loop todo with_todo_d with_todo app].
  unfold process_todo, bind, modify, gets, ret, raise.
  cbn [todo_d done_d with_todo with_todo_d Dict.set].
  rewrite (mem_set_eq (commit_id c) true []
           : Dict.mem (commit_id c) [(commit_id c, true)] = true).
  cbn [todo_d done_d with_todo with_todo_d Dict.set Dict.del].
  rewrite Hdone.
  change (py_eqb (commit_id c) (commit_id c))
    with (String.eqb (commit_id c) (commit_id c)).
  rewrite String.eqb_refl.
  destruct fuel; reflexivity.
Qed.

Lemma split_not_nil sep a : split sep a <> [].
Proof.
  destruct a as [|ch a]; simpl; [discriminate|].
  destruct (Ascii.eqb ch sep); [discriminate|].
  destruct (split sep a); discriminate.
Qed.

Lemma split_app sep a b :
  split sep (a ++ String sep b) = split sep a ++ split sep b.
Proof.
  induction a as [|ch a IH]; simpl.
  - now rewrite Ascii.eqb_refl.
  - destruct (Ascii.eqb ch sep); [now rewrite IH|].
    rewrite IH. pose proof (split_not_nil sep a) as Hne.
    destruct (split sep a); [contradiction|reflexivity].
Qed.

Lemma tree_lookup_loop_app xs ys s :
  forall obj,
    tree_lookup_loop (xs ++ ys) obj s
    = match tree_lookup_loop xs obj s with
      | Ok (Some o) s' => tree_lookup_loop ys o s'
      | other => other
      end.
Proof.
  induction xs as [|dirent xs IH]; intros obj; simpl; [reflexivity|].
  destruct obj as [data|entries]; [reflexivity|].
  destruct (Dict.get dirent entries) as [oid|]; [|reflexivity].
  destruct (repo_getitem oid) as [obj|]; [apply IH|reflexivity].
Qed.

(** X8.  A path is looked up one segment after another: looking up
    [a/b] is looking up [b] in what [a] leads to, and when [a] leads
    nowhere (or the object store fails) that is the result for [a/b]
    as well. *)
Theorem tree_lookup_descends a b c s :
  tree_lookup (a ++ "/" ++ b) c s
  = match tree_lookup a c s with
    | Ok (Some o) s' => tree_lookup_loop (split "/" b) o s'
    | other => other
    end.
Proof.
  unfold tree_lookup.
  change (a ++ "/" ++ b)%string with (a ++ String "/" b)%string.
  rewrite split_app. apply tree_lookup_loop_app.
Qed.

End CacheUse.

Lemma find_dependencies_again_witness :
  find_dependencies (repo := Linear.repo) (options := Linear.recursive)
    1 "aaaa" None root_done
  = Ok tt (with_notified [all_done]
             (with_commits [(RevStr "aaaa", Linear.ca)] root_done)).
Proof.
  exact (find_dependencies_again
           (repo := Linear.repo) (options := Linear.recursive)
           0 "aaaa" None Linear.ca root_done
           (with_commits [(RevStr "aaaa", Linear.ca)] root_done)
           eq_refl eq_refl eq_refl eq_refl).
Defined.

(* ================================================================== *)
(** * How the graph changes *)

Section DictAgain.
Context {K V : Type} `{PyEqLaws K}.

Lemma set_set (k : K) (v v0 : V) (d : dict K V) :
  Dict.set k v (Dict.set k v0 d) = Dict.set k v d.
Proof.
  induction d as [|[k0 x] d IH]; simpl.
  - now rewrite py_eqb_refl.
  - destruct (py_eqb k0 k) eqn:E; simpl; rewrite E; [reflexivity|].
    now rewrite IH.
Qed.

Lemma set_not_nil (k : K) (v : V) (d : dict K V) : Dict.set k v d <> [].
Proof.
  destruct d as [|[k0 x] d]; simpl; [discriminate|].
  destruct (py_eqb k0 k); discriminate.
Qed.

End DictAgain.

Lemma sources_in_set_edge d e x (by_d : dict string dep_sources_t)
    (deps : dependencies_t) d' e' :
  Dict.get d deps = Some by_d ->
  sources_in (Dict.set d (Dict.set e x by_d) deps) d' e'
  = if String.eqb d' d && String.eqb e' e then Some x
    else sources_in deps d' e'.
Proof.
  intros Hd. unfold sources_in.
  destruct (String.eqb_spec d' d) as [->|Hne]; simpl.
  - rewrite get_set_eq, Hd.
    destruct (String.eqb_spec e' e) as [->|Hnee].
    + apply get_set_eq.
    + now apply get_set_ne.
  - now rewrite get_set_ne.
Qed.

Lemma sources_in_registered d (deps : dependencies_t) d' e' :
  Dict.mem d deps = false ->
  sources_in (Dict.set d [] deps) d' e' = sources_in deps d' e'.
Proof.
  intros Hd. unfold sources_in.
  destruct (String.eqb_spec d' d) as [->|Hne].
  - now rewrite get_set_eq, (mem_false_get _ _ Hd).
  - now rewrite get_set_ne.
Qed.

Lemma add_line_sets d e path n line (by_d : dict string dep_sources_t)
    (deps : dependencies_t) :
  Dict.get d deps = Some by_d ->
  add_line d e path n line deps
  = Dict.set d
      (Dict.set e
         (Dict.set path
            (Dict.set n line (lines_or_empty (edge_or_empty by_d e) path))
            (edge_or_empty by_d e)) by_d) deps.
Proof. intros Hd. unfold add_line. now rewrite Hd. Qed.

Lemma add_line_new_edge d e path n line (by_d : dict string dep_sources_t)
    (deps : dependencies_t) :
  Dict.get d deps = Some by_d -> Dict.get e by_d = None ->
  add_line d e path n line (Dict.set d (Dict.set e [] by_d) deps)
  = add_line d e path n line deps.
Proof.
  intros Hd He.
  rewrite (add_line_sets d e path n line (Dict.set e [] by_d))
    by apply get_set_eq.
  rewrite (add_line_sets d e path n line by_d) by exact Hd.
  unfold edge_or_empty. rewrite get_set_eq, He.
  now rewrite !set_set.
Qed.

Lemma graph_steps_trans d deps1 deps2 deps3 :
  graph_steps d deps1 deps2 -> graph_steps d deps2 deps3 ->
  graph_steps d deps1 deps3.
Proof.
  intros H12 H23. induction H23 as [deps|deps2 deps3 deps4 _ IH Hstep];
    [exact H12|].
  eapply steps_more; [now apply IH|exact Hstep].
Qed.

Lemma graph_steps_one d deps deps' :
  graph_step d deps deps' -> graph_steps d deps deps'.
Proof. intros Hstep. eapply steps_more; [apply steps_none|exact Hstep]. Qed.

Lemma graph_run_trans deps1 deps2 deps3 :
  graph_run deps1 deps2 -> graph_run deps2 deps3 -> graph_run deps1 deps3.
Proof.
  intros H12 H23. induction H23 as [deps|d deps2 deps3 deps4 _ IH Hstep];
    [exact H12|].
  eapply run_more; [now apply IH|exact Hstep].
Qed.

Lemma graph_steps_run d deps deps' :
  graph_steps d deps deps' -> graph_run deps deps'.
Proof.
  induction 1 as [deps|deps1 deps2 deps3 _ IH Hstep]; [apply run_none|].
  eapply run_more; [exact IH|exact Hstep].
Qed.

Section GraphSteps.
Context {repo : Repo} {options : Options}.

(** [record_dependency_source] on an edge that is there: it aborts on a
    line that is recorded already and records the line otherwise. *)
Lemma record_dependency_source_runs
    parent dependent d dependency e path n line s
    (by_d : dict string dep_sources_t) (src : dep_sources_t) :
  Dict.get d (dependencies s) = Some by_d -> Dict.get e by_d = Some src ->
  record_dependency_source parent dependent d dependency e path n line s
  = if Dict.mem n (lines_or_empty src path) then Raise SystemExit s
    else Ok tt
           (with_notified
              (notified s
               ++ (if Dict.mem path src then []
                   else [new_path dependent dependency path n])
               ++ [new_line dependent dependency path n])
              (with_dependencies
                 (add_line d e path n line (dependencies s)) s)).
Proof.
  intros Hd He. rewrite (add_line_sets _ _ _ _ _ by_d) by exact Hd.
  unfold lines_or_empty, edge_or_empty. rewrite He.
  destruct (Dict.get path src) as [ls|] eqn:Hp.
  - rewrite (record_dependency_source_present _ _ _ _ _ _ _ _ _ _ _ _
               Hd He Hp).
    now rewrite (get_some_mem _ _ _ Hp).
  - rewrite (record_dependency_source_absent _ _ _ _ _ _ _ _ _ _ _
               Hd He Hp).
    rewrite (get_none_mem _ _ Hp), set_set, <- app_assoc. reflexivity.
Qed.

Lemma record_dependency_source_no_edge
    parent dependent d dependency e path n line s
    (by_d : dict string dep_sources_t) :
  Dict.get d (dependencies s) = Some by_d -> Dict.get e by_d = None ->
  record_dependency_source parent dependent d dependency e path n line s
  = Raise KeyError s.
Proof.
  intros Hd He.
  unfold record_dependency_source, bind, gets, getitem, ret, raise.
  rewrite Hd. cbn beta iota. now rewrite He.
Qed.

Lemma process_new_dependency_graph
    dependent d dependency e path n (by_d : dict string dep_sources_t) s :
  Dict.get d (dependencies s) = Some by_d ->
  ends (process_new_dependency dependent d dependency e path n s)
    (fun _ s' =>
       dependencies s' = dependencies s \/
       dependencies s' = Dict.set d (Dict.set e [] by_d) (dependencies s))
    (fun _ => False) (fun _ => False).
Proof.
  intros Hd. unfold process_new_dependency, seen_commit.
  run; simpl in *; try congruence; auto.
  all: right;
    match goal with
    | H : Dict.get _ (dependencies _) = Some _ |- _ =>
        rewrite Hd in H; injection H as <-
    end; reflexivity.
Qed.

(** One blame result changes the graph by one recorded line, or not at
    all; when it raises, the graph is as it was. *)
Lemma process_blame_hunk_step
    dependent d parent path bh line_to_culprit s :
  ends (process_blame_hunk dependent d parent path bh line_to_culprit s)
    (fun _ s' =>
       dependencies s' = dependencies s \/
       (Dict.mem d (dependencies s) = true /\
        graph_step d (dependencies s) (dependencies s')))
    (fun s' => dependencies s' = dependencies s) (fun _ => False).
Proof.
  unfold process_blame_hunk. cbv zeta.
  call_with (get_commit_frame (orig_commit_id bh) s);
    [|intros s1 Hs1; apply Hs1|auto].
  intros c s1 (Hdeps1 & _).
  call_with (is_excluded_frame c s1);
    [|intros s2 (Hdeps2 & _); congruence|auto].
  intros b s2 (Hdeps2 & _).
  assert (Hdeps : dependencies s2 = dependencies s) by congruence.
  destruct b; [apply ends_ret; now left|].
  apply ends_bind, ends_gets. apply ends_bind. unfold getitem.
  destruct (Dict.get d (dependencies s2)) as [by_d|] eqn:Hd;
    [apply ends_ret|apply ends_raise; exact Hdeps].
  assert (Hstep :
            forall src,
              edge_or_empty by_d (orig_commit_id bh) = src ->
              Dict.mem (final_start_line_number bh)
                (lines_or_empty src path) = false ->
              graph_step d (dependencies s)
                (add_line d (orig_commit_id bh) path
                   (final_start_line_number bh)
                   (line_representation (orig_commit_id bh)
                      (orig_start_line_number bh)
                      (final_start_line_number bh))
                   (dependencies s2))).
  { intros src <- Hn. rewrite Hdeps in Hd |- *. now apply step_line with by_d. }
  fold (line_representation (orig_commit_id bh) (orig_start_line_number bh)
          (final_start_line_number bh)).
  destruct (Dict.mem (orig_commit_id bh) by_d) eqn:Hmem.
  - apply ends_bind, ends_ret. apply ends_bind.
    destruct (mem_true_get _ _ Hmem) as [src He].
    rewrite (record_dependency_source_runs _ _ _ _ _ _ _ _ _ _ _ Hd He).
    destruct (Dict.mem (final_start_line_number bh) (lines_or_empty src path))
      eqn:Hn; cbn [ends ret]; [exact Hdeps|].
    right. split; [rewrite <- Hdeps; now apply (get_some_mem _ by_d)|].
    apply (Hstep src); [|exact Hn].
    unfold edge_or_empty. now rewrite He.
  - pose proof (mem_false_get _ _ Hmem) as He.
    call_with (process_new_dependency_graph dependent d c
                 (orig_commit_id bh) path (final_start_line_number bh)
                 by_d s2 Hd); [|intros ? []|auto].
    intros _ s3 [Hsame|Hset]; apply ends_bind.
    + rewrite <- Hsame in Hd.
      rewrite (record_dependency_source_no_edge _ _ _ _ _ _ _ _ _ _ Hd He).
      cbn [ends]. congruence.
    + assert (Hd3 : Dict.get d (dependencies s3)
                    = Some (Dict.set (orig_commit_id bh) [] by_d))
        by (rewrite Hset; apply get_set_eq).
      rewrite (record_dependency_source_runs _ _ _ _ _ _ _ _ _ _ [] Hd3)
        by apply get_set_eq.
      cbn [lines_or_empty Dict.get Dict.mem ends ret dependencies
           with_notified with_dependencies].
      right. split; [rewrite <- Hdeps; now apply (get_some_mem _ by_d)|].
      rewrite Hset, (add_line_new_edge _ _ _ _ _ by_d) by assumption.
      apply (Hstep []); [|reflexivity].
      unfold edge_or_empty. now rewrite He.
Qed.

Lemma blame_diff_hunk_steps dependent parent path h s :
  ends (blame_diff_hunk dependent parent path h s)
    (fun _ s' =>
       graph_steps (commit_id dependent) (dependencies s) (dependencies s'))
    (fun s' =>
       graph_steps (commit_id dependent) (dependencies s) (dependencies s'))
    (fun _ => False).
Proof.
  unfold blame_diff_hunk.
  call_with (tree_lookup_loop_pure (split "/" path) (Tree (tree parent)) s);
    [|intros ? ->; apply steps_none|intros ? []].
  intros found s1 ->.
  destruct (negb (truthy found)); [run; apply steps_none|].
  call_with (run_blame_spec h parent path s);
    [|intros ? ->; apply steps_none|intros ? []].
  intros bhs s1 [_ ->].
  apply ends_bind.
  eapply ends_mono with
    (Q := fun _ s' =>
            graph_steps (commit_id dependent) (dependencies s)
              (dependencies s'))
    (E := fun _ => False) (T := fun _ => False);
    [| |intros ? []|intros ? []].
  { unfold register_new_dependent. run; simpl; [apply steps_none|].
    apply graph_steps_one. now apply step_register. }
  intros _ s2 H2. cbv beta. apply ends_bind.
  eapply ends_mono;
    [apply (ends_for_fold
              (fun _ s' =>
                 graph_steps (commit_id dependent) (dependencies s)
                   (dependencies s'))
              (fun s' =>
                 graph_steps (commit_id dependent) (dependencies s)
                   (dependencies s'))
              (fun _ => False))
    | | |]; cbv beta; [|exact H2| |auto|intros ? []].
  - intros bh ltc s3 _ H3.
    eapply ends_mono; [apply process_blame_hunk_step| | |auto]; cbv beta.
    + intros _ s4 [Hsame|[_ Hstep]]; [now rewrite Hsame|].
      eapply steps_more; eassumption.
    + intros s4 Hsame. now rewrite Hsame.
  - intros ltc s3 H3.
    eapply ends_mono; [apply debug_hunk_loop_pure| | |]; cbv beta;
      [intros ? ? ->; exact H3|intros ? ->; exact H3|intros ? []].
Qed.

Lemma find_dependencies_with_parent_steps dependent parent s :
  ends (find_dependencies_with_parent dependent parent s)
    (fun _ s' =>
       graph_steps (commit_id dependent) (dependencies s) (dependencies s'))
    (fun s' =>
       graph_steps (commit_id dependent) (dependencies s) (dependencies s'))
    (fun _ => False).
Proof.
  unfold find_dependencies_with_parent.
  apply ends_bind, ends_log_call. cbv zeta.
  apply (ends_for_each
           (fun s' =>
              graph_steps (commit_id dependent) (dependencies s)
                (dependencies s'))); [|apply steps_none].
  intros p s1 _ H1.
  apply (ends_for_each
           (fun s' =>
              graph_steps (commit_id dependent) (dependencies s)
                (dependencies s'))); [|exact H1].
  intros h s2 _ H2.
  eapply ends_mono; [apply blame_diff_hunk_steps| | |auto]; cbv beta;
    intros; eapply graph_steps_trans; eassumption.
Qed.

(** One turn of the loop changes the graph for the commit it takes
    from the worklist only. *)
Lemma process_todo_steps dependent rest s :
  ends (process_todo dependent rest s)
    (fun _ s' =>
       graph_steps (commit_id dependent) (dependencies s) (dependencies s'))
    (fun s' =>
       graph_steps (commit_id dependent) (dependencies s) (dependencies s'))
    (fun _ => False).
Proof.
  unfold process_todo.
  apply ends_bind, ends_modify. apply ends_bind, ends_gets.
  apply ends_bind.
  destruct (Dict.mem _ _); [apply ends_modify|apply ends_raise, steps_none].
  apply ends_bind, ends_gets.
  destruct (Dict.mem _ _); [apply ends_ret, steps_none|].
  apply ends_bind, ends_notify. apply ends_bind.
  eapply ends_mono with
    (Q := fun _ s' =>
            graph_steps (commit_id dependent) (dependencies s)
              (dependencies s'))
    (E := fun s' =>
            graph_steps (commit_id dependent) (dependencies s)
              (dependencies s'))
    (T := fun _ => False);
    [| |auto|auto].
  - destruct (parents dependent) as [|parent others];
      [apply ends_ret, steps_none|].
    match goal with
    | |- ends (_ ?s1) _ _ _ =>
        exact (find_dependencies_with_parent_steps dependent parent s1)
    end.
  - intros _ s2 H2. run. exact H2.
Qed.

Lemma todo_loop_run fuel :
  forall s,
    sat (todo_loop fuel s)
      (fun _ s' => graph_run (dependencies s) (dependencies s'))
      (fun s' => graph_run (dependencies s) (dependencies s')).
Proof.
  induction fuel as [|fuel IH]; intros s; simpl;
    destruct (todo s) as [|dependent rest]; try apply run_none.
  call_with (process_todo_steps dependent rest s);
    [|intros ? ?; now apply (graph_steps_run (commit_id dependent))
     |intros ? []].
  intros _ s1 H1. apply (graph_steps_run (commit_id dependent)) in H1.
  eapply ends_mono; [apply IH| | |]; cbv beta;
    intros; eapply graph_run_trans; eassumption.
Qed.

Lemma find_dependencies_run fuel dependent_rev recurse_arg s :
  graph_run (dependencies s)
    (dependencies (final (find_dependencies fuel dependent_rev recurse_arg s))).
Proof.
  pose proof (find_dependencies_unfold
                fuel dependent_rev recurse_arg s) as Hrun.
  pose proof (get_commit_frame dependent_rev s) as Hframe.
  destruct (get_commit dependent_rev s) as [dependent s1|e s1|s1];
    [|rewrite Hrun; apply run_none|contradiction].
  rewrite Hrun. destruct Hframe as (Hdeps & _).
  match goal with
  | |- context [todo_loop fuel ?s2] =>
      pose proof (todo_loop_run fuel s2) as Hloop;
      destruct (todo_loop fuel s2) as [[] s3|e s3|s3]
  end; simpl in Hloop |- *; now rewrite <- Hdeps.
Qed.

End GraphSteps.

(** What a step does to the recorded lines. *)
Lemma line_in_registered d (deps : dependencies_t) d0 e0 p0 n0 :
  Dict.mem d deps = false ->
  line_in (Dict.set d [] deps) d0 e0 p0 n0 = line_in deps d0 e0 p0 n0.
Proof. intros Hd. unfold line_in. now rewrite sources_in_registered. Qed.

Lemma line_in_add_line d e path n line (by_d : dict string dep_sources_t)
    (deps : dependencies_t) d0 e0 p0 n0 :
  Dict.get d deps = Some by_d ->
  line_in (add_line d e path n line deps) d0 e0 p0 n0
  = if String.eqb d0 d && String.eqb e0 e && String.eqb p0 path
       && Z.eqb n0 n
    then Some line else line_in deps d0 e0 p0 n0.
Proof.
  intros Hd. unfold line_in.
  rewrite (add_line_sets _ _ _ _ _ by_d), sources_in_set_edge by exact Hd.
  destruct (String.eqb_spec d0 d) as [->|Hd0]; [|reflexivity].
  destruct (String.eqb_spec e0 e) as [->|He0]; [|reflexivity].
  cbn [andb]. unfold sources_in. rewrite Hd.
  unfold edge_or_empty, lines_or_empty.
  destruct (String.eqb_spec p0 path) as [->|Hp0]; cbn [andb].
  - rewrite get_set_eq.
    destruct (Z.eqb_spec n0 n) as [->|Hn0]; [apply get_set_eq|].
    rewrite get_set_ne by exact Hn0.
    destruct (Dict.get e by_d) as [src|]; [|reflexivity].
    now destruct (Dict.get path src).
  - rewrite get_set_ne by exact Hp0.
    now destruct (Dict.get e by_d).
Qed.

Lemma line_in_recorded (by_d : dict string dep_sources_t)
    (deps : dependencies_t) d e path n line :
  Dict.get d deps = Some by_d -> line_in deps d e path n = Some line ->
  Dict.mem n (lines_or_empty (edge_or_empty by_d e) path) = true.
Proof.
  intros Hd. unfold line_in, sources_in, lines_or_empty, edge_or_empty.
  rewrite Hd.
  destruct (Dict.get e by_d) as [src|]; [|discriminate].
  destruct (Dict.get path src) as [ls|]; [|discriminate].
  apply get_some_mem.
Qed.

Lemma graph_le_refl deps : graph_le deps deps.
Proof. constructor; auto. Qed.

Lemma graph_le_trans deps1 deps2 deps3 :
  graph_le deps1 deps2 -> graph_le deps2 deps3 -> graph_le deps1 deps3.
Proof. intros [? ? ?] [? ? ?]. constructor; auto. Qed.

Lemma graph_step_le d deps deps' :
  graph_step d deps deps' -> graph_le deps deps'.
Proof.
  destruct 1 as [deps Hfresh|e path n orig deps by_d Hd Hn].
  - constructor.
    + intros d0 Hd0. rewrite mem_set, Hd0. apply orb_true_r.
    + intros d0 e0. now rewrite sources_in_registered.
    + intros d0 e0 p0 n0 l. now rewrite line_in_registered.
  - constructor.
    + intros d0 Hd0.
      rewrite (add_line_sets _ _ _ _ _ by_d), mem_set, Hd0 by exact Hd.
      apply orb_true_r.
    + intros d0 e0.
      rewrite (add_line_sets _ _ _ _ _ by_d), sources_in_set_edge
        by exact Hd.
      destruct (_ && _); [discriminate|auto].
    + intros d0 e0 p0 n0 l Hl.
      rewrite (line_in_add_line _ _ _ _ _ by_d) by exact Hd.
      destruct (String.eqb_spec d0 d) as [->|]; [|exact Hl].
      destruct (String.eqb_spec e0 e) as [->|]; [|exact Hl].
      destruct (String.eqb_spec p0 path) as [->|]; [|exact Hl].
      destruct (Z.eqb_spec n0 n) as [->|]; [|exact Hl].
      rewrite (line_in_recorded by_d deps d e path n l Hd Hl) in Hn.
      discriminate.
Qed.

Lemma graph_run_le deps deps' : graph_run deps deps' -> graph_le deps deps'.
Proof.
  induction 1 as [deps|d deps1 deps2 deps3 _ IH Hstep];
    [apply graph_le_refl|].
  eapply graph_le_trans; [exact IH|]. now apply (graph_step_le d).
Qed.

Lemma graph_step_evidenced d deps deps' :
  graph_step d deps deps' -> evidenced deps -> evidenced deps'.
Proof.
  destruct 1 as [deps Hfresh|e path n orig deps by_d Hd Hn]; intros Hev.
  - intros d0 e0 src. rewrite sources_in_registered by exact Hfresh.
    apply Hev.
  - intros d0 e0 src0.
    rewrite (add_line_sets _ _ _ _ _ by_d), sources_in_set_edge by exact Hd.
    destruct (String.eqb_spec d0 d) as [->|]; [|apply Hev].
    destruct (String.eqb_spec e0 e) as [->|]; [|apply Hev].
    cbn [andb]. intros [= <-]. split; [apply set_not_nil|].
    intros p ls. destruct (String.eqb_spec p path) as [->|Hp].
    + rewrite get_set_eq. intros [= <-]. apply set_not_nil.
    + rewrite get_set_ne by exact Hp. unfold edge_or_empty.
      destruct (Dict.get e by_d) as [src|] eqn:He; [|discriminate].
      apply (Hev d e src). unfold sources_in. now rewrite Hd.
Qed.

Lemma graph_run_evidenced deps deps' :
  graph_run deps deps' -> evidenced deps -> evidenced deps'.
Proof.
  induction 1 as [deps|d deps1 deps2 deps3 _ IH Hstep]; [auto|].
  intros Hev. apply (graph_step_evidenced d deps2); auto.
Qed.

Lemma graph_step_labelled d deps deps' :
  graph_step d deps deps' -> labelled deps -> labelled deps'.
Proof.
  destruct 1 as [deps Hfresh|e path n orig deps by_d Hd Hn]; intros Hlab.
  - intros d0 e0 p0 n0 l. rewrite line_in_registered by exact Hfresh.
    apply Hlab.
  - intros d0 e0 p0 n0 l.
    rewrite (line_in_add_line _ _ _ _ _ by_d) by exact Hd.
    destruct (String.eqb_spec d0 d) as [->|]; [|apply Hlab].
    destruct (String.eqb_spec e0 e) as [->|]; [|apply Hlab].
    destruct (String.eqb_spec p0 path) as [->|]; [|apply Hlab].
    destruct (Z.eqb_spec n0 n) as [->|]; [|apply Hlab].
    cbn [andb]. intros [= <-]. now exists orig.
Qed.

Lemma graph_run_labelled deps deps' :
  graph_run deps deps' -> labelled deps -> labelled deps'.
Proof.
  induction 1 as [deps|d deps1 deps2 deps3 _ IH Hstep]; [auto|].
  intros Hlab. apply (graph_step_labelled d deps2); auto.
Qed.

(** A step for [d] leaves the entries of the other dependents alone. *)
Lemma graph_step_other d deps deps' d0 :
  graph_step d deps deps' -> d0 <> d -> Dict.get d0 deps' = Dict.get d0 deps.
Proof.
  destruct 1 as [deps Hfresh|e path n orig deps by_d Hd Hn]; intros Hne.
  - now apply get_set_ne.
  - rewrite (add_line_sets _ _ _ _ _ by_d) by exact Hd.
    now apply get_set_ne.
Qed.

Lemma graph_steps_other d deps deps' d0 :
  graph_steps d deps deps' -> d0 <> d ->
  Dict.get d0 deps' = Dict.get d0 deps.
Proof.
  induction 1 as [deps|deps1 deps2 deps3 _ IH Hstep]; intros Hne;
    [reflexivity|].
  rewrite (graph_step_other d deps2 deps3 d0 Hstep Hne). now apply IH.
Qed.

Section GraphFacts.
Context {repo : Repo} {options : Options}.

(** X9.  However a run of [find_dependencies] ends, the graph it leaves has
    every dependent, every edge and every recorded line of the graph it
    started from, each line with the text it had: nothing is removed
    and nothing is overwritten. *)
Theorem graph_only_grows fuel dependent_rev recurse_arg s :
  graph_le (dependencies s)
    (dependencies (final (find_dependencies fuel dependent_rev recurse_arg s))).
Proof. apply graph_run_le, find_dependencies_run. Qed.

(** X10.  An edge is never left without the file and the line that caused
    it: when every edge of the graph has a file and every file a line,
    this is so again however a run of [find_dependencies] ends. *)
Theorem every_edge_has_evidence fuel dependent_rev recurse_arg s :
  evidenced (dependencies s) ->
  evidenced
    (dependencies (final (find_dependencies fuel dependent_rev recurse_arg s))).
Proof. apply graph_run_evidenced, find_dependencies_run. Qed.

(** X11.  The text recorded for a line is made of the keys it is recorded
    under: the dependency's id, a line number of the dependency, and
    the line number itself. *)
Theorem recorded_lines_carry_their_keys fuel dependent_rev recurse_arg s :
  labelled (dependencies s) ->
  labelled
    (dependencies (final (find_dependencies fuel dependent_rev recurse_arg s))).
Proof. apply graph_run_labelled, find_dependencies_run. Qed.

End GraphFacts.

Lemma one_line_recorded_evidenced :
  evidenced (dependencies one_line_recorded).
Proof.
  intros d e src. unfold sources_in. simpl.
  destruct (py_eqb "cccc" d); [|discriminate]. simpl.
  destruct (py_eqb "bbbb" e); [|discriminate].
  intros [= <-]. split; [discriminate|].
  intros path ls. simpl. destruct (py_eqb "src/f.txt" path); [|discriminate].
  intros [= <-]. discriminate.
Qed.

Lemma one_line_recorded_labelled :
  labelled (dependencies one_line_recorded).
Proof.
  intros d e path n line. unfold line_in, sources_in. simpl.
  destruct (py_eqb "cccc" d); [|discriminate]. simpl.
  change (py_eqb "bbbb" e) with (String.eqb "bbbb" e).
  destruct (String.eqb_spec "bbbb" e) as [<-|]; [|discriminate]. simpl.
  destruct (py_eqb "src/f.txt" path); [|discriminate]. simpl.
  change (py_eqb 1 n) with (Z.eqb 1 n).
  destruct (Z.eqb_spec 1 n) as [<-|]; [|discriminate].
  intros [= <-]. now exists 1.
Qed.

Lemma every_edge_has_evidence_witness :
  evidenced (dependencies one_line_recorded) /\
  evidenced
    (dependencies
       (final (find_dependencies (repo := Linear.repo)
                 (options := Linear.recursive) 3 "HEAD" None
                 one_line_recorded))).
Proof.
  split; [exact one_line_recorded_evidenced|].
  exact (every_edge_has_evidence
           (repo := Linear.repo) (options := Linear.recursive)
           3 "HEAD" None one_line_recorded one_line_recorded_evidenced).
Defined.

Lemma recorded_lines_carry_their_keys_witness :
  labelled (dependencies one_line_recorded) /\
  labelled
    (dependencies
       (final (find_dependencies (repo := Linear.repo)
                 (options := Linear.recursive) 3 "HEAD" None
                 one_line_recorded))).
Proof.
  split; [exact one_line_recorded_labelled|].
  exact (recorded_lines_carry_their_keys
           (repo := Linear.repo) (options := Linear.recursive)
           3 "HEAD" None one_line_recorded one_line_recorded_labelled).
Defined.

(* ================================================================== *)
(** * What is asked of the repository *)

Lemma merge_base_calls_snoc cs c :
  merge_base_calls (cs ++ [c])
  = merge_base_calls cs
    ++ match c with call_merge_base a b => [(a, b)] | _ => [] end.
Proof.
  unfold merge_base_calls. rewrite flat_map_app. simpl.
  now rewrite app_nil_r.
Qed.

Lemma memoized_set_row memo a a' b' :
  Dict.mem a memo = false ->
  memoized memo a' b' = true -> memoized (Dict.set a [] memo) a' b' = true.
Proof.
  intros Ha. unfold memoized.
  destruct (String.eqb_spec a' a) as [->|Hne].
  - now rewrite (mem_false_get _ _ Ha).
  - now rewrite get_set_ne.
Qed.

Lemma memoized_set_answer memo a b r row a' b' :
  Dict.get a memo = Some row ->
  memoized (Dict.set a (Dict.set b r row) memo) a' b'
  = (String.eqb a' a && String.eqb b' b) || memoized memo a' b'.
Proof.
  intros Hrow. unfold memoized.
  destruct (String.eqb_spec a' a) as [->|Hne]; simpl.
  - rewrite get_set_eq, Hrow, mem_set.
    change (py_eqb b b') with (String.eqb b b').
    now rewrite (String.eqb_sym b b').
  - now rewrite get_set_ne.
Qed.

Lemma memo_logged_on_other memo cs c :
  is_merge_base_call c = false ->
  memo_logged_on memo cs -> memo_logged_on memo (cs ++ [c]).
Proof.
  intros Hc. unfold memo_logged_on. rewrite merge_base_calls_snoc.
  destruct c; try discriminate; now rewrite app_nil_r.
Qed.

Lemma memo_logged_on_row memo cs a :
  Dict.mem a memo = false ->
  memo_logged_on memo cs -> memo_logged_on (Dict.set a [] memo) cs.
Proof.
  intros Ha [Hnd Hmemo]. split; [exact Hnd|].
  intros a' b' Hin. apply memoized_set_row; auto.
Qed.

Lemma memo_logged_on_miss memo cs a b :
  memoized memo a b = false -> memo_logged_on memo cs ->
  NoDup (merge_base_calls (cs ++ [call_merge_base a b])).
Proof.
  intros Hmiss [Hnd Hmemo]. rewrite merge_base_calls_snoc.
  apply NoDup_snoc; [exact Hnd|].
  intros Hin. apply Hmemo in Hin. congruence.
Qed.

Lemma memo_logged_on_answer memo cs a b r row :
  Dict.get a memo = Some row -> Dict.get b row = None ->
  memo_logged_on memo cs ->
  memo_logged_on (Dict.set a (Dict.set b r row) memo)
    (cs ++ [call_merge_base a b]).
Proof.
  intros Hrow Hb Hlog.
  assert (Hmiss : memoized memo a b = false).
  { unfold memoized. rewrite Hrow. now apply get_none_mem. }
  split; [now apply (memo_logged_on_miss memo)|].
  intros a' b'. rewrite merge_base_calls_snoc, (memoized_set_answer _ _ _ _ row)
    by exact Hrow.
  intros Hin. apply in_app_or in Hin as [Hin|[[= <- <-]|[]]].
  - rewrite (proj2 Hlog a' b' Hin). apply orb_true_r.
  - now rewrite !String.eqb_refl.
Qed.

Section Requests.
Context {repo : Repo} {options : Options}.

Lemma get_commit_logged rev s :
  memo_logged s ->
  ends (get_commit rev s) (fun _ s' => memo_logged s') memo_logged
    (fun _ => False).
Proof.
  intros Hlog. unfold get_commit. run; exact Hlog.
Qed.

Lemma branch_contains_logged c branch s :
  memo_logged s ->
  ends (branch_contains c branch s)
    (fun _ s' => memo_logged s')
    (fun s' => NoDup (merge_base_calls (calls s'))) (fun _ => False).
Proof.
  intros Hlog. unfold branch_contains. cbv zeta.
  call_with (get_commit_logged branch s Hlog);
    [|intros s1 H1; apply H1|auto].
  intros bc s1 Hlog1. unfold memo_logged in *.
  apply ends_bind, ends_gets.
  destruct (Dict.mem (commit_id c) (branch_contains_cache s1)) eqn:Hknown.
  - apply ends_bind, ends_ret. apply ends_bind.
    apply ends_bind, ends_gets. unfold getitem.
    destruct (Dict.get (commit_id c) (branch_contains_cache s1))
      as [row|] eqn:Hrow; [apply ends_ret|apply ends_raise, Hlog1].
    destruct (Dict.get (commit_id bc) row) as [memoized|] eqn:Hb;
      [apply ends_ret; exact Hlog1|].
    apply ends_bind, ends_log_call.
    destruct (check_output_merge_base (commit_id c) (commit_id bc));
      [|apply ends_raise; cbn [calls with_calls];
        apply (memo_logged_on_miss (branch_contains_cache s1)); [|exact Hlog1];
        unfold memoized; rewrite Hrow; now apply get_none_mem].
    apply ends_bind, ends_modify. apply ends_ret.
    cbn [calls branch_contains_cache with_calls with_branch_contains_cache].
    now apply memo_logged_on_answer.
  - apply ends_bind, ends_modify. apply ends_bind.
    apply ends_bind, ends_gets. unfold getitem.
    cbn [calls branch_contains_cache with_calls with_branch_contains_cache].
    rewrite get_set_eq. apply ends_ret. cbn [Dict.get].
    pose proof (memo_logged_on_row _ _ _ Hknown Hlog1) as Hlog2.
    apply ends_bind, ends_log_call.
    destruct (check_output_merge_base (commit_id c) (commit_id bc));
      [|apply ends_raise;
        cbn [calls branch_contains_cache with_calls
             with_branch_contains_cache];
        apply (memo_logged_on_miss
                 (Dict.set (commit_id c) [] (branch_contains_cache s1)));
        [|exact Hlog2];
        unfold memoized; now rewrite get_set_eq].
    apply ends_bind, ends_modify. apply ends_ret.
    cbn [calls branch_contains_cache with_calls with_branch_contains_cache].
    apply memo_logged_on_answer; [apply get_set_eq|reflexivity|exact Hlog2].
Qed.

Lemma is_excluded_loop_logged c excludes :
  forall s,
    memo_logged s ->
    ends (is_excluded_loop c excludes s)
      (fun _ s' => memo_logged s')
      (fun s' => NoDup (merge_base_calls (calls s'))) (fun _ => False).
Proof.
  induction excludes as [|ex rest IH]; intros s Hlog; simpl; [exact Hlog|].
  call_with (branch_contains_logged c ex s Hlog); [|auto|auto].
  intros b s1 Hlog1. destruct b; [exact Hlog1|now apply IH].
Qed.

Lemma is_excluded_logged c s :
  memo_logged s ->
  ends (is_excluded c s)
    (fun _ s' => memo_logged s')
    (fun s' => NoDup (merge_base_calls (calls s'))) (fun _ => False).
Proof.
  intros Hlog. unfold is_excluded. destruct exclude_commits as [excludes|].
  - now apply is_excluded_loop_logged.
  - exact Hlog.
Qed.

Lemma process_blame_hunk_logged
    dependent d parent path bh line_to_culprit s :
  memo_logged s ->
  ends (process_blame_hunk dependent d parent path bh line_to_culprit s)
    (fun _ s' => memo_logged s')
    (fun s' => NoDup (merge_base_calls (calls s'))) (fun _ => False).
Proof.
  intros Hlog. unfold process_blame_hunk. cbv zeta.
  call_with (get_commit_logged (orig_commit_id bh) s Hlog);
    [|intros s1 H1; apply H1|auto].
  intros c s1 Hlog1.
  call_with (is_excluded_logged c s1 Hlog1); [|auto|auto].
  intros b s2 Hlog2.
  unfold process_new_dependency, record_dependency_source, seen_commit.
  run; first [exact Hlog2|apply Hlog2].
Qed.

Lemma blame_diff_hunk_logged dependent parent path h s :
  memo_logged s ->
  ends (blame_diff_hunk dependent parent path h s)
    (fun _ s' => memo_logged s')
    (fun s' => NoDup (merge_base_calls (calls s'))) (fun _ => False).
Proof.
  intros Hlog. unfold blame_diff_hunk.
  call_with (tree_lookup_loop_pure (split "/" path) (Tree (tree parent)) s);
    [|intros ? ->; apply Hlog|auto].
  intros found s1 ->.
  destruct (negb (truthy found)); [run; exact Hlog|].
  assert (Hlog1 :
            memo_logged
              (with_calls
                 (calls s ++ [call_blame path (commit_id parent)
                                (old_start h) (old_lines h)]) s))
    by now apply memo_logged_on_other.
  call_with (run_blame_spec h parent path s);
    [|intros ? ->; apply Hlog1|auto].
  intros bhs s1 [_ ->].
  apply ends_bind.
  eapply ends_mono with
    (Q := fun _ s' => memo_logged s')
    (E := fun _ => False) (T := fun _ => False);
    [unfold register_new_dependent; run; exact Hlog1| |intros ? []|auto].
  intros _ s2 Hlog2. cbv beta. apply ends_bind.
  eapply ends_mono;
    [apply (ends_for_fold (fun _ s' => memo_logged s')
              (fun s' => NoDup (merge_base_calls (calls s')))
              (fun _ => False))
    | | |]; cbv beta; [|exact Hlog2| |auto|auto].
  - intros bh ltc s3 _ Hlog3. now apply process_blame_hunk_logged.
  - intros ltc s3 Hlog3.
    eapply ends_mono; [apply debug_hunk_loop_pure| | |]; cbv beta;
      [intros ? ? ->; exact Hlog3|intros ? ->; apply Hlog3|auto].
Qed.

Lemma process_todo_logged dependent rest s :
  memo_logged s ->
  ends (process_todo dependent rest s)
    (fun _ s' => memo_logged s')
    (fun s' => NoDup (merge_base_calls (calls s'))) (fun _ => False).
Proof.
  intros Hlog. unfold process_todo.
  apply ends_bind, ends_modify. apply ends_bind, ends_gets.
  apply ends_bind.
  destruct (Dict.mem _ _); [apply ends_modify|apply ends_raise, Hlog].
  apply ends_bind, ends_gets.
  destruct (Dict.mem _ _); [apply ends_ret, Hlog|].
  apply ends_bind, ends_notify. apply ends_bind.
  eapply ends_mono with
    (Q := fun _ s' => memo_logged s')
    (E := fun s' => NoDup (merge_base_calls (calls s')))
    (T := fun _ => False); [| |auto|auto].
  - destruct (parents dependent) as [|parent others];
      [apply ends_ret, Hlog|].
    unfold find_dependencies_with_parent.
    apply ends_bind, ends_log_call. cbv zeta.
    apply (ends_for_each memo_logged);
      [|now apply memo_logged_on_other].
    intros p s1 _ Hlog1.
    apply (ends_for_each memo_logged); [|exact Hlog1].
    intros h s2 _ Hlog2. now apply blame_diff_hunk_logged.
  - intros _ s2 Hlog2. run. exact Hlog2.
Qed.

Lemma todo_loop_logged fuel :
  forall s,
    memo_logged s ->
    ends (todo_loop fuel s)
      (fun _ s' => memo_logged s')
      (fun s' => NoDup (merge_base_calls (calls s'))) memo_logged.
Proof.
  induction fuel as [|fuel IH]; intros s Hlog; simpl;
    destruct (todo s) as [|dependent rest]; try exact Hlog.
  call_with (process_todo_logged dependent rest s Hlog); [|auto|intros ? []].
  intros _ s1 Hlog1. now apply IH.
Qed.

(** X12.  [git merge-base] is run at most once for a pair of commits: when
    no pair was asked for twice and every answer is in the table of
    [branch_contains] (as in a fresh detector), then however a run of
    [find_dependencies] ends, no pair was asked for twice; and unless
    the run died of an exception, every answer is in the table
    again. *)
Theorem merge_base_asked_once fuel dependent_rev recurse_arg s :
  memo_logged s ->
  ends (find_dependencies fuel dependent_rev recurse_arg s)
    (fun _ s' => memo_logged s')
    (fun s' => NoDup (merge_base_calls (calls s')))
    memo_logged.
Proof.
  intros Hlog.
  pose proof (find_dependencies_unfold fuel dependent_rev recurse_arg s)
    as Hrun.
  pose proof (get_commit_logged dependent_rev s Hlog) as Hget.
  destruct (get_commit dependent_rev s) as [dependent s1|e s1|s1];
    [|rewrite Hrun; apply Hlog|contradiction].
  rewrite Hrun. simpl in Hget.
  match goal with
  | |- context [todo_loop fuel ?s2] =>
      pose proof (todo_loop_logged fuel s2 Hget) as Hloop;
      destruct (todo_loop fuel s2) as [[] s3|e s3|s3]
  end; exact Hloop.
Qed.

End Requests.

Lemma merge_base_asked_once_witness :
  memo_logged init /\
  ends (find_dependencies (repo := Linear.repo)
          (options := Linear.excluding_a) 3 "HEAD" None init)
    (fun _ s' => memo_logged s')
    (fun s' => NoDup (merge_base_calls (calls s')))
    memo_logged.
Proof.
  assert (Hinit : memo_logged init)
    by (split; [constructor|intros a b []]).
  split; [exact Hinit|].
  exact (merge_base_asked_once
           (repo := Linear.repo) (options := Linear.excluding_a)
           3 "HEAD" None init Hinit).
Defined.

Lemma asked_merge_bases_refl s : asked_merge_bases s s.
Proof. exists []. now rewrite app_nil_r. Qed.

Lemma asked_merge_bases_same s s' :
  calls s' = calls s -> asked_merge_bases s s'.
Proof. intros Heq. exists []. now rewrite app_nil_r. Qed.

Lemma asked_merge_bases_trans s1 s2 s3 :
  asked_merge_bases s1 s2 -> asked_merge_bases s2 s3 ->
  asked_merge_bases s1 s3.
Proof.
  intros [a12 [H12 Ha12]] [a23 [H23 Ha23]]. exists (a12 ++ a23).
  rewrite H23, H12, <- app_assoc, forallb_app, Ha12, Ha23. auto.
Qed.

Lemma asked_merge_bases_calls s s' s'' :
  calls s'' = calls s' -> asked_merge_bases s s' -> asked_merge_bases s s''.
Proof. intros Heq [added [H Ha]]. exists added. now rewrite Heq. Qed.

Lemma diff_calls_app cs cs' :
  diff_calls (cs ++ cs') = diff_calls cs ++ diff_calls cs'.
Proof. apply flat_map_app. Qed.

Lemma diff_calls_merge_bases cs :
  forallb is_merge_base_call cs = true -> diff_calls cs = [].
Proof.
  induction cs as [|c cs IH]; simpl; [reflexivity|].
  intros H. apply andb_true_iff in H as [Hc Hcs].
  destruct c; try discriminate. now apply IH.
Qed.

Section RequestShape.
Context {repo : Repo} {options : Options}.

Lemma branch_contains_asks c branch s :
  sat (branch_contains c branch s)
    (fun _ s' => asked_merge_bases s s') (asked_merge_bases s).
Proof.
  unfold branch_contains, get_commit. cbv zeta.
  run; unfold asked_merge_bases; simpl;
    first [ exists []; now rewrite app_nil_r
          | eexists [_]; split; reflexivity ].
Qed.

Lemma is_excluded_loop_asks c excludes :
  forall s,
    sat (is_excluded_loop c excludes s)
      (fun _ s' => asked_merge_bases s s') (asked_merge_bases s).
Proof.
  induction excludes as [|ex rest IH]; intros s; simpl;
    [apply asked_merge_bases_refl|].
  call_with (branch_contains_asks c ex s); [|auto|auto].
  intros b s1 H1. destruct b; [exact H1|].
  eapply ends_mono; [apply IH| | |]; cbv beta;
    intros; eapply asked_merge_bases_trans; eassumption.
Qed.

Lemma process_blame_hunk_asks
    dependent d parent path bh line_to_culprit s :
  sat (process_blame_hunk dependent d parent path bh line_to_culprit s)
    (fun _ s' => asked_merge_bases s s') (asked_merge_bases s).
Proof.
  unfold process_blame_hunk. cbv zeta.
  apply ends_bind.
  eapply ends_mono with
    (Q := fun _ s' => asked_merge_bases s s')
    (E := asked_merge_bases s) (T := asked_merge_bases s);
    [unfold get_commit; run; now apply asked_merge_bases_same| |auto|auto].
  intros c s1 H1. cbv beta. apply ends_bind.
  eapply ends_mono with
    (Q := fun _ s' => asked_merge_bases s s')
    (E := asked_merge_bases s) (T := asked_merge_bases s);
    [| |auto|auto].
  - unfold is_excluded. destruct exclude_commits as [excludes|];
      [|exact H1].
    eapply ends_mono; [apply is_excluded_loop_asks| | |]; cbv beta;
      intros; eapply asked_merge_bases_trans; eassumption.
  - intros b s2 H2. cbv beta.
    unfold process_new_dependency, record_dependency_source, seen_commit.
    run; (eapply asked_merge_bases_calls; [|exact H2]); reflexivity.
Qed.

Lemma blame_diff_hunk_asks dependent parent path h s :
  sat (blame_diff_hunk dependent parent path h s)
    (fun _ s' =>
       match tree_lookup path parent s with
       | Ok found _ =>
           if truthy found
           then exists more,
                  calls s'
                  = calls s ++ call_blame path (commit_id parent)
                                 (old_start h) (old_lines h) :: more /\
                  forallb is_merge_base_call more = true
           else calls s' = calls s
       | _ => calls s' = calls s
       end)
    (fun s' =>
       match tree_lookup path parent s with
       | Ok found _ =>
           if truthy found
           then exists more,
                  calls s'
                  = calls s ++ call_blame path (commit_id parent)
                                 (old_start h) (old_lines h) :: more /\
                  forallb is_merge_base_call more = true
           else calls s' = calls s
       | _ => calls s' = calls s
       end).
Proof.
  pose proof (tree_lookup_loop_pure (split "/" path) (Tree (tree parent)) s)
    as Hpure.
  unfold blame_diff_hunk, sat. apply ends_bind. unfold tree_lookup in *.
  destruct (tree_lookup_loop (split "/" path) (Tree (tree parent)) s)
    as [found s1|e s1|s1]; simpl in Hpure |- *;
    [subst s1|now subst s1|contradiction].
  destruct (truthy found); cbn [negb]; [|reflexivity].
  set (s1 := with_calls
               (calls s ++ [call_blame path (commit_id parent)
                              (old_start h) (old_lines h)]) s).
  assert (Hfrom : forall s', asked_merge_bases s1 s' ->
            exists more,
              calls s'
              = calls s ++ call_blame path (commit_id parent)
                             (old_start h) (old_lines h) :: more /\
              forallb is_merge_base_call more = true).
  { intros s' [more [Hcalls Hmore]]. exists more.
    rewrite Hcalls. subst s1. simpl. now rewrite <- app_assoc. }
  call_with (run_blame_spec h parent path s);
    [|intros ? ->; apply Hfrom, asked_merge_bases_refl|intros ? []].
  intros bhs s2 [_ ->]. fold s1.
  apply ends_bind.
  eapply ends_mono with
    (Q := fun _ s' => asked_merge_bases s1 s')
    (E := asked_merge_bases s1) (T := asked_merge_bases s1);
    [unfold register_new_dependent; run; now apply asked_merge_bases_same
    | |exact Hfrom|exact Hfrom].
  intros _ s3 H3. cbv beta. apply ends_bind.
  eapply ends_mono;
    [apply (ends_for_fold (fun _ s' => asked_merge_bases s1 s')
              (asked_merge_bases s1) (asked_merge_bases s1))
    | |exact Hfrom|exact Hfrom]; cbv beta; [|exact H3|].
  - intros bh ltc s4 _ H4.
    eapply ends_mono; [apply process_blame_hunk_asks| | |]; cbv beta;
      intros; eapply asked_merge_bases_trans; eassumption.
  - intros ltc s4 H4.
    eapply ends_mono; [apply debug_hunk_loop_pure| | |]; cbv beta;
      [intros ? ? ->; now apply Hfrom|intros ? ->; now apply Hfrom
      |intros ? []].
Qed.

Lemma blame_diff_hunk_no_diff dependent parent path h s :
  sat (blame_diff_hunk dependent parent path h s)
    (fun _ s' => diff_calls (calls s') = diff_calls (calls s))
    (fun s' => diff_calls (calls s') = diff_calls (calls s)).
Proof.
  assert (Hshape : forall s',
            match tree_lookup path parent s with
            | Ok found _ =>
                if truthy found
                then exists more,
                       calls s'
                       = calls s ++ call_blame path (commit_id parent)
                                      (old_start h) (old_lines h) :: more /\
                       forallb is_merge_base_call more = true
                else calls s' = calls s
            | _ => calls s' = calls s
            end -> diff_calls (calls s') = diff_calls (calls s)).
  { intros s' Hs'.
    destruct (tree_lookup path parent s) as [found s1|e s1|s1];
      [|now rewrite Hs'|now rewrite Hs'].
    destruct (truthy found); [|now rewrite Hs'].
    destruct Hs' as [more [-> Hmore]].
    rewrite diff_calls_app. simpl.
    now rewrite (diff_calls_merge_bases more Hmore), app_nil_r. }
  eapply ends_mono; [apply blame_diff_hunk_asks| | |]; cbv beta;
    intros; now apply Hshape.
Qed.


(** X14.  A commit taken from the worklist is diffed against its first
    parent and against no other: one turn of the loop requests that one
    diff when the commit was queued, is not done and has a parent, and
    no diff otherwise, whether the turn returns or raises. *)
Theorem process_todo_diffs_first_parent dependent rest s :
  sat (process_todo dependent rest s)
    (fun _ s' =>
       diff_calls (calls s')
       = diff_calls (calls s)
         ++ if Dict.mem (commit_id dependent) (todo_d s)
               && negb (Dict.mem (commit_id dependent) (done_d s))
            then match parents dependent with
                 | parent :: _ => [(commit_id parent, commit_id dependent)]
                 | [] => []
                 end
            else [])
    (fun s' =>
       diff_calls (calls s')
       = diff_calls (calls s)
         ++ if Dict.mem (commit_id dependent) (todo_d s)
               && negb (Dict.mem (commit_id dependent) (done_d s))
            then match parents dependent with
                 | parent :: _ => [(commit_id parent, commit_id dependent)]
                 | [] => []
                 end
            else []).
Proof.
  unfold process_todo.
  apply ends_bind, ends_modify. apply ends_bind, ends_gets.
  cbn [todo_d done_d with_todo calls].
  apply ends_bind.
  destruct (Dict.mem (commit_id dependent) (todo_d s));
    [apply ends_modify|apply ends_raise; simpl; now rewrite app_nil_r].
  apply ends_bind, ends_gets. cbn [todo_d done_d with_todo with_todo_d calls].
  destruct (Dict.mem (commit_id dependent) (done_d s));
    [apply ends_ret; simpl; now rewrite app_nil_r|].
  cbn [andb negb].
  apply ends_bind, ends_notify. apply ends_bind.
  eapply ends_mono with
    (Q := fun _ s' =>
            diff_calls (calls s')
            = diff_calls (calls s)
              ++ match parents dependent with
                 | parent :: _ => [(commit_id parent, commit_id dependent)]
                 | [] => []
                 end)
    (E := fun s' =>
            diff_calls (calls s')
            = diff_calls (calls s)
              ++ match parents dependent with
                 | parent :: _ => [(commit_id parent, commit_id dependent)]
                 | [] => []
                 end)
    (T := fun s' =>
            diff_calls (calls s')
            = diff_calls (calls s)
              ++ match parents dependent with
                 | parent :: _ => [(commit_id parent, commit_id dependent)]
                 | [] => []
                 end); [| |auto|auto].
  - destruct (parents dependent) as [|parent others];
      [apply ends_ret; simpl; now rewrite app_nil_r|].
    unfold find_dependencies_with_parent.
    apply ends_bind, ends_log_call. cbv zeta.
    apply (ends_for_each
             (fun s' =>
                diff_calls (calls s')
                = diff_calls (calls s)
                  ++ [(commit_id parent, commit_id dependent)]));
      [|simpl; now rewrite diff_calls_app].
    intros p s1 _ H1.
    apply (ends_for_each
             (fun s' =>
                diff_calls (calls s')
                = diff_calls (calls s)
                  ++ [(commit_id parent, commit_id dependent)]));
      [|exact H1].
    intros h s2 _ H2.
    eapply ends_mono; [apply blame_diff_hunk_no_diff| | |]; cbv beta;
      intros; etransitivity; eassumption.
  - intros _ s2 H2. run. exact H2.
Qed.

End RequestShape.

(* ================================================================== *)
(** * Without recursion *)

Lemma graph_step_dependents d deps deps' x :
  graph_step d deps deps' ->
  Dict.mem x deps' = true -> Dict.mem x deps = true \/ x = d.
Proof.
  destruct 1 as [deps Hfresh|e path n orig deps by_d Hd Hn].
  - rewrite mem_set. change (py_eqb d x) with (String.eqb d x).
    destruct (String.eqb_spec d x) as [->|]; auto.
  - rewrite (add_line_sets _ _ _ _ _ by_d) by exact Hd.
    rewrite (mem_set_present _ _ _ _ _ Hd). auto.
Qed.

Lemma graph_steps_dependents d deps deps' x :
  graph_steps d deps deps' ->
  Dict.mem x deps' = true -> Dict.mem x deps = true \/ x = d.
Proof.
  induction 1 as [deps|deps1 deps2 deps3 _ IH Hstep]; [auto|].
  intros Hx. destruct (graph_step_dependents _ _ _ _ Hstep Hx); auto.
Qed.

Section NonRecursive.
Context {repo : Repo} {options : Options}.
Hypothesis no_recurse : recurse = false.

Lemma process_blame_hunk_no_queue
    dependent d parent path bh line_to_culprit s :
  sat (process_blame_hunk dependent d parent path bh line_to_culprit s)
    (fun _ s' => todo s' = todo s) (fun s' => todo s' = todo s).
Proof.
  unfold process_blame_hunk. cbv zeta.
  call_with (get_commit_frame (orig_commit_id bh) s);
    [|intros s1 Hs1; apply Hs1|intros ? []].
  intros c s1 (_ & Htodo1 & _).
  call_with (is_excluded_frame c s1);
    [|intros s2 (_ & Htodo2 & _); congruence|intros ? []].
  intros b s2 (_ & Htodo2 & _).
  assert (Htodo : todo s2 = todo s) by congruence.
  destruct b; [run; exact Htodo|].
  apply ends_bind, ends_gets. apply ends_bind. unfold getitem.
  destruct (Dict.get d (dependencies s2)) as [by_d|];
    [apply ends_ret|apply ends_raise; exact Htodo].
  apply ends_bind.
  eapply ends_mono with (Q := fun _ s' => todo s' = todo s)
                        (E := fun s' => todo s' = todo s)
                        (T := fun s' => todo s' = todo s);
    [| |auto|auto].
  - destruct (Dict.mem (orig_commit_id bh) by_d);
      [apply ends_ret; exact Htodo|].
    eapply ends_mono; [apply process_new_dependency_todo| | |]; cbv beta.
    + intros _ s3. rewrite no_recurse. simpl. congruence.
    + intros s3. congruence.
    + intros s3. congruence.
  - intros _ s3 Htodo3. cbv beta. unfold record_dependency_source.
    run; simpl; exact Htodo3.
Qed.

Lemma process_todo_no_queue dependent rest s :
  sat (process_todo dependent rest s)
    (fun _ s' => todo s' = rest) (fun s' => todo s' = rest).
Proof.
  unfold process_todo.
  apply ends_bind, ends_modify. apply ends_bind, ends_gets.
  apply ends_bind.
  destruct (Dict.mem _ _); [apply ends_modify|apply ends_raise; reflexivity].
  apply ends_bind, ends_gets.
  destruct (Dict.mem _ _); [apply ends_ret; reflexivity|].
  apply ends_bind, ends_notify. apply ends_bind.
  eapply ends_mono with (Q := fun _ s' => todo s' = rest)
                        (E := fun s' => todo s' = rest)
                        (T := fun s' => todo s' = rest);
    [| |auto|auto].
  - destruct (parents dependent) as [|parent others];
      [apply ends_ret; reflexivity|].
    unfold find_dependencies_with_parent.
    apply ends_bind, ends_log_call. cbv zeta.
    apply (ends_for_each (fun s' => todo s' = rest)); [|reflexivity].
    intros p s1 _ H1.
    apply (ends_for_each (fun s' => todo s' = rest)); [|exact H1].
    intros h s2 _ H2. unfold blame_diff_hunk.
    call_with (tree_lookup_loop_pure (split "/" (old_file_path p))
                 (Tree (tree parent)) s2);
      [|intros ? ->; exact H2|intros ? []].
    intros found s3 ->.
    destruct (negb (truthy found)); [run; exact H2|].
    call_with (run_blame_spec h parent (old_file_path p) s2);
      [|intros ? ->; exact H2|intros ? []].
    intros bhs s3 [_ ->].
    apply ends_bind.
    eapply ends_mono with (Q := fun _ s' => todo s' = rest)
                          (E := fun s' => todo s' = rest)
                          (T := fun s' => todo s' = rest);
      [unfold register_new_dependent; run; exact H2| |auto|auto].
    intros _ s4 H4. cbv beta. apply ends_bind.
    eapply ends_mono;
      [apply (ends_for_fold (fun _ s' => todo s' = rest)
                (fun s' => todo s' = rest) (fun s' => todo s' = rest))
      | | |]; cbv beta; [|exact H4| |auto|auto].
    + intros bh ltc s5 _ H5.
      eapply ends_mono; [apply process_blame_hunk_no_queue| | |]; cbv beta;
        intros; congruence.
    + intros ltc s5 H5.
      eapply ends_mono; [apply debug_hunk_loop_pure| | |]; cbv beta;
        [intros ? ? ->; exact H5|intros ? ->; exact H5|intros ? []].
  - intros _ s2 H2. run. exact H2.
Qed.

(** X15.  With [options.recurse] off nothing is queued but the seed: from an
    empty worklist the loop takes one turn, whatever the blame finds.
    The run returns with the worklist empty again, the done list longer
    by the seed (or as it was, for a seed that was done), and no
    dependent in the graph that was not there, the seed apart; or it
    raises. *)
Theorem without_recursion_only_the_seed fuel dependent_rev recurse_arg s :
  todo s = [] ->
  ends (find_dependencies (S fuel) dependent_rev recurse_arg s)
    (fun _ s' =>
       todo s' = [] /\
       exists seed s1,
         get_commit dependent_rev s = Ok seed s1 /\
         done s'
         = (if Dict.mem (commit_id seed) (done_d s) then done s
            else done s ++ [commit_id seed]) /\
         forall x, Dict.mem x (dependencies s') = true ->
                   Dict.mem x (dependencies s) = true \/ x = commit_id seed)
    (fun _ => True) (fun _ => False).
Proof.
  intros Htodo.
  pose proof (find_dependencies_unfold (S fuel) dependent_rev recurse_arg s)
    as Hrun.
  pose proof (get_commit_frame dependent_rev s) as Hframe.
  destruct (get_commit dependent_rev s) as [seed s1|e s1|s1] eqn:Hseed;
    [|now rewrite Hrun|contradiction].
  rewrite Hrun. clear Hrun.
  destruct Hframe as (Hdeps1 & Htodo1 & _ & Hdone1 & Hdone_d1 & _).
  rewrite Htodo1, Htodo.
  cbn [todo_loop todo with_todo with_todo_d app]. unfold bind.
  match goal with
  | |- context [process_todo seed [] ?s2] =>
      pose proof (process_todo_no_queue seed [] s2) as Hqueue;
      pose proof (process_todo_steps seed [] s2) as Hsteps;
      pose proof (process_todo_announces seed [] s2 (mem_set_eq _ _ _))
        as Hdone;
      assert (Hskip : Dict.mem (commit_id seed) (done_d s) = true ->
                      process_todo seed [] s2
                      = Ok tt (with_todo_d
                                 (Dict.del (commit_id seed) (todo_d s2))
                                 (with_todo [] s2)));
      [|destruct (process_todo seed [] s2) as [[] s3|e s3|s3] eqn:Hturn]
  end; [| |exact I|exact Hsteps].
  { intros Hd. unfold process_todo, bind, modify, gets, ret.
    cbn [todo_d done_d with_todo with_todo_d].
    rewrite mem_set_eq. cbn [todo_d done_d with_todo with_todo_d].
    now rewrite Hdone_d1, Hd. }
  unfold sat in *. cbn [ends] in Hqueue, Hsteps, Hdone.
  cbn [dependencies done done_d with_todo with_todo_d] in Hsteps, Hdone.
  destruct fuel; cbn [todo_loop]; rewrite Hqueue; cbn [ends final].
  all: split; [exact Hqueue|]; exists seed, s1; split; [reflexivity|].
  all: split;
    [|intros x Hx; rewrite <- Hdeps1;
      now apply (graph_steps_dependents (commit_id seed) _ (dependencies s3))].
  all: destruct (Dict.mem (commit_id seed) (done_d s)) eqn:Hd;
    [injection (Hskip eq_refl) as ->; exact Hdone1
    |cbn [done with_notified]; rewrite <- Hdone1; apply Hdone;
     now rewrite Hdone_d1].
Qed.

End NonRecursive.

Lemma without_recursion_only_the_seed_witness :
  ends (find_dependencies (repo := Linear.repo) (options := no_recursion)
          1 "HEAD" None init)
    (fun _ s' =>
       todo s' = [] /\
       exists seed s1,
         get_commit (repo := Linear.repo) "HEAD" init = Ok seed s1 /\
         done s'
         = (if Dict.mem (commit_id seed) (done_d init) then done init
            else done init ++ [commit_id seed]) /\
         forall x, Dict.mem x (dependencies s') = true ->
                   Dict.mem x (dependencies init) = true \/
                   x = commit_id seed)
    (fun _ => True) (fun _ => False).
Proof.
  exact (without_recursion_only_the_seed
           (repo := Linear.repo) (options := no_recursion)
           eq_refl 0 "HEAD" None init eq_refl).
Defined.

(* ================================================================== *)
(** * What the listeners are told *)

Lemma done_events_snoc evs e :
  done_events (evs ++ [e])
  = done_events evs
    ++ match e with
       | dependent_done c deps => [(commit_id c, deps)]
       | _ => []
       end.
Proof.
  unfold done_events. rewrite flat_map_app. simpl. now rewrite app_nil_r.
Qed.

Lemma announced_dependents_snoc evs e :
  announced_dependents (evs ++ [e])
  = announced_dependents evs
    ++ match e with new_dependent c => [commit_id c] | _ => [] end.
Proof.
  unfold announced_dependents. rewrite flat_map_app. simpl.
  now rewrite app_nil_r.
Qed.

Lemma graph_step_keys d deps deps' :
  graph_step d deps deps' -> Dict.mem d deps = true ->
  Dict.keys deps' = Dict.keys deps.
Proof.
  destruct 1 as [deps Hfresh|e path n orig deps by_d Hd Hn]; intros Hmem.
  - congruence.
  - rewrite (add_line_sets _ _ _ _ _ by_d), keys_set by exact Hd.
    now rewrite Hmem.
Qed.

Lemma unreported_refl s : unreported s s.
Proof. repeat split. Qed.

Lemma unreported_trans s1 s2 s3 :
  unreported s1 s2 -> unreported s2 s3 -> unreported s1 s3.
Proof.
  unfold unreported. intros (? & ? & ?) (? & ? & ?).
  repeat split; congruence.
Qed.

Lemma unreported_same_graph s s' : same_graph s s' -> unreported s s'.
Proof.
  unfold same_graph, unreported. intros (_ & _ & _ & ? & ? & Hn).
  repeat split; congruence.
Qed.

Section Told.
Context {repo : Repo} {options : Options}.

Ltac told :=
  unfold unreported in *; simpl;
  rewrite ?done_events_snoc, ?announced_dependents_snoc; simpl;
  rewrite ?app_nil_r.

(** Nothing that happens for one blame result tells the listeners of a
    dependent or of a commit that is done. *)
Lemma process_blame_hunk_told
    dependent d parent path bh line_to_culprit s :
  sat (process_blame_hunk dependent d parent path bh line_to_culprit s)
    (fun _ s' =>
       unreported s s' /\
       announced_dependents (notified s')
       = announced_dependents (notified s))
    (fun s' =>
       unreported s s' /\
       announced_dependents (notified s')
       = announced_dependents (notified s)).
Proof.
  unfold process_blame_hunk. cbv zeta.
  assert (Hframe : forall s1 s', same_graph s s1 -> same_graph s1 s' ->
            unreported s s' /\
            announced_dependents (notified s')
            = announced_dependents (notified s)).
  { intros s1 s' H1 H2.
    pose proof (same_graph_trans _ _ _ H1 H2) as H.
    split; [now apply unreported_same_graph|].
    destruct H as (_ & _ & _ & _ & _ & ->). reflexivity. }
  call_with (get_commit_frame (orig_commit_id bh) s);
    [|intros s1 Hs1; apply (Hframe s s1 (same_graph_refl s) Hs1)
     |intros ? []].
  intros c s1 Hs1.
  call_with (is_excluded_frame c s1);
    [|intros s2 Hs2; now apply (Hframe s1)|intros ? []].
  intros b s2 Hs2.
  pose proof (Hframe s1 s2 Hs1 Hs2) as [(Hdone & Hdone_d & Hev) Hann].
  unfold process_new_dependency, record_dependency_source, seen_commit.
  run; told; repeat split; assumption.
Qed.

Lemma blame_diff_hunk_unreported dependent parent path h s :
  sat (blame_diff_hunk dependent parent path h s)
    (fun _ s' => unreported s s') (unreported s).
Proof.
  unfold blame_diff_hunk.
  call_with (tree_lookup_loop_pure (split "/" path) (Tree (tree parent)) s);
    [|intros ? ->; apply unreported_refl|intros ? []].
  intros found s1 ->.
  destruct (negb (truthy found)); [run; apply unreported_refl|].
  call_with (run_blame_spec h parent path s);
    [|intros ? ->; repeat split|intros ? []].
  intros bhs s1 [_ ->].
  apply ends_bind.
  eapply ends_mono with
    (Q := fun _ s' => unreported s s')
    (E := unreported s) (T := unreported s);
    [unfold register_new_dependent; run; told; repeat split| |auto|auto].
  intros _ s2 H2. cbv beta. apply ends_bind.
  eapply ends_mono;
    [apply (ends_for_fold (fun _ s' => unreported s s')
              (unreported s) (unreported s))
    | | |]; cbv beta; [|exact H2| |auto|auto].
  - intros bh ltc s3 _ H3.
    eapply ends_mono; [apply process_blame_hunk_told| | |]; cbv beta;
      intros; (eapply unreported_trans; [eassumption|tauto]).
  - intros ltc s3 H3.
    eapply ends_mono; [apply debug_hunk_loop_pure| | |]; cbv beta;
      [intros ? ? ->; exact H3|intros ? ->; exact H3|intros ? []].
Qed.

Lemma find_dependencies_with_parent_unreported dependent parent s :
  sat (find_dependencies_with_parent dependent parent s)
    (fun _ s' => unreported s s') (unreported s).
Proof.
  unfold find_dependencies_with_parent.
  apply ends_bind, ends_log_call. cbv zeta.
  apply (ends_for_each (unreported s)); [|repeat split].
  intros p s1 _ H1.
  apply (ends_for_each (unreported s)); [|exact H1].
  intros h s2 _ H2.
  eapply ends_mono; [apply blame_diff_hunk_unreported| | |]; cbv beta;
    intros; eapply unreported_trans; eassumption.
Qed.

(** While a commit that is not done is processed, what was reported
    stays right: the steps are for that commit alone. *)
Lemma reported_during d s s' :
  reported s -> Dict.mem d (done_d s) = false ->
  unreported s s' ->
  graph_steps d (dependencies s) (dependencies s') ->
  reported s'.
Proof.
  intros (Hlist & Hgiven & Hdict) Hd (Hdone & Hdone_d & Hev) Hsteps.
  unfold reported. rewrite Hdone, Hdone_d, Hev.
  split; [exact Hlist|]. split; [|exact Hdict].
  intros d0 by_d Hin. rewrite (Hgiven d0 by_d Hin).
  unfold entry_or_empty.
  rewrite (graph_steps_other d _ _ d0 Hsteps); [reflexivity|].
  intros ->. apply (in_map fst) in Hin. rewrite Hlist in Hin.
  apply Hdict in Hin. simpl in Hin. congruence.
Qed.

Lemma process_todo_reported dependent rest s :
  reported s ->
  sat (process_todo dependent rest s) (fun _ s' => reported s') reported.
Proof.
  intros Hrep. unfold process_todo.
  apply ends_bind, ends_modify. apply ends_bind, ends_gets.
  apply ends_bind.
  destruct (Dict.mem _ _); [apply ends_modify|apply ends_raise, Hrep].
  apply ends_bind, ends_gets. cbn [done_d with_todo with_todo_d].
  destruct (Dict.mem (commit_id dependent) (done_d s)) eqn:Hd;
    [apply ends_ret, Hrep|].
  apply ends_bind, ends_notify. apply ends_bind.
  match goal with
  | |- ends (_ ?s0) _ _ _ => set (s1 := s0)
  end.
  assert (Hrep1 : reported s1).
  { destruct Hrep as (? & ? & ?). unfold reported. simpl.
    rewrite done_events_snoc. simpl. rewrite app_nil_r. auto. }
  assert (Hd1 : Dict.mem (commit_id dependent) (done_d s1) = false)
    by exact Hd.
  eapply ends_mono with
    (Q := fun _ s' =>
            unreported s1 s' /\
            graph_steps (commit_id dependent) (dependencies s1)
              (dependencies s'))
    (E := fun s' =>
            unreported s1 s' /\
            graph_steps (commit_id dependent) (dependencies s1)
              (dependencies s'))
    (T := fun s' => unreported s1 s' /\ False).
  { destruct (parents dependent) as [|parent others].
    - apply ends_ret. split; [apply unreported_refl|apply steps_none].
    - apply ends_conj;
        [apply find_dependencies_with_parent_unreported
        |apply find_dependencies_with_parent_steps]. }
  2:{ intros s2 [H2 Hsteps].
      exact (reported_during _ s1 s2 Hrep1 Hd1 H2 Hsteps). }
  2:{ intros s2 [_ []]. }
  intros _ s2 [H2 Hsteps]. cbv beta.
  pose proof (reported_during _ _ s2 Hrep1 Hd1 H2 Hsteps)
    as (Hlist & Hgiven & Hdict).
  run. unfold reported. simpl. rewrite done_events_snoc. simpl.
  split; [now rewrite map_app, Hlist|]. split.
  - intros d0 by_d Hin. apply in_app_or in Hin as [Hin|[[= <- <-]|[]]].
    + now apply Hgiven.
    + reflexivity.
  - intros d0 Hin. rewrite mem_set.
    apply in_app_or in Hin as [Hin|[<-|[]]].
    + rewrite (Hdict d0 Hin). apply orb_true_r.
    + change (py_eqb (commit_id dependent) (commit_id dependent))
        with (String.eqb (commit_id dependent) (commit_id dependent)).
      now rewrite String.eqb_refl.
Qed.

Lemma todo_loop_reported fuel :
  forall s,
    reported s -> sat (todo_loop fuel s) (fun _ s' => reported s') reported.
Proof.
  induction fuel as [|fuel IH]; intros s Hrep; simpl;
    destruct (todo s) as [|dependent rest]; try exact Hrep.
  call_with (process_todo_reported dependent rest s Hrep); [|auto|auto].
  intros _ s1 Hrep1. now apply IH.
Qed.

(** X16.  [dependent_done] is sent for the commits of the done list, once
    each and in the order of the list, and the dependencies handed over
    with it are the commit's entry in the graph, empty if it has none:
    not as it was at that moment only, but as it is however the run
    ends.  (The listener is handed the dictionary itself; nothing is
    recorded for a commit once it is done.) *)
Theorem dependent_done_reports_the_final_entry
    fuel dependent_rev recurse_arg s :
  reported s ->
  reported (final (find_dependencies fuel dependent_rev recurse_arg s)).
Proof.
  intros Hrep.
  pose proof (find_dependencies_unfold fuel dependent_rev recurse_arg s)
    as Hrun.
  pose proof (get_commit_frame dependent_rev s) as Hframe.
  destruct (get_commit dependent_rev s) as [dependent s1|e s1|s1];
    [|rewrite Hrun; exact Hrep|contradiction].
  rewrite Hrun.
  assert (Hrep1 : reported
                    (with_todo_d
                       (Dict.set (commit_id dependent) true (todo_d s1))
                       (with_todo (todo s1 ++ [dependent]) s1))).
  { destruct Hframe as (Hdeps & _ & _ & Hdone & Hdone_d & Hn).
    destruct Hrep as (? & ? & ?). unfold reported. simpl.
    rewrite Hdeps, Hdone, Hdone_d, Hn. auto. }
  pose proof (todo_loop_reported fuel _ Hrep1) as Hloop.
  destruct (todo_loop fuel _) as [[] s3|e s3|s3]; simpl in Hloop |- *;
    try exact Hloop.
  destruct Hloop as (? & ? & ?). unfold reported. simpl.
  rewrite done_events_snoc. simpl. rewrite app_nil_r. auto.
Qed.

Lemma process_blame_hunk_announced
    dependent parent path bh line_to_culprit s :
  dependents_announced s ->
  sat (process_blame_hunk dependent (commit_id dependent) parent path bh
         line_to_culprit s)
    (fun _ s' => dependents_announced s') dependents_announced.
Proof.
  intros Hann. unfold dependents_announced in *.
  eapply ends_mono;
    [apply ends_conj;
       [apply process_blame_hunk_told|apply process_blame_hunk_step]
    | | |]; cbv beta.
  - intros _ s' [[_ Hev] [Hsame|[Hmem Hstep]]].
    + now rewrite Hev, Hsame.
    + now rewrite Hev, (graph_step_keys _ _ _ Hstep Hmem).
  - intros s' [[_ Hev] Hsame]. now rewrite Hev, Hsame.
  - intros s' [_ []].
Qed.

Lemma process_todo_announced dependent rest s :
  dependents_announced s ->
  sat (process_todo dependent rest s)
    (fun _ s' => dependents_announced s') dependents_announced.
Proof.
  intros Hann. unfold process_todo.
  apply ends_bind, ends_modify. apply ends_bind, ends_gets.
  apply ends_bind.
  destruct (Dict.mem _ _); [apply ends_modify|apply ends_raise, Hann].
  apply ends_bind, ends_gets.
  destruct (Dict.mem _ _); [apply ends_ret, Hann|].
  apply ends_bind, ends_notify. apply ends_bind.
  eapply ends_mono with
    (Q := fun _ s' => dependents_announced s')
    (E := dependents_announced) (T := dependents_announced);
    [| |auto|auto].
  - match goal with
    | |- ends (_ ?s1) _ _ _ =>
        assert (Hann1 : dependents_announced s1)
          by (unfold dependents_announced in *; simpl;
              rewrite announced_dependents_snoc; simpl;
              now rewrite app_nil_r)
    end.
    destruct (parents dependent) as [|parent others];
      [apply ends_ret, Hann1|].
    unfold find_dependencies_with_parent.
    apply ends_bind, ends_log_call. cbv zeta.
    apply (ends_for_each dependents_announced); [|exact Hann1].
    intros p s1 _ H1.
    apply (ends_for_each dependents_announced); [|exact H1].
    intros h s2 _ H2. unfold blame_diff_hunk.
    call_with (tree_lookup_loop_pure (split "/" (old_file_path p))
                 (Tree (tree parent)) s2);
      [|intros ? ->; exact H2|intros ? []].
    intros found s3 ->.
    destruct (negb (truthy found)); [run; exact H2|].
    call_with (run_blame_spec h parent (old_file_path p) s2);
      [|intros ? ->; exact H2|intros ? []].
    intros bhs s3 [_ ->].
    apply ends_bind.
    eapply ends_mono with
      (Q := fun _ s' => dependents_announced s')
      (E := dependents_announced) (T := dependents_announced);
      [| |auto|auto].
    + unfold register_new_dependent. run; [exact H2|].
      unfold dependents_announced in *. simpl in *.
      rewrite announced_dependents_snoc, keys_set. simpl.
      match goal with
      | H : Dict.mem _ _ = false |- _ => rewrite H
      end. now rewrite H2.
    + intros _ s4 H4. cbv beta. apply ends_bind.
      eapply ends_mono;
        [apply (ends_for_fold (fun _ s' => dependents_announced s')
                  dependents_announced dependents_announced)
        | | |]; cbv beta; [|exact H4| |auto|auto].
      * intros bh ltc s5 _ H5. now apply process_blame_hunk_announced.
      * intros ltc s5 H5.
        eapply ends_mono; [apply debug_hunk_loop_pure| | |]; cbv beta;
          [intros ? ? ->; exact H5|intros ? ->; exact H5|intros ? []].
  - intros _ s2 H2. run.
    unfold dependents_announced in *. simpl.
    rewrite announced_dependents_snoc. simpl. now rewrite app_nil_r.
Qed.

Lemma todo_loop_announced fuel :
  forall s,
    dependents_announced s ->
    sat (todo_loop fuel s)
      (fun _ s' => dependents_announced s') dependents_announced.
Proof.
  induction fuel as [|fuel IH]; intros s Hann; simpl;
    destruct (todo s) as [|dependent rest]; try exact Hann.
  call_with (process_todo_announced dependent rest s Hann); [|auto|auto].
  intros _ s1 Hann1. now apply IH.
Qed.

(** X17.  [new_dependent] is sent exactly when a commit gets its entry in
    the graph: when the announcements so far list the dependents of the
    graph in the order of their entries, they do so again however a run
    of [find_dependencies] ends. *)
Theorem new_dependent_lists_the_dependents
    fuel dependent_rev recurse_arg s :
  dependents_announced s ->
  dependents_announced
    (final (find_dependencies fuel dependent_rev recurse_arg s)).
Proof.
  intros Hann.
  pose proof (find_dependencies_unfold fuel dependent_rev recurse_arg s)
    as Hrun.
  pose proof (get_commit_frame dependent_rev s) as Hframe.
  destruct (get_commit dependent_rev s) as [dependent s1|e s1|s1];
    [|rewrite Hrun; exact Hann|contradiction].
  rewrite Hrun.
  assert (Hann1 : dependents_announced
                    (with_todo_d
                       (Dict.set (commit_id dependent) true (todo_d s1))
                       (with_todo (todo s1 ++ [dependent]) s1))).
  { destruct Hframe as (Hdeps & _ & _ & _ & _ & Hn).
    unfold dependents_announced in *. simpl. now rewrite Hdeps, Hn. }
  pose proof (todo_loop_announced fuel _ Hann1) as Hloop.
  destruct (todo_loop fuel _) as [[] s3|e s3|s3]; simpl in Hloop |- *;
    try exact Hloop.
  unfold dependents_announced in *. simpl.
  rewrite announced_dependents_snoc. simpl. now rewrite app_nil_r.
Qed.

End Told.

Lemma dependent_done_reports_the_final_entry_witness :
  reported init /\
  reported
    (final (find_dependencies (repo := Linear.repo)
              (options := Linear.recursive) 3 "HEAD" None init)).
Proof.
  assert (Hinit : reported init)
    by (split; [reflexivity|split; [intros ? ? []|intros ? []]]).
  split; [exact Hinit|].
  exact (dependent_done_reports_the_final_entry
           (repo := Linear.repo) (options := Linear.recursive)
           3 "HEAD" None init Hinit).
Defined.

Lemma new_dependent_lists_the_dependents_witness :
  dependents_announced init /\
  dependents_announced
    (final (find_dependencies (repo := Linear.repo)
              (options := Linear.recursive) 3 "HEAD" None init)).
Proof.
  split; [reflexivity|].
  exact (new_dependent_lists_the_dependents
           (repo := Linear.repo) (options := Linear.recursive)
           3 "HEAD" None init eq_refl).
Defined.

(* ================================================================== *)
(** * A commit that only adds files *)

Section OnlyNewFiles.
Context {repo : Repo} {options : Options}.

Lemma for_each_skipped {X} (body : X -> M unit) (l : list X) s :
  (forall x, In x l -> body x s = Ok tt s) -> for_each l body s = Ok tt s.
Proof.
  unfold for_each. induction l as [|x l IH]; intros Hskip; [reflexivity|].
  cbn [for_fold]. rewrite (bind_ok _ _ s tt s) by (apply Hskip; now left).
  apply IH. intros y Hy. apply Hskip. now right.
Qed.

(** X18.  A commit whose diff against its first parent touches only paths
    that are not in the parent's tree (it only added files) is
    processed with one diff request and no blame: it gets no entry in
    the graph, is marked done, and [dependent_done] hands over the
    dependencies it had before, none for a commit that had no entry. *)
Theorem commit_that_only_adds_files dependent parent others rest s :
  Dict.mem (commit_id dependent) (todo_d s) = true ->
  Dict.mem (commit_id dependent) (done_d s) = false ->
  parents dependent = parent :: others ->
  (forall p, In p (repo_diff parent dependent context_lines) ->
             unresolved (split "/" (old_file_path p)) (Tree (tree parent))) ->
  exists s',
    process_todo dependent rest s = Ok tt s' /\
    dependencies s' = dependencies s /\
    calls s' = calls s ++ [call_diff (commit_id parent) (commit_id dependent)] /\
    done s' = done s ++ [commit_id dependent] /\
    todo s' = rest /\
    notified s'
    = notified s
      ++ [new_commit dependent;
          dependent_done dependent
            (entry_or_empty (dependencies s) (commit_id dependent))].
Proof.
  intros Hq Hnd Hpar Hnew.
  assert (Hdiff : forall s1,
            find_dependencies_with_parent dependent parent s1
            = Ok tt (with_calls
                       (calls s1 ++ [call_diff (commit_id parent)
                                       (commit_id dependent)]) s1)).
  { intros s1. unfold find_dependencies_with_parent, log_call. cbv zeta.
    unfold bind at 1, modify.
    apply for_each_skipped. intros p Hp.
    apply for_each_skipped. intros h _.
    apply (blame_diff_hunk_skip _ _ _ _ _ None); [|reflexivity].
    apply tree_lookup_loop_unresolved. now apply Hnew. }
  unfold process_todo, notify_listeners, bind, gets, modify, ret, raise.
  cbn [todo_d done_d with_todo with_todo_d]. rewrite Hq.
  cbn [todo_d done_d with_todo with_todo_d]. rewrite Hnd, Hpar, Hdiff.
  eexists. split; [reflexivity|].
  cbn [dependencies calls done todo notified with_todo with_todo_d
       with_notified with_calls with_done with_done_d].
  rewrite <- app_assoc. repeat split.
Qed.

End OnlyNewFiles.

Lemma commit_that_only_adds_files_witness :
  exists s',
    process_todo (repo := AddedFile.repo) (options := Linear.recursive)
      AddedFile.adds [] AddedFile.queued = Ok tt s' /\
    dependencies s' = [] /\
    calls s' = [call_diff "aaaa" "dddd"] /\
    done s' = ["dddd"] /\
    todo s' = [] /\
    notified s'
    = [new_commit AddedFile.adds; dependent_done AddedFile.adds []].
Proof.
  apply (commit_that_only_adds_files
           (repo := AddedFile.repo) (options := Linear.recursive)
           AddedFile.adds AddedFile.base [] [] AddedFile.queued
           eq_refl eq_refl eq_refl).
  intros p [<-|[]]. now apply unresolved_absent.
Defined.

(* ================================================================== *)
(** * A dependent without dependencies *)

Section EmptyEntry.
Context {repo : Repo} {options : Options}.

(** X19.  The dependent is registered before the blame results are
    looked at: once the path of a hunk leads to something in the
    parent's tree and the blame succeeds, the dependent has its entry
    in the graph, however [blame_diff_hunk] ends: also when the blame is
    empty, when every commit it names is excluded, or when a later step
    raises.  (Such an entry can be empty, and [edges()] then has an
    empty row for the commit.) *)
Theorem blamed_commit_is_a_dependent dependent parent path h found bhs s :
  tree_lookup path parent s = Ok found s -> truthy found = true ->
  attribution h parent path = Some bhs ->
  ends (blame_diff_hunk dependent parent path h s)
    (fun _ s' => Dict.mem (commit_id dependent) (dependencies s') = true)
    (fun s' => Dict.mem (commit_id dependent) (dependencies s') = true)
    (fun _ => False).
Proof.
  intros Hlook Htruthy Hattr. unfold blame_diff_hunk.
  apply ends_bind. rewrite Hlook. cbn [ends]. rewrite Htruthy. cbn [negb].
  apply ends_bind. unfold run_blame.
  fold (attribution h parent path). rewrite Hattr.
  apply ends_bind, ends_log_call. apply ends_ret.
  apply ends_bind.
  eapply ends_mono with
    (Q := fun _ s' => Dict.mem (commit_id dependent) (dependencies s') = true)
    (E := fun _ => False) (T := fun _ => False);
    [| |intros ? []|auto].
  { unfold register_new_dependent. run; [assumption|]. apply mem_set_eq. }
  intros _ s2 H2. cbv beta. apply ends_bind.
  eapply ends_mono;
    [apply (ends_for_fold
              (fun _ s' =>
                 Dict.mem (commit_id dependent) (dependencies s') = true)
              (fun s' =>
                 Dict.mem (commit_id dependent) (dependencies s') = true)
              (fun _ => False))
    | | |]; cbv beta; [|exact H2| |auto|auto].
  - intros bh ltc s3 _ H3.
    eapply ends_mono; [apply process_blame_hunk_step| | |auto]; cbv beta.
    + intros _ s4 [Hsame|[_ Hstep]]; [now rewrite Hsame|].
      now apply (dependents_kept _ _ (graph_step_le _ _ _ Hstep)).
    + intros s4 Hsame. now rewrite Hsame.
  - intros ltc s3 H3.
    eapply ends_mono; [apply debug_hunk_loop_pure| | |]; cbv beta;
      [intros ? ? ->; exact H3|intros ? ->; exact H3|intros ? []].
Qed.

End EmptyEntry.

Lemma blamed_commit_is_a_dependent_witness :
  ends (blame_diff_hunk (repo := Linear.repo) (options := Linear.excluding_a)
          Linear.cb Linear.ca "src/f.txt" Linear.hunk_b init)
    (fun _ s' => Dict.mem "bbbb" (dependencies s') = true)
    (fun s' => Dict.mem "bbbb" (dependencies s') = true)
    (fun _ => False).
Proof.
  exact (blamed_commit_is_a_dependent
           (repo := Linear.repo) (options := Linear.excluding_a)
           Linear.cb Linear.ca "src/f.txt" Linear.hunk_b
           (Some (Blob "one two")) _ init eq_refl eq_refl eq_refl).
Defined.
